(** * Waveboard / Orpheus: the audio scheduling core

    A shallow embedding of [AudioService] (services/audioService.ts): the
    gating evaluator, the voice trigger [scheduleNote], the look-ahead
    [scheduler] and the transport ([start] / [stop]), followed by the
    properties of the design document that concern them.  After it come
    the code around the service: the presets of constants.ts, the scene
    handlers of the control room (components/OrpheusControlRoom.tsx) and
    the guidance logic (services/guidanceLogic.ts), with properties read
    off that code.

    Numbers.  A TypeScript [number] is modelled by [number] below: an exact
    rational, or one of the three special values [NaN], [Infinity],
    [NegInfinity].  The special values follow IEEE 754 as JavaScript does
    (comparisons with [NaN] are false, [Infinity * 0] is [NaN], ...).
    Rounding of finite results, overflow, underflow and the sign of zero
    are not modelled: finite arithmetic is exact and there is a single
    zero.  The properties of the scheduler and of the voices are therefore
    stated on the values the code computes (the step duration, the
    amplitude, the offset) and not on what exact arithmetic would make of
    its inputs: they assume of a computed value what they need (that it is
    finite and positive, that it is not [NaN]) and conclude nothing that
    rests on a finite sum or product being exact.

    Calls.  [start] is [async].  It is modelled in phases, one for each
    stretch between two [await]s: [start] is the call whose continuations
    run before anything else does, and [page_fire] is the event loop in
    which other calls run in between.

    Platform.  The Web Audio graph and the browser timers are modelled by
    what the service asks of them: the oscillators it creates (with the
    arguments of the envelope calls it issues), the oscillators it stops,
    and the pending [setTimeout] tasks.  How the platform reacts to an
    argument it dislikes is outside the repository and is not modelled. *)

From Stdlib Require Import QArith Qcanon Qround Lqa.
From stdpp Require Import numbers strings gmap list.

Local Open Scope Qc_scope.

(** ** JavaScript numbers *)

Inductive number : Type :=
  | NaN
  | NegInfinity
  | Infinity
  | Fin (q : Qc).

Definition qc (n : Z) (d : positive) : Qc := Q2Qc (n # d).

Definition num (n : Z) : number := Fin (qc n 1).

(** Sign of a rational, used by multiplication and division with an
    infinite operand. *)
Inductive sign := Neg | Zero | Pos.

Definition sgn (q : Qc) : sign :=
  if bool_decide (0 < q) then Pos
  else if bool_decide (q < 0) then Neg else Zero.

Definition inf_of_sign (s : sign) : number :=
  match s with Pos => Infinity | Neg => NegInfinity | Zero => NaN end.

Definition sign_opp (s : sign) : sign :=
  match s with Pos => Neg | Neg => Pos | Zero => Zero end.

Definition num_neg (a : number) : number :=
  match a with
  | NaN => NaN
  | NegInfinity => Infinity
  | Infinity => NegInfinity
  | Fin q => Fin (- q)
  end.

Definition num_add (a b : number) : number :=
  match a, b with
  | NaN, _ | _, NaN => NaN
  | Infinity, NegInfinity | NegInfinity, Infinity => NaN
  | Infinity, _ | _, Infinity => Infinity
  | NegInfinity, _ | _, NegInfinity => NegInfinity
  | Fin x, Fin y => Fin (x + y)
  end.

Definition num_sub (a b : number) : number := num_add a (num_neg b).

Definition num_mul (a b : number) : number :=
  match a, b with
  | NaN, _ | _, NaN => NaN
  | Infinity, Infinity | NegInfinity, NegInfinity => Infinity
  | Infinity, NegInfinity | NegInfinity, Infinity => NegInfinity
  | Infinity, Fin q | Fin q, Infinity => inf_of_sign (sgn q)
  | NegInfinity, Fin q | Fin q, NegInfinity => inf_of_sign (sign_opp (sgn q))
  | Fin x, Fin y => Fin (x * y)
  end.

(** Division; a finite value divided by zero is an infinity of the sign of
    the numerator ([0 / 0] is [NaN]), the zero being the positive one. *)
Definition num_div (a b : number) : number :=
  match a, b with
  | NaN, _ | _, NaN => NaN
  | (Infinity | NegInfinity), (Infinity | NegInfinity) => NaN
  | Infinity, Fin q => if bool_decide (q < 0) then NegInfinity else Infinity
  | NegInfinity, Fin q => if bool_decide (q < 0) then Infinity else NegInfinity
  | Fin _, (Infinity | NegInfinity) => Fin 0
  | Fin x, Fin y =>
      if bool_decide (y = 0) then inf_of_sign (sgn x) else Fin (x / y)
  end.

(** [a < b] and [a <= b] of JavaScript. *)
Definition num_ltb (a b : number) : bool :=
  match a, b with
  | NaN, _ | _, NaN => false
  | _, NegInfinity => false
  | NegInfinity, _ => true
  | Infinity, _ => false
  | _, Infinity => true
  | Fin x, Fin y => bool_decide (x < y)
  end.

Definition num_leb (a b : number) : bool :=
  match a, b with
  | NaN, _ | _, NaN => false
  | NegInfinity, _ => true
  | _, NegInfinity => false
  | _, Infinity => true
  | Infinity, _ => false
  | Fin x, Fin y => bool_decide (x <= y)
  end.

(** [Number.isFinite]. *)
Definition isFinite (a : number) : bool :=
  match a with Fin _ => true | _ => false end.

(** [Math.max] and [Math.min] on two arguments. *)
Definition Math_max (a b : number) : number :=
  match a, b with
  | NaN, _ | _, NaN => NaN
  | _, _ => if num_ltb a b then b else a
  end.

Definition Math_min (a b : number) : number :=
  match a, b with
  | NaN, _ | _, NaN => NaN
  | _, _ => if num_ltb b a then b else a
  end.

(** Truthiness of a number: [0] and [NaN] are falsy. *)
Definition truthy (a : number) : bool :=
  match a with
  | NaN => false
  | Fin q => negb (bool_decide (q = 0))
  | _ => true
  end.

(** [v || 0] for a property read that may be [undefined]. *)
Definition or_zero (v : option number) : number :=
  match v with
  | Some a => if truthy a then a else num 0
  | None => num 0
  end.

Declare Scope js_scope.
Delimit Scope js_scope with js.
Infix "+" := num_add : js_scope.
Infix "-" := num_sub : js_scope.
Infix "*" := num_mul : js_scope.
Infix "/" := num_div : js_scope.
Infix "<?" := num_ltb : js_scope.
Infix "<=?" := num_leb : js_scope.

(** ** types.ts *)

Inductive WaveformType := sine | square | sawtooth | triangle.

Inductive GatingMode := none | fractal.

(** [fractalPattern] is declared [number[]]; the service also accepts a
    layer without the property (an imported scene), hence the option. *)
Record HarmonicLayer := {
  layerId : string;
  label : string;
  ratio : number;
  waveform : WaveformType;
  gain : number;
  gatingMode : GatingMode;
  fractalPattern : option (list number);
}.

Record StepSettings := {
  enabled : bool;
  baseFrequency : number;
  stepGain : number;
  phaseOffsets : gmap string number;
}.

Record SceneMeta := {
  name : string;
  description : string;
  source : string;
}.

Record OrpheusState := {
  harmonicLayers : list HarmonicLayer;
  steps : list StepSettings;
  tempo : number;
  masterGain : number;
  globalSchumannDepth : number;
  sceneMeta : SceneMeta;
}.

(** ** constants.ts *)

Definition F_ROOT : number := num 16.
Definition NUM_STEPS : nat := 16.

Definition DIATONIC_RATIOS : list number :=
  [ num 1; Fin (qc 9 8); Fin (qc 5 4); Fin (qc 4 3);
    Fin (qc 3 2); Fin (qc 5 3); Fin (qc 15 8); num 2 ].

(** ** The platform, as the service drives it *)

Inductive ContextState := suspended | running.

(** The [AudioContext] with the master gain stage the service builds on it
    in [initialize]: the value the gain is created with and the last
    [setTargetAtTime target startTime] request. *)
Record AudioContext := {
  currentTime : number;
  ctxState : ContextState;
  masterGainValue : number;
  masterGainTarget : option (number * number);
}.

(** One voice: the oscillator made by [createOscillator] together with the
    envelope requested on its gain node.  Each field is the argument of the
    call named in its comment. *)
Record OscillatorNode := {
  oscType : WaveformType;          (* osc.type *)
  frequency : number;              (* osc.frequency.value *)
  envelopeStart : number;          (* setValueAtTime(0, _) *)
  peakGain : number;               (* linearRampToValueAtTime(_, ..) *)
  peakTime : number;               (* linearRampToValueAtTime(.., _) *)
  floorTime : number;              (* exponentialRampToValueAtTime(0.001, _) *)
  startTime : number;              (* osc.start(_) *)
  stopTime : number;               (* osc.stop(_) *)
}.

(** A step callback is known by its identity; calling it is recorded. *)
Definition Callback := nat.

Inductive TimerTask :=
  | StepTask (stepNumber : nat)    (* the closure made in scheduleNote *)
  | TickTask.                      (* this.scheduler.bind(this) *)

Record Timer := {
  timerId : nat;
  delay : number;
  task : TimerTask;
}.

(** ** AudioService

    The private fields of the class, then the platform objects it owns
    (oscillators are named by their index in [oscillators]), then two
    observation logs: the calls made to the step callback and the calls
    made to [scheduleNote]. *)
Record AudioService := {
  ctx : option AudioContext;
  activeOscillators : list nat;
  isPlaying : bool;
  stepCallback : option Callback;
  nextNoteTime : number;
  currentStep : nat;
  timerID : option nat;
  state : OrpheusState;
  oscillators : list OscillatorNode;
  stopped : list nat;
  timers : list Timer;
  nextTimerId : nat;
  callbackLog : list (Callback * nat);
  noteCalls : list (nat * number);
}.

Definition lookahead : number := num 25.
Definition scheduleAheadTime : number := Fin (qc 1 10).

Definition set_ctx (v : option AudioContext) (s : AudioService) :=
  {| ctx := v; activeOscillators := activeOscillators s;
     isPlaying := isPlaying s; stepCallback := stepCallback s;
     nextNoteTime := nextNoteTime s; currentStep := currentStep s;
     timerID := timerID s; state := state s;
     oscillators := oscillators s; stopped := stopped s;
     timers := timers s; nextTimerId := nextTimerId s;
     callbackLog := callbackLog s; noteCalls := noteCalls s |}.

Definition set_activeOscillators (v : list nat) (s : AudioService) :=
  {| ctx := ctx s; activeOscillators := v;
     isPlaying := isPlaying s; stepCallback := stepCallback s;
     nextNoteTime := nextNoteTime s; currentStep := currentStep s;
     timerID := timerID s; state := state s;
     oscillators := oscillators s; stopped := stopped s;
     timers := timers s; nextTimerId := nextTimerId s;
     callbackLog := callbackLog s; noteCalls := noteCalls s |}.

Definition set_isPlaying (v : bool) (s : AudioService) :=
  {| ctx := ctx s; activeOscillators := activeOscillators s;
     isPlaying := v; stepCallback := stepCallback s;
     nextNoteTime := nextNoteTime s; currentStep := currentStep s;
     timerID := timerID s; state := state s;
     oscillators := oscillators s; stopped := stopped s;
     timers := timers s; nextTimerId := nextTimerId s;
     callbackLog := callbackLog s; noteCalls := noteCalls s |}.

Definition set_stepCallback (v : option Callback) (s : AudioService) :=
  {| ctx := ctx s; activeOscillators := activeOscillators s;
     isPlaying := isPlaying s; stepCallback := v;
     nextNoteTime := nextNoteTime s; currentStep := currentStep s;
     timerID := timerID s; state := state s;
     oscillators := oscillators s; stopped := stopped s;
     timers := timers s; nextTimerId := nextTimerId s;
     callbackLog := callbackLog s; noteCalls := noteCalls s |}.

Definition set_nextNoteTime (v : number) (s : AudioService) :=
  {| ctx := ctx s; activeOscillators := activeOscillators s;
     isPlaying := isPlaying s; stepCallback := stepCallback s;
     nextNoteTime := v; currentStep := currentStep s;
     timerID := timerID s; state := state s;
     oscillators := oscillators s; stopped := stopped s;
     timers := timers s; nextTimerId := nextTimerId s;
     callbackLog := callbackLog s; noteCalls := noteCalls s |}.

Definition set_currentStep (v : nat) (s : AudioService) :=
  {| ctx := ctx s; activeOscillators := activeOscillators s;
     isPlaying := isPlaying s; stepCallback := stepCallback s;
     nextNoteTime := nextNoteTime s; currentStep := v;
     timerID := timerID s; state := state s;
     oscillators := oscillators s; stopped := stopped s;
     timers := timers s; nextTimerId := nextTimerId s;
     callbackLog := callbackLog s; noteCalls := noteCalls s |}.

Definition set_timerID (v : option nat) (s : AudioService) :=
  {| ctx := ctx s; activeOscillators := activeOscillators s;
     isPlaying := isPlaying s; stepCallback := stepCallback s;
     nextNoteTime := nextNoteTime s; currentStep := currentStep s;
     timerID := v; state := state s;
     oscillators := oscillators s; stopped := stopped s;
     timers := timers s; nextTimerId := nextTimerId s;
     callbackLog := callbackLog s; noteCalls := noteCalls s |}.

Definition set_state (v : OrpheusState) (s : AudioService) :=
  {| ctx := ctx s; activeOscillators := activeOscillators s;
     isPlaying := isPlaying s; stepCallback := stepCallback s;
     nextNoteTime := nextNoteTime s; currentStep := currentStep s;
     timerID := timerID s; state := v;
     oscillators := oscillators s; stopped := stopped s;
     timers := timers s; nextTimerId := nextTimerId s;
     callbackLog := callbackLog s; noteCalls := noteCalls s |}.

Definition set_oscillators (v : list OscillatorNode) (s : AudioService) :=
  {| ctx := ctx s; activeOscillators := activeOscillators s;
     isPlaying := isPlaying s; stepCallback := stepCallback s;
     nextNoteTime := nextNoteTime s; currentStep := currentStep s;
     timerID := timerID s; state := state s;
     oscillators := v; stopped := stopped s;
     timers := timers s; nextTimerId := nextTimerId s;
     callbackLog := callbackLog s; noteCalls := noteCalls s |}.

Definition set_stopped (v : list nat) (s : AudioService) :=
  {| ctx := ctx s; activeOscillators := activeOscillators s;
     isPlaying := isPlaying s; stepCallback := stepCallback s;
     nextNoteTime := nextNoteTime s; currentStep := currentStep s;
     timerID := timerID s; state := state s;
     oscillators := oscillators s; stopped := v;
     timers := timers s; nextTimerId := nextTimerId s;
     callbackLog := callbackLog s; noteCalls := noteCalls s |}.

Definition set_timers (v : list Timer) (s : AudioService) :=
  {| ctx := ctx s; activeOscillators := activeOscillators s;
     isPlaying := isPlaying s; stepCallback := stepCallback s;
     nextNoteTime := nextNoteTime s; currentStep := currentStep s;
     timerID := timerID s; state := state s;
     oscillators := oscillators s; stopped := stopped s;
     timers := v; nextTimerId := nextTimerId s;
     callbackLog := callbackLog s; noteCalls := noteCalls s |}.

Definition set_nextTimerId (v : nat) (s : AudioService) :=
  {| ctx := ctx s; activeOscillators := activeOscillators s;
     isPlaying := isPlaying s; stepCallback := stepCallback s;
     nextNoteTime := nextNoteTime s; currentStep := currentStep s;
     timerID := timerID s; state := state s;
     oscillators := oscillators s; stopped := stopped s;
     timers := timers s; nextTimerId := v;
     callbackLog := callbackLog s; noteCalls := noteCalls s |}.

Definition set_callbackLog (v : list (Callback * nat)) (s : AudioService) :=
  {| ctx := ctx s; activeOscillators := activeOscillators s;
     isPlaying := isPlaying s; stepCallback := stepCallback s;
     nextNoteTime := nextNoteTime s; currentStep := currentStep s;
     timerID := timerID s; state := state s;
     oscillators := oscillators s; stopped := stopped s;
     timers := timers s; nextTimerId := nextTimerId s;
     callbackLog := v; noteCalls := noteCalls s |}.

Definition set_noteCalls (v : list (nat * number)) (s : AudioService) :=
  {| ctx := ctx s; activeOscillators := activeOscillators s;
     isPlaying := isPlaying s; stepCallback := stepCallback s;
     nextNoteTime := nextNoteTime s; currentStep := currentStep s;
     timerID := timerID s; state := state s;
     oscillators := oscillators s; stopped := stopped s;
     timers := timers s; nextTimerId := nextTimerId s;
     callbackLog := callbackLog s; noteCalls := v |}.

Local Open Scope js_scope.

(** ** getInitialState and the constructor *)

Definition initialLayers : list HarmonicLayer :=
  [ {| layerId := "root"; label := "C₀ Root"; ratio := num 1;
       waveform := sine; gain := num 1; gatingMode := none;
       fractalPattern := Some [num 1] |};
    {| layerId := "fifth"; label := "H₁ Fifth"; ratio := Fin (qc 3 2);
       waveform := square; gain := Fin (qc 6 10); gatingMode := fractal;
       fractalPattern :=
         Some [num 1; Fin (qc 1 2); Fin (qc 1 4); Fin (qc 1 8)] |};
    {| layerId := "octave"; label := "H₂ Octave"; ratio := num 2;
       waveform := triangle; gain := Fin (qc 4 10); gatingMode := fractal;
       fractalPattern :=
         Some [num 1; Fin (qc 1 2); Fin (qc 1 4); Fin (qc 1 8)] |} ].

(** An array read [a[i]]; [undefined] in arithmetic behaves as [NaN]. *)
Definition at_index (a : list number) (i : nat) : number :=
  match a !! i with Some v => v | None => NaN end.

Definition initialStep (i : nat) : StepSettings :=
  let octave := if (i <? 8)%nat then num 1 else num 2 in
  let ratioIndex := (i mod 8)%nat in
  let r := at_index DIATONIC_RATIOS ratioIndex in
  let freq := F_ROOT * r * octave in
  {| enabled := true;
     baseFrequency := freq;
     stepGain := Fin (qc 4 10);
     phaseOffsets :=
       foldl (fun m l => <[layerId l := num 0]> m) ∅ initialLayers |}.

Definition getInitialState : OrpheusState :=
  {| harmonicLayers := initialLayers;
     steps := map initialStep (seq 0 NUM_STEPS);
     tempo := num 120;
     masterGain := Fin (qc 1 2);
     globalSchumannDepth := Fin (qc 4 10);
     sceneMeta := {| name := "Untitled Scene";
                     description := "Custom pattern";
                     source := "Custom" |} |}.

(** [new AudioService()]; the browser hands out timer ids from 1. *)
Definition newAudioService : AudioService :=
  {| ctx := None; activeOscillators := []; isPlaying := false;
     stepCallback := None; nextNoteTime := num 0; currentStep := 0;
     timerID := None; state := getInitialState;
     oscillators := []; stopped := []; timers := []; nextTimerId := 1;
     callbackLog := []; noteCalls := [] |}.

(** ** Browser timers *)

(** [setTimeout(task, delay)]: queues the task and returns its id. *)
Definition setTimeout (t : TimerTask) (d : number) (s : AudioService)
  : nat * AudioService :=
  let i := nextTimerId s in
  (i, set_nextTimerId (S i)
        (set_timers (timers s ++ [{| timerId := i; delay := d; task := t |}]) s)).

(** [clearTimeout(id)]: unknown ids are ignored. *)
Definition clearTimeout (i : nat) (s : AudioService) : AudioService :=
  set_timers (filter (fun t => timerId t ≠ i) (timers s)) s.

(** ** getState / setState / applyGlobalSettings / initialize *)

Definition getState (s : AudioService) : OrpheusState := state s.

Definition applyGlobalSettings (s : AudioService) : AudioService :=
  match ctx s with
  | None => s
  | Some c =>
      let now := currentTime c in
      set_ctx (Some {| currentTime := currentTime c;
                       ctxState := ctxState c;
                       masterGainValue := masterGainValue c;
                       masterGainTarget := Some (masterGain (state s), now) |}) s
  end.

Definition setState (newState : OrpheusState) (s : AudioService) : AudioService :=
  applyGlobalSettings (set_state newState s).

(** [initialize]: [fresh] is the context the platform creates (its clock
    and its running/suspended state are the platform's choice). *)
Definition initialize (fresh : AudioContext) (s : AudioService) : AudioService :=
  match ctx s with
  | Some _ => s
  | None =>
      applyGlobalSettings
        (set_ctx (Some {| currentTime := currentTime fresh;
                          ctxState := ctxState fresh;
                          masterGainValue := masterGain (state s);
                          masterGainTarget := None |}) s)
  end.

(** ** stop / stopAllVoices *)

(** Every live oscillator gets [osc.stop(); osc.disconnect()], recorded in
    [stopped]; then the set is cleared. *)
Definition stopAllVoices (s : AudioService) : AudioService :=
  set_activeOscillators []
    (foldl (fun s' osc => set_stopped (stopped s' ++ [osc]) s')
           s (activeOscillators s)).

(** [if (this.timerID)]: [undefined] and [0] are falsy. *)
Definition timerID_truthy (t : option nat) : option nat :=
  match t with
  | Some i => if (i =? 0)%nat then None else Some i
  | None => None
  end.

Definition stop (s : AudioService) : AudioService :=
  let s1 := set_isPlaying false s in
  let s2 := match timerID_truthy (timerID s1) with
            | Some i => clearTimeout i s1
            | None => s1
            end in
  stopAllVoices s2.

(** ** scheduleNote *)

(** The gating multiplier of a layer at a step (section 1 of the per-layer
    body of [scheduleNote]). *)
Definition gating (layer : HarmonicLayer) (stepNumber : nat) : number :=
  match gatingMode layer with
  | none => num 1
  | fractal =>
      let pattern :=
        match fractalPattern layer with
        | Some p => if (0 <? length p)%nat then p else [num 1]
        | None => [num 1]
        end in
      let g := at_index pattern (stepNumber mod length pattern) in
      if negb (isFinite g) || (g <? num 0) then num 0 else g
  end.

Definition attack : number := Fin (qc 1 100).

(** [(60 / tempo) / 4], as computed in [scheduleNote] and in [scheduler]. *)
Definition stepDurationSec (st : OrpheusState) : number :=
  (num 60 / tempo st) / num 4.

(** The property names a plain object inherits from [Object.prototype]. *)
Definition Object_prototype_names : list string :=
  [ "constructor"; "__defineGetter__"; "__defineSetter__"; "hasOwnProperty";
    "__lookupGetter__"; "__lookupSetter__"; "isPrototypeOf";
    "propertyIsEnumerable"; "toString"; "valueOf"; "__proto__";
    "toLocaleString" ].

(** [offsets[id] || 0], as [Math.min] receives it.  [offsets] is a plain
    object and the read goes through its prototype chain: where it has no
    own entry for [id] and [id] names a member of [Object.prototype], the
    read yields that member, a function or an object, which is truthy and
    which [Math.min] converts to [NaN]. *)
Definition phaseFracOf (offsets : gmap string number) (id : string) : number :=
  match offsets !! id with
  | Some v => or_zero (Some v)
  | None =>
      if bool_decide (id ∈ Object_prototype_names) then NaN else or_zero None
  end.

(** The start offset of a layer's voice inside the step. *)
Definition offsetSec (step : StepSettings) (layer : HarmonicLayer)
    (d : number) : number :=
  let phaseFrac := phaseFracOf (phaseOffsets step) (layerId layer) in
  Math_max (num 0) (Math_min (Fin (qc 9 10)) phaseFrac) * d.

(** The body of [harmonicLayers.forEach]: [None] when the layer is skipped,
    otherwise the oscillator that is created. *)
Definition layerVoice (step : StepSettings) (stepNumber : nat) (time : number)
    (d : number) (layer : HarmonicLayer) : option OscillatorNode :=
  if gain layer <=? num 0 then None else
  let g := gating layer stepNumber in
  let peak := stepGain step * gain layer * g in
  if peak <=? Fin (qc 1 1000) then None else
  let decay := d * Fin (qc 8 10) in
  let layerStartTime := time + offsetSec step layer d in
  Some {| oscType := waveform layer;
          frequency := baseFrequency step * ratio layer;
          envelopeStart := layerStartTime;
          peakGain := peak;
          peakTime := layerStartTime + attack;
          floorTime := layerStartTime + attack + decay;
          startTime := layerStartTime;
          stopTime := layerStartTime + attack + decay + Fin (qc 1 10) |}.

(** [createOscillator] followed by [activeOscillators.add]. *)
Definition addVoice (v : OscillatorNode) (s : AudioService) : AudioService :=
  let osc := length (oscillators s) in
  set_activeOscillators (activeOscillators s ++ [osc])
    (set_oscillators (oscillators s ++ [v]) s).

Definition triggerLayers (step : StepSettings) (stepNumber : nat)
    (time : number) (d : number) (layers : list HarmonicLayer)
    (s : AudioService) : AudioService :=
  foldl (fun s' layer =>
           match layerVoice step stepNumber time d layer with
           | Some v => addVoice v s'
           | None => s'
           end) s layers.

Definition scheduleNote (stepNumber : nat) (time : number) (s : AudioService)
  : AudioService :=
  let s := set_noteCalls (noteCalls s ++ [(stepNumber, time)]) s in
  match ctx s with
  | None => s
  | Some c =>
      let s1 :=
        match stepCallback s with
        | Some _ =>
            let delay := (time - currentTime c) * num 1000 in
            snd (setTimeout (StepTask stepNumber) (Math_max (num 0) delay) s)
        | None => s
        end in
      match steps (state s1) !! stepNumber with
      | None => s1
      | Some step =>
          if negb (enabled step) || (stepGain step <=? num 0) then s1 else
          triggerLayers step stepNumber time (stepDurationSec (state s1))
            (harmonicLayers (state s1)) s1
      end
  end.

(** ** scheduler *)

(** One turn of the [while] body. *)
Definition advance (d : number) (s : AudioService) : AudioService :=
  let s1 := scheduleNote (currentStep s) (nextNoteTime s) s in
  let s2 := set_nextNoteTime (nextNoteTime s1 + d) s1 in
  let s3 := set_currentStep (S (currentStep s2)) s2 in
  if (currentStep s3 =? NUM_STEPS)%nat then set_currentStep 0 s3 else s3.

(** The [while] test. *)
Definition window_open (s : AudioService) : bool :=
  match ctx s with
  | Some c => nextNoteTime s <? currentTime c + scheduleAheadTime
  | None => false
  end.

(** The look-ahead loop; [None] when it has not left the loop after [fuel]
    turns. *)
Fixpoint drain (fuel : nat) (d : number) (s : AudioService)
  : option AudioService :=
  if window_open s then
    match fuel with
    | O => None
    | S f => drain f d (advance d s)
    end
  else Some s.

Definition rearm (s : AudioService) : AudioService :=
  let '(i, s1) := setTimeout TickTask lookahead s in
  set_timerID (Some i) s1.

Definition scheduler (fuel : nat) (s : AudioService) : option AudioService :=
  match ctx s with
  | None => Some s
  | Some _ =>
      let d := stepDurationSec (state s) in
      match drain fuel d s with
      | None => None
      | Some s1 => Some (if isPlaying s1 then rearm s1 else s1)
      end
  end.

(** ** start

    The function is [async]: a call runs to its first [await], and the
    rest of it runs later, once the awaited promise has settled; other
    calls of the service can run in between.  [resume] is taken to
    succeed. *)
Definition resume (s : AudioService) : AudioService :=
  match ctx s with
  | Some c =>
      set_ctx (Some {| currentTime := currentTime c;
                       ctxState := running;
                       masterGainValue := masterGainValue c;
                       masterGainTarget := masterGainTarget c |}) s
  | None => s
  end.

Definition is_suspended (s : AudioService) : bool :=
  match ctx s with
  | Some c => match ctxState c with suspended => true | running => false end
  | None => false
  end.

(** Where a call of [start] can be suspended. *)
Inductive StartWait :=
  | AtGuard (onStep : option Callback)  (* at [await this.initialize()] *)
  | AtBody (onStep : option Callback).  (* at [await this.ctx.resume()] *)

(** The statements after the last [await]. *)
Definition start_body (onStep : option Callback) (fuel : nat)
    (s : AudioService) : option AudioService :=
  match ctx s with
  | None => None
  | Some c =>
      let s := set_stepCallback onStep s in
      let s := set_isPlaying true s in
      let s := set_currentStep 0 s in
      let s := set_nextNoteTime (currentTime c + Fin (qc 5 100)) s in
      scheduler fuel s
  end.

(** From [if (this.isPlaying) return] to the next [await] or to the end:
    the service then, and the [await] the call is suspended at, if any.
    [isPlaying] is tested here and not again after the [await]. *)
Definition start_guard (onStep : option Callback) (fuel : nat)
    (s : AudioService) : option (AudioService * option StartWait) :=
  if isPlaying s then Some (s, None)
  else if is_suspended s then Some (s, Some (AtBody onStep))
  else match start_body onStep fuel s with
       | Some s' => Some (s', None)
       | None => None
       end.

(** A call of [start], up to its first [await] or to its end.  [fresh] is
    the context [initialize] gets from the platform. *)
Definition start_call (fresh : AudioContext) (onStep : option Callback)
    (fuel : nat) (s : AudioService)
  : option (AudioService * option StartWait) :=
  match ctx s with
  | None => Some (initialize fresh s, Some (AtGuard onStep))
  | Some _ => start_guard onStep fuel s
  end.

(** A suspended call of [start] continues, up to its next [await] or to
    its end. *)
Definition start_continue (w : StartWait) (fuel : nat) (s : AudioService)
  : option (AudioService * option StartWait) :=
  match w with
  | AtGuard onStep => start_guard onStep fuel s
  | AtBody onStep =>
      match start_body onStep fuel (resume s) with
      | Some s' => Some (s', None)
      | None => None
      end
  end.

(** The continuation of a call runs, if the call is suspended. *)
Definition awaited (fuel : nat) (r : option (AudioService * option StartWait))
  : option (AudioService * option StartWait) :=
  match r with
  | Some (s, Some w) => start_continue w fuel s
  | _ => r
  end.

(** A call of [start] that is awaited before anything else happens: the
    call and its two possible continuations, with no other call of the
    service in between. *)
Definition start (fresh : AudioContext) (onStep : option Callback)
    (fuel : nat) (s : AudioService) : option AudioService :=
  match awaited fuel (awaited fuel (start_call fresh onStep fuel s)) with
  | Some (s', _) => Some s'
  | None => None
  end.

(** ** Event loop

    What can happen to the service between two of its own calls: a call of
    its public API, a pending timer coming due, an oscillator reaching its
    end ([onended]), the audio clock moving on.  In this event loop a call
    of [start] is awaited ([EStart]); the event loop in which calls of
    [start] overlap follows it. *)

(** The closure queued by [scheduleNote]. *)
Definition runStepTask (stepNumber : nat) (s : AudioService) : AudioService :=
  match stepCallback s with
  | Some cb => set_callbackLog (callbackLog s ++ [(cb, stepNumber)]) s
  | None => s
  end.

(** [osc.onended]: [activeOscillators.delete(osc)]. *)
Definition onended (osc : nat) (s : AudioService) : AudioService :=
  set_activeOscillators (filter (fun o => o ≠ osc) (activeOscillators s)) s.

Definition tick_clock (t : number) (s : AudioService) : AudioService :=
  match ctx s with
  | Some c =>
      set_ctx (Some {| currentTime := t;
                       ctxState := ctxState c;
                       masterGainValue := masterGainValue c;
                       masterGainTarget := masterGainTarget c |}) s
  | None => s
  end.

Definition find_timer (i : nat) (s : AudioService) : option Timer :=
  list_find (fun t => timerId t = i) (timers s) ≫= fun p => Some (snd p).

(** A pending timer comes due: it leaves the queue and its task runs. *)
Definition fireTimer (i : nat) (fuel : nat) (s : AudioService)
  : option AudioService :=
  match find_timer i s with
  | None => None
  | Some t =>
      let s1 := clearTimeout i s in
      match task t with
      | StepTask n => Some (runStepTask n s1)
      | TickTask => scheduler fuel s1
      end
  end.

Inductive event :=
  | EStart (fresh : AudioContext) (onStep : option Callback) (fuel : nat)
  | EStop
  | ESetState (newState : OrpheusState)
  | ETimer (i : nat) (fuel : nat)
  | EEnded (osc : nat)
  | EClock (t : number).

Definition fire (e : event) (s : AudioService) : option AudioService :=
  match e with
  | EStart fresh onStep fuel => start fresh onStep fuel s
  | EStop => Some (stop s)
  | ESetState st => Some (setState st s)
  | ETimer i fuel => fireTimer i fuel s
  | EEnded osc => Some (onended osc s)
  | EClock t => Some (tick_clock t s)
  end.

(** Running a list of events in order. *)
Fixpoint run (es : list event) (s : AudioService) : option AudioService :=
  match es with
  | [] => Some s
  | e :: es' =>
      match fire e s with
      | Some s' => run es' s'
      | None => None
      end
  end.

(** The states the service can be in when every call of [start] is
    awaited before the next event. *)
Inductive reachable : AudioService -> Prop :=
  | reachable_new : reachable newAudioService
  | reachable_fire e s s' :
      reachable s -> fire e s = Some s' -> reachable s'.

(** *** Overlapping calls of [start]

    The page: the service, and the calls of [start] that are suspended at
    an [await]. *)
Record Page := {
  service : AudioService;
  waiting : list StartWait;
}.

Inductive page_event :=
  | PStart (fresh : AudioContext) (onStep : option Callback) (fuel : nat)
      (* [start] is called and runs to its first [await] *)
  | PContinue (i : nat) (fuel : nat)
      (* the suspended call number [i] continues *)
  | PEvent (e : event).
      (* any event of the service *)

Definition suspend (w : option StartWait) (ws : list StartWait)
  : list StartWait :=
  match w with Some w => ws ++ [w] | None => ws end.

Definition page_fire (e : page_event) (p : Page) : option Page :=
  match e with
  | PStart fresh onStep fuel =>
      match start_call fresh onStep fuel (service p) with
      | Some (s, w) =>
          Some {| service := s; waiting := suspend w (waiting p) |}
      | None => None
      end
  | PContinue i fuel =>
      match waiting p !! i with
      | Some w =>
          match start_continue w fuel (service p) with
          | Some (s, w') =>
              Some {| service := s;
                      waiting := suspend w' (delete i (waiting p)) |}
          | None => None
          end
      | None => None
      end
  | PEvent e =>
      match fire e (service p) with
      | Some s => Some {| service := s; waiting := waiting p |}
      | None => None
      end
  end.

Fixpoint page_run (es : list page_event) (p : Page) : option Page :=
  match es with
  | [] => Some p
  | e :: es' =>
      match page_fire e p with
      | Some p' => page_run es' p'
      | None => None
      end
  end.

Definition newPage : Page :=
  {| service := newAudioService; waiting := [] |}.

(** ** Derived views and sample scenes *)

(** The oscillator [scheduleNote stepNumber time] creates for one layer of
    the scene, if any: the guards on the step followed by the per-layer
    body ([scheduleNote_spec] below shows that these are exactly the
    oscillators the function adds). *)
Definition voiceFor (st : OrpheusState) (stepNumber : nat) (time : number)
    (layer : HarmonicLayer) : option OscillatorNode :=
  match steps st !! stepNumber with
  | None => None
  | Some step =>
      if negb (enabled step) || (stepGain step <=? num 0) then None
      else layerVoice step stepNumber time (stepDurationSec st) layer
  end.

(** The second layer of the initial scene. *)
Definition fifthLayer : HarmonicLayer :=
  {| layerId := "fifth"; label := "H₁ Fifth"; ratio := Fin (qc 3 2);
     waveform := square; gain := Fin (qc 6 10); gatingMode := fractal;
     fractalPattern :=
       Some [num 1; Fin (qc 1 2); Fin (qc 1 4); Fin (qc 1 8)] |}.

(** A step whose phase offset for that layer is one half. *)
Definition lateStep : StepSettings :=
  {| enabled := true; baseFrequency := num 16; stepGain := Fin (qc 4 10);
     phaseOffsets := {[ "fifth" := Fin (qc 1 2) ]} |}.

(** The first layer of the initial scene. *)
Definition rootLayer : HarmonicLayer :=
  {| layerId := "root"; label := "C₀ Root"; ratio := num 1;
     waveform := sine; gain := num 1; gatingMode := none;
     fractalPattern := Some [num 1] |}.

(** A one-step, one-layer scene at 120 BPM. *)
Definition sceneOf (step : StepSettings) (layer : HarmonicLayer)
  : OrpheusState :=
  {| harmonicLayers := [layer]; steps := [step]; tempo := num 120;
     masterGain := Fin (qc 1 2); globalSchumannDepth := Fin (qc 4 10);
     sceneMeta := {| name := "Imported Scene"; description := "One step";
                     source := "Imported JSON" |} |}.

Definition freshContext : AudioContext :=
  {| currentTime := num 0; ctxState := running;
     masterGainValue := num 1; masterGainTarget := None |}.

(** An initialised, stopped service holding a given scene. *)
Definition serviceWith (st : OrpheusState) : AudioService :=
  setState st (initialize freshContext newAudioService).

(** A plain enabled step. *)
Definition plainStep : StepSettings :=
  {| enabled := true; baseFrequency := num 16; stepGain := Fin (qc 4 10);
     phaseOffsets := ∅ |}.


(** A layer whose gain failed to parse ([parseFloat] of the emptied GAIN
    field). *)
Definition nanLayer : HarmonicLayer :=
  {| layerId := "root"; label := "C₀ Root"; ratio := num 1;
     waveform := sine; gain := NaN; gatingMode := none;
     fractalPattern := Some [num 1] |}.


(** [t], then [t + d], then [t + d + d], ...: the value of [nextNoteTime]
    after [k] turns of the loop. *)
Definition after_steps (t d : number) (k : nat) : number :=
  Nat.iter k (fun x => x + d) t.

(** The calls [scheduleNote (c + k mod 16) (t + k d)] for [k < n]. *)
Definition cycle_calls (c : nat) (t d : number) (n : nat)
  : list (nat * number) :=
  map (fun k => (((c + k) mod NUM_STEPS)%nat, after_steps t d k)) (seq 0 n).

Global Instance TimerTask_eq_dec : EqDecision TimerTask.
Proof. solve_decision. Defined.

(** The pending re-arm timers of the scheduler. *)
Definition tick_timers (s : AudioService) : list Timer :=
  filter (fun tm => task tm = TickTask) (timers s).

(** The timer [scheduleNote] queues for the step callback. *)
Definition stepTimer (i : nat) (t : number) (c : AudioContext)
    (s : AudioService) : Timer :=
  {| timerId := nextTimerId s;
     delay := Math_max (num 0) ((t - currentTime c) * num 1000);
     task := StepTask i |}.

(** The state just after the step-advance notification has been queued. *)
Definition notified (i : nat) (t : number) (c : AudioContext)
    (s : AudioService) : AudioService :=
  let s0 := set_noteCalls (noteCalls s ++ [(i, t)]) s in
  match stepCallback s with
  | Some _ =>
      snd (setTimeout (StepTask i)
             (Math_max (num 0) ((t - currentTime c) * num 1000)) s0)
  | None => s0
  end.

(** The timers queued by [scheduleNote]: one step task when a context and
    a callback are present, none otherwise. *)
Definition queued (i : nat) (t : number) (s : AudioService) : list Timer :=
  match ctx s, stepCallback s with
  | Some c, Some _ => [stepTimer i t c s]
  | _, _ => []
  end.

(** What holds of every state the service can reach. *)
Record Inv (s : AudioService) : Prop := {
  inv_next : (1 <= nextTimerId s)%nat;
  inv_ids :
    Forall (fun tm => (1 <= timerId tm < nextTimerId s)%nat) (timers s);
  inv_nodup : NoDup (timerId <$> timers s);
  inv_tick :
    forall tm, tm ∈ timers s -> task tm = TickTask ->
               isPlaying s = true /\ timerID s = Some (timerId tm);
  inv_ctx : isPlaying s = true -> is_Some (ctx s);
  inv_live : isPlaying s = false -> activeOscillators s = [];
  inv_cursor : (currentStep s < NUM_STEPS)%nat;
  inv_cycle :
    exists old run,
      noteCalls s = old ++ run
      /\ map fst run = map (fun k => (k mod NUM_STEPS)%nat) (seq 0 (length run))
      /\ currentStep s = (length run mod NUM_STEPS)%nat;
  inv_timerID :
    forall i, timerID s = Some i -> (1 <= i < nextTimerId s)%nat;
  inv_owner :
    forall tm, tm ∈ timers s -> timerID s = Some (timerId tm) ->
               task tm = TickTask;
}.

(** Events other than a call of [start]. *)
Definition not_start (e : event) : bool :=
  match e with EStart _ _ _ => false | _ => true end.

(** The service after [start] on a fresh instance, and a little later. *)
Definition playing : AudioService :=
  match start freshContext (Some 7%nat) 4 newAudioService with
  | Some s => s
  | None => newAudioService
  end.

Definition later : AudioService := tick_clock (Fin (qc 3 10)) playing.

(** The service playing a scene that has a single step, with a step
    callback registered. *)
Definition shortPlaying : AudioService :=
  match run [ESetState (sceneOf lateStep fifthLayer);
             EStart freshContext (Some 7%nat) 4] newAudioService with
  | Some s => s
  | None => newAudioService
  end.

(** A context the platform hands out suspended, as it does when none is
    allowed to play yet. *)
Definition suspendedContext : AudioContext :=
  {| currentTime := num 0; ctxState := suspended;
     masterGainValue := num 1; masterGainTarget := None |}.

(** Two calls of [start] that overlap on a fresh service: the second is
    made while the first is suspended at [await this.initialize()]; both
    find [isPlaying] false and the context suspended, both wait for
    [resume], and both run the rest of [start]. *)
Definition twoStarts : list page_event :=
  [ PStart suspendedContext (Some 1%nat) 3;
    PStart suspendedContext (Some 2%nat) 3;
    PContinue 0 3;
    PContinue 0 3;
    PContinue 0 3 ].

Definition overlapped : option Page := page_run twoStarts newPage.

(** Then [stop] is called, 150 ms pass, and the timer with id 2 comes
    due. *)
Definition overlappedThenStopped : option AudioService :=
  match overlapped with
  | Some p =>
      run [EStop; EClock (Fin (qc 15 100)); ETimer 2 3] (service p)
  | None => None
  end.

(** ** Further views of the service *)

(** The transport is stalled when [nextNoteTime] is [NaN] or [Infinity]:
    the [while] test of the scheduler is then false whatever the clock. *)
Definition stalled (s : AudioService) : bool :=
  match nextNoteTime s with
  | NaN | Infinity => true
  | _ => false
  end.

(** The scene after a list of events: the argument of the last
    [setState], if any. *)
Definition last_scene (es : list event) (st : OrpheusState) : OrpheusState :=
  foldl (fun st e => match e with ESetState st' => st' | _ => st end) st es.

(** A scene at an arbitrary tempo, otherwise the initial one. *)
Definition sceneAt (t : number) : OrpheusState :=
  {| harmonicLayers := initialLayers;
     steps := map initialStep (seq 0 NUM_STEPS);
     tempo := t;
     masterGain := Fin (qc 1 2);
     globalSchumannDepth := Fin (qc 4 10);
     sceneMeta := {| name := "Untitled Scene";
                     description := "Custom pattern";
                     source := "Custom" |} |}.

(** The scheduling loop is armed: [timerID] names the one pending re-arm
    timer. *)
Definition armed (s : AudioService) : Prop :=
  exists i : nat,
    timerID s = Some i
    /\ tick_timers s = [{| timerId := i; delay := lookahead; task := TickTask |}].

(** Integrity of the live set and of the record of forced stops. *)
Record LiveInv (s : AudioService) : Prop := {
  live_nodup : NoDup (activeOscillators s);
  live_bound :
    Forall (fun o => (o < length (oscillators s))%nat) (activeOscillators s);
  stopped_nodup : NoDup (stopped s);
  stopped_bound :
    Forall (fun o => (o < length (oscillators s))%nat) (stopped s);
  live_not_stopped :
    forall o, o ∈ activeOscillators s -> o ∉ stopped s;
}.

(** What an event does to the oscillators, the live set and the record of
    forced stops: [stop] moves the live set to the record, [onended]
    removes one oscillator from the live set, anything else appends the
    oscillators it creates. *)
Definition voices_step (e : event) (s s' : AudioService) : Prop :=
  exists new : list OscillatorNode,
    oscillators s' = oscillators s ++ new
    /\ match e with
       | EStop =>
           new = [] /\ activeOscillators s' = []
           /\ stopped s' = stopped s ++ activeOscillators s
       | EEnded osc =>
           new = []
           /\ activeOscillators s' = filter (fun o => o ≠ osc) (activeOscillators s)
           /\ stopped s' = stopped s
       | _ =>
           activeOscillators s'
             = activeOscillators s
               ++ seq (length (oscillators s)) (length new)
           /\ stopped s' = stopped s
       end.

(** What an event does to the scene and to the audio context. *)
Definition scene_step (e : event) (s s' : AudioService) : Prop :=
  state s' = match e with ESetState st => st | _ => state s end
  /\ match ctx s with
     | Some c =>
         exists c',
           ctx s' = Some c'
           /\ masterGainValue c' = masterGainValue c
           /\ masterGainTarget c'
              = match e with
                | ESetState st => Some (masterGain st, currentTime c)
                | _ => masterGainTarget c
                end
           /\ currentTime c'
              = match e with EClock t => t | _ => currentTime c end
     | None =>
         match e with
         | EStart fresh _ _ =>
             exists c',
               ctx s' = Some c'
               /\ masterGainValue c' = masterGain (state s)
               /\ masterGainTarget c'
                  = Some (masterGain (state s), currentTime fresh)
               /\ currentTime c' = currentTime fresh
         | _ => ctx s' = None
         end
     end.

(** ** constants.ts: fractal presets and scene presets *)

Record FractalPreset := {
  fp_id : string;
  fp_label : string;
  fp_pattern : list number;
}.

Definition FRACTAL_PRESETS : list FractalPreset :=
  [ {| fp_id := "flat1"; fp_label := "Flat 1.0"; fp_pattern := [num 1] |};
    {| fp_id := "halfDecay4"; fp_label := "Halving (1, 0.5, 0.25, 0.125)";
       fp_pattern := [num 1; Fin (qc 1 2); Fin (qc 1 4); Fin (qc 1 8)] |};
    {| fp_id := "eyeHorus8"; fp_label := "Eye-of-Horus 8-step (1 → 1/128)";
       fp_pattern := [num 1; Fin (qc 1 2); Fin (qc 1 4); Fin (qc 1 8);
                      Fin (qc 1 16); Fin (qc 1 32); Fin (qc 1 64);
                      Fin (qc 1 128)] |};
    {| fp_id := "sweet16Pulse"; fp_label := "Sweet-16 Pulse (ON/OFF)";
       fp_pattern := [num 1; num 0; num 1; num 0; num 1; num 0; num 1; num 0;
                      num 1; num 0; num 1; num 0; num 1; num 0; num 1;
                      num 0] |};
    {| fp_id := "triLift"; fp_label := "Tri-Lift (0, 1, 0.5)";
       fp_pattern := [num 0; num 1; Fin (qc 1 2)] |};
    {| fp_id := "offbeat"; fp_label := "Offbeat (0, 1, 0, 1)";
       fp_pattern := [num 0; num 1; num 0; num 1] |} ].

Definition createDefaultHarmonicLayers : list HarmonicLayer :=
  [ {| layerId := "root"; label := "C₀ Root"; ratio := num 1;
       waveform := sine; gain := num 1; gatingMode := none;
       fractalPattern := Some [num 1] |};
    {| layerId := "fifth"; label := "H₁ Fifth"; ratio := Fin (qc 3 2);
       waveform := square; gain := Fin (qc 7 10); gatingMode := fractal;
       fractalPattern :=
         Some [num 1; Fin (qc 1 2); Fin (qc 1 4); Fin (qc 1 8)] |};
    {| layerId := "octave"; label := "H₂ Octave"; ratio := num 2;
       waveform := triangle; gain := Fin (qc 1 2); gatingMode := fractal;
       fractalPattern :=
         Some [num 1; Fin (qc 1 2); Fin (qc 1 4); Fin (qc 1 8)] |} ].

(** [p[l.id] = 0] for every layer.  An assignment to [__proto__] goes to
    the inherited setter, which ignores a number: no entry is made. *)
Definition createPhaseOffsets (layers : list HarmonicLayer)
  : gmap string number :=
  foldl (fun p l =>
           if bool_decide (layerId l = "__proto__") then p
           else <[layerId l := num 0]> p) ∅ layers.

Record ScenePreset := {
  sp_id : string;
  sp_label : string;
  build : number -> list StepSettings * list HarmonicLayer;
}.

Definition build_basic_4on (rootFreq : number)
  : list StepSettings * list HarmonicLayer :=
  let harmonics := createDefaultHarmonicLayers in
  let steps :=
    map (fun i => {| enabled := (i mod 4 =? 0)%nat;
                     baseFrequency := rootFreq;
                     stepGain := Fin (qc 4 10);
                     phaseOffsets := createPhaseOffsets harmonics |})
        (seq 0 16) in
  (steps, harmonics).

Definition build_zep (rootFreq : number)
  : list StepSettings * list HarmonicLayer :=
  let eyePreset :=
    List.find (fun p => bool_decide (fp_id p = "eyeHorus8")) FRACTAL_PRESETS in
  let harmonics :=
    map (fun l =>
           if bool_decide (layerId l = "root") then
             {| layerId := layerId l; label := label l; ratio := ratio l;
                waveform := waveform l; gain := gain l;
                gatingMode := none; fractalPattern := Some [num 1] |}
           else
             {| layerId := layerId l; label := label l; ratio := ratio l;
                waveform := waveform l; gain := gain l;
                gatingMode := fractal;
                fractalPattern :=
                  match eyePreset with
                  | Some p => Some (fp_pattern p)
                  | None => fractalPattern l
                  end |})
        createDefaultHarmonicLayers in
  let steps :=
    map (fun i =>
           let '(en, g) :=
             if (i <? 4)%nat then (true, Fin (qc 75 100))
             else if (i <? 8)%nat then (true, Fin (qc 55 100))
             else if (i <? 12)%nat then (true, Fin (qc 45 100))
             else
               let en := (i mod 2 =? 0)%nat in
               (en, if en then Fin (qc 9 10) else num 0) in
           {| enabled := en; baseFrequency := rootFreq; stepGain := g;
              phaseOffsets := createPhaseOffsets harmonics |})
        (seq 0 16) in
  (steps, harmonics).

Definition build_heartbeat (rootFreq : number)
  : list StepSettings * list HarmonicLayer :=
  let harmonics :=
    map (fun l =>
           {| layerId := layerId l; label := label l; ratio := ratio l;
              waveform := sine;
              gain := if bool_decide (layerId l = "root")
                      then Fin (qc 9 10) else Fin (qc 6 10);
              gatingMode := gatingMode l;
              fractalPattern := fractalPattern l |})
        createDefaultHarmonicLayers in
  let steps :=
    map (fun i =>
           let en := (i mod 4 =? 2)%nat in
           {| enabled := en; baseFrequency := rootFreq;
              stepGain := if en then Fin (qc 6 10) else num 0;
              phaseOffsets := createPhaseOffsets harmonics |})
        (seq 0 16) in
  (steps, harmonics).

Definition SCENE_PRESETS : list ScenePreset :=
  [ {| sp_id := "basic_4on"; sp_label := "Basic: 4-on-Grid Pulses";
       build := build_basic_4on |};
    {| sp_id := "zep_charge_spin_lift";
       sp_label := "Zep Tepi: Charge → Nucleate → Spin → Lift";
       build := build_zep |};
    {| sp_id := "scalar_heartbeat";
       sp_label := "Scalar Heartbeat (Offbeat Pulses)";
       build := build_heartbeat |} ].

(** ** OrpheusControlRoom: the scene state of the component and its
    handlers

    The React state that makes up the scene, as one record; a handler is
    a function from the state before to the state after its setters. *)
Record ControlRoom := {
  uiLayers : list HarmonicLayer;      (* harmonicLayers *)
  uiSteps : list StepSettings;        (* steps *)
  uiTempo : number;                   (* tempo *)
  uiMasterGain : number;              (* masterGain *)
  uiSceneMeta : SceneMeta;            (* sceneMeta *)
  uiIsPlaying : bool;                 (* isPlaying *)
}.

(** [currentState] (the [useMemo]); its extra [stepDuration] property is
    not part of [OrpheusState] and is never read. *)
Definition currentState (ui : ControlRoom) : OrpheusState :=
  {| harmonicLayers := uiLayers ui; steps := uiSteps ui;
     tempo := uiTempo ui; masterGain := uiMasterGain ui;
     globalSchumannDepth := Fin (qc 4 10);
     sceneMeta := uiSceneMeta ui |}.

(** The effect that follows every change of [currentState]. *)
Definition pushState (ui : ControlRoom) (s : AudioService) : AudioService :=
  setState (currentState ui) s.

Definition setLayers (v : list HarmonicLayer) (ui : ControlRoom) :=
  {| uiLayers := v; uiSteps := uiSteps ui; uiTempo := uiTempo ui;
     uiMasterGain := uiMasterGain ui; uiSceneMeta := uiSceneMeta ui;
     uiIsPlaying := uiIsPlaying ui |}.

Definition setSteps (v : list StepSettings) (ui : ControlRoom) :=
  {| uiLayers := uiLayers ui; uiSteps := v; uiTempo := uiTempo ui;
     uiMasterGain := uiMasterGain ui; uiSceneMeta := uiSceneMeta ui;
     uiIsPlaying := uiIsPlaying ui |}.

Definition setTempo (v : number) (ui : ControlRoom) :=
  {| uiLayers := uiLayers ui; uiSteps := uiSteps ui; uiTempo := v;
     uiMasterGain := uiMasterGain ui; uiSceneMeta := uiSceneMeta ui;
     uiIsPlaying := uiIsPlaying ui |}.

Definition setMasterGain (v : number) (ui : ControlRoom) :=
  {| uiLayers := uiLayers ui; uiSteps := uiSteps ui; uiTempo := uiTempo ui;
     uiMasterGain := v; uiSceneMeta := uiSceneMeta ui;
     uiIsPlaying := uiIsPlaying ui |}.

Definition setSceneMeta (v : SceneMeta) (ui : ControlRoom) :=
  {| uiLayers := uiLayers ui; uiSteps := uiSteps ui; uiTempo := uiTempo ui;
     uiMasterGain := uiMasterGain ui; uiSceneMeta := v;
     uiIsPlaying := uiIsPlaying ui |}.

(** [setSceneMeta(prev => ({ ...prev, source }))]. *)
Definition setSource (src : string) (ui : ControlRoom) :=
  setSceneMeta {| name := name (uiSceneMeta ui);
                  description := description (uiSceneMeta ui);
                  source := src |} ui.

(** [a[i] = f(a[i])] on a copy of the array, for an index inside it.
    [None] stands for an index outside the array. *)
Definition update_at {A} (i : nat) (f : A -> A) (l : list A)
  : option (list A) :=
  match l !! i with
  | Some x => Some (<[i := f x]> l)
  | None => None
  end.

(** [Math.abs]. *)
Definition Math_abs (a : number) : number :=
  match a with
  | NaN => NaN
  | NegInfinity | Infinity => Infinity
  | Fin q => if bool_decide (q < 0)%Qc then Fin (- q)%Qc else Fin q
  end.

(** *** findMatchingPresetId *)

(** The inner [for] loop, over two arrays of the same length. *)
Fixpoint entries_match (preset pattern : list number) : bool :=
  match preset, pattern with
  | a :: preset', b :: pattern' =>
      if Fin (qc 1 100000) <? Math_abs (a - b) then false
      else entries_match preset' pattern'
  | _, _ => true
  end.

Fixpoint findIn (presets : list FractalPreset) (pattern : list number)
  : string :=
  match presets with
  | [] => String.EmptyString
  | preset :: rest =>
      if negb (length (fp_pattern preset) =? length pattern)%nat
      then findIn rest pattern
      else if entries_match (fp_pattern preset) pattern then fp_id preset
      else findIn rest pattern
  end.

(** [pattern] is what the layer holds; a missing one is not an array. *)
Definition findMatchingPresetId (pattern : option (list number)) : string :=
  match pattern with
  | None => String.EmptyString
  | Some p => findIn FRACTAL_PRESETS p
  end.

(** *** Layer and step handlers

    For these handlers [None] is an index outside the array. The source
    then stores an object holding only the property being set, which is
    not a layer or a step; [handlePhaseChange] raises a [TypeError]
    instead. *)

Definition withPattern (p : list number) (l : HarmonicLayer) : HarmonicLayer :=
  {| layerId := layerId l; label := label l; ratio := ratio l;
     waveform := waveform l; gain := gain l; gatingMode := gatingMode l;
     fractalPattern := Some p |}.

(** [handleFractalPatternChange]; [parsed] is [parts.map(parseFloat)], the
    numbers read from the pieces of the text. *)
Definition handleFractalPatternChange (index : nat) (parsed : list number)
    (ui : ControlRoom) : option ControlRoom :=
  let nums :=
    List.filter (fun v => isFinite v && (num 0 <=? v)) parsed in
  let pattern := if (0 <? length nums)%nat then nums else [num 1] in
  match update_at index (withPattern pattern) (uiLayers ui) with
  | Some newLayers =>
      Some (setSource "Custom (Edited)" (setLayers newLayers ui))
  | None => None
  end.

Definition handlePresetChange (index : nat) (presetId : string)
    (ui : ControlRoom) : option ControlRoom :=
  match List.find (fun p => bool_decide (fp_id p = presetId)) FRACTAL_PRESETS with
  | Some preset =>
      match update_at index (withPattern (fp_pattern preset)) (uiLayers ui) with
      | Some newLayers =>
          Some (setSource "Custom (Edited)" (setLayers newLayers ui))
      | None => None
      end
  | None => Some ui
  end.

(** The fields [handleStepChange] is called with. *)
Inductive StepField :=
  | F_enabled (v : bool)
  | F_baseFrequency (v : number)
  | F_stepGain (v : number).

Definition withField (f : StepField) (st : StepSettings) : StepSettings :=
  match f with
  | F_enabled v =>
      {| enabled := v; baseFrequency := baseFrequency st;
         stepGain := stepGain st; phaseOffsets := phaseOffsets st |}
  | F_baseFrequency v =>
      {| enabled := enabled st; baseFrequency := v;
         stepGain := stepGain st; phaseOffsets := phaseOffsets st |}
  | F_stepGain v =>
      {| enabled := enabled st; baseFrequency := baseFrequency st;
         stepGain := v; phaseOffsets := phaseOffsets st |}
  end.

Definition handleStepChange (index : nat) (f : StepField) (ui : ControlRoom)
  : option ControlRoom :=
  match update_at index (withField f) (uiSteps ui) with
  | Some newSteps => Some (setSource "Custom (Edited)" (setSteps newSteps ui))
  | None => None
  end.

Definition handlePhaseChange (stepIndex : nat) (layer : string)
    (value : number) (ui : ControlRoom) : option ControlRoom :=
  match update_at stepIndex
          (fun st =>
             {| enabled := enabled st; baseFrequency := baseFrequency st;
                stepGain := stepGain st;
                phaseOffsets := <[layer := value]> (phaseOffsets st) |})
          (uiSteps ui) with
  | Some newSteps => Some (setSource "Custom (Edited)" (setSteps newSteps ui))
  | None => None
  end.

(** *** handleScenePresetChange *)

(** [steps[0]?.baseFrequency || 16.0]. *)
Definition currentRoot (ui : ControlRoom) : number :=
  match uiSteps ui !! 0%nat with
  | Some st => if truthy (baseFrequency st) then baseFrequency st else num 16
  | None => num 16
  end.

Definition handleScenePresetChange (presetId : string) (ui : ControlRoom)
  : ControlRoom :=
  match List.find (fun p => bool_decide (sp_id p = presetId)) SCENE_PRESETS with
  | None => ui
  | Some preset =>
      let '(newSteps, newHarmonics) := build preset (currentRoot ui) in
      setSceneMeta
        {| name := sp_label preset;
           description := String.append "Preset scene: " (sp_label preset);
           source := String.append "Preset: " (sp_id preset) |}
        (setLayers newHarmonics (setSteps newSteps ui))
  end.

(** *** executeCommand *)

Record OrchestratorCommand := {
  cmdType : string;                   (* type *)
  bpm : option number;
  hz : option number;
  value : option number;
  presetId : option string;
}.

(** Truthiness of an optional number and of an optional string. *)
Definition truthy_num (v : option number) : option number :=
  match v with
  | Some a => if truthy a then Some a else None
  | None => None
  end.

Definition truthy_str (v : option string) : option string :=
  match v with
  | Some a => if bool_decide (a = String.EmptyString) then None else Some a
  | None => None
  end.

(** The state after the command, and whether [togglePlay] was called.
    [ui] is the state the closure of the handler holds. The optional
    properties of a command are numbers or strings when present, as the
    interface has them. *)
Definition executeCommand (cmd : OrchestratorCommand) (ui : ControlRoom)
  : ControlRoom * bool :=
  if bool_decide (cmdType cmd = "start") then (ui, negb (uiIsPlaying ui))
  else if bool_decide (cmdType cmd = "stop") then (ui, uiIsPlaying ui)
  else if bool_decide (cmdType cmd = "set_tempo") then
    match truthy_num (bpm cmd) with
    | Some b => (setTempo (Math_max (num 20) (Math_min (num 300) b)) ui, false)
    | None => (ui, false)
    end
  else if bool_decide (cmdType cmd = "set_master_gain") then
    match value cmd with
    | Some v => (setMasterGain (Math_max (num 0) (Math_min (num 1) v)) ui, false)
    | None => (ui, false)
    end
  else if bool_decide (cmdType cmd = "set_root_frequency") then
    match truthy_num (hz cmd) with
    | Some h =>
        (setSource "AI Modified"
           (setSteps (map (withField (F_baseFrequency h)) (uiSteps ui)) ui),
         false)
    | None => (ui, false)
    end
  else if bool_decide (cmdType cmd = "load_preset") then
    match truthy_str (presetId cmd) with
    | Some p => (handleScenePresetChange p ui, false)
    | None => (ui, false)
    end
  else (ui, false).

(** *** handleLoadScene *)

(** A property of the parsed file that should hold an array. *)
Inductive JsonArray (A : Type) :=
  | Falsy                             (* missing, null, 0, false or empty *)
  | NotArray                          (* any other value that is no array *)
  | IsArray (l : list A).
Arguments Falsy {A}.
Arguments NotArray {A}.
Arguments IsArray {A} l.

Record FileMeta := {
  metaName : option string;
  metaDescription : option string;
  metaSource : option string;
}.

(** The parsed file, as far as the handler looks at it; a number property
    is [None] when it is missing or holds no number. *)
Record SceneFile := {
  jsKind : option string;
  jsHarmonicLayers : JsonArray HarmonicLayer;
  jsHarmonics : JsonArray HarmonicLayer;
  jsSteps : option (list StepSettings);     (* an array, or anything else *)
  jsTempoBpm : option number;
  jsMasterGain : option number;
  jsMeta : option FileMeta;
}.

Definition isArray {A} (v : JsonArray A) : bool :=
  match v with IsArray _ => true | _ => false end.

(** [a || b] on two such properties. *)
Definition or_array {A} (a b : JsonArray A) : JsonArray A :=
  match a with Falsy => b | _ => a end.

Definition or_string (v : option string) (d : string) : string :=
  match truthy_str v with Some a => a | None => d end.

Definition finite_num (v : option number) : option number :=
  match v with
  | Some a => if isFinite a then Some a else None
  | None => None
  end.

(** The [onload] callback; [parsed] is the result of [JSON.parse] ([None]
    when it raises or gives [null], which both end in the [catch]) and
    [stem] the file name without its [.json]. *)
Definition handleLoadScene (parsed : option SceneFile) (stem : string)
    (ui : ControlRoom) : ControlRoom :=
  match parsed with
  | None => ui
  | Some json =>
      if bool_decide (jsKind json = Some "orpheus_scene"%string)
         || isArray (jsHarmonicLayers json) || isArray (jsHarmonics json)
      then
        let newLayers := or_array (jsHarmonicLayers json) (jsHarmonics json) in
        let ui := match newLayers with
                  | IsArray l => setLayers l ui
                  | _ => ui
                  end in
        let ui := match jsSteps json with
                  | Some l => setSteps (take 16 l) ui
                  | None => ui
                  end in
        let ui := match finite_num (jsTempoBpm json) with
                  | Some t => setTempo t ui
                  | None => ui
                  end in
        let ui := match finite_num (jsMasterGain json) with
                  | Some g => setMasterGain g ui
                  | None => ui
                  end in
        match jsMeta json with
        | Some m =>
            setSceneMeta
              {| name := or_string (metaName m) "Imported Scene";
                 description :=
                   match truthy_str (metaDescription m) with
                   | Some d => d
                   | None => String.EmptyString
                   end;
                 source := or_string (metaSource m) "Imported JSON" |} ui
        | None =>
            setSceneMeta {| name := stem; description := String.EmptyString;
                            source := "Imported File" |} ui
        end
      else ui
  end.

(** The component as it mounts: the scene of the service. *)
Definition initialRoom : ControlRoom :=
  {| uiLayers := harmonicLayers getInitialState;
     uiSteps := steps getInitialState;
     uiTempo := tempo getInitialState;
     uiMasterGain := masterGain getInitialState;
     uiSceneMeta := sceneMeta getInitialState;
     uiIsPlaying := false |}.

(** ** Predicates used in the statements about the control room *)

(** The steps and layers a scene preset builds. *)
Definition preset_scene (root : number) (sts : list StepSettings)
    (ls : list HarmonicLayer) : Prop :=
  length sts = 16%nat
  /\ length ls = 3%nat
  /\ Forall (fun st =>
               baseFrequency st = root
               /\ (exists g : Qc,
                     stepGain st = Fin g /\ (0 <= g)%Qc /\ (g <= qc 1 1)%Qc)
               /\ Forall (fun l => phaseOffsets st !! layerId l = Some (num 0))
                    ls) sts
  /\ Forall (fun l =>
               exists g : Qc,
                 gain l = Fin g /\ (0 < g)%Qc /\ (g <= qc 1 1)%Qc) ls.

(** ** guidanceLogic: aggregateMotifs and applyGuidanceToState *)

#[global] Instance number_eq_dec : EqDecision number.
Proof. solve_decision. Defined.

Definition ROOT_CANDIDATES : list number :=
  [num 16; num 32; num 64; num 128; num 256].

(** A [Map] from keys to counts, in insertion order. *)
Section Counts.
Context {K : Type} `{EqDecision K}.

(** [counts.get(k)]. *)
Fixpoint counts_get (m : list (K * number)) (k : K) : option number :=
  match m with
  | [] => None
  | (k', c) :: m' => if decide (k' = k) then Some c else counts_get m' k
  end.

(** [counts.set(k, c)]: a key that is present keeps its place. *)
Fixpoint counts_set (m : list (K * number)) (k : K) (c : number)
  : list (K * number) :=
  match m with
  | [] => [(k, c)]
  | (k', c') :: m' =>
      if decide (k' = k) then (k', c) :: m'
      else (k', c') :: counts_set m' k c
  end.

(** [counts.set(v, (counts.get(v) ?? 0) + 1)]. *)
Definition count_vote (m : list (K * number)) (v : K) : list (K * number) :=
  counts_set m v (default (num 0) (counts_get m v) + num 1).

(** [for (const [v, c] of counts) if (c > bestCount) ...], from a given
    [bestCount]. *)
Definition best_of (start : number) (m : list (K * number)) : option K :=
  fst (foldl (fun acc e =>
                if snd acc <? snd e then (Some (fst e), snd e) else acc)
             (None, start) m).
End Counts.

Definition modeOf (values : list string) : option string :=
  match values with
  | [] => None
  | _ => best_of (num 0) (foldl count_vote [] values)
  end.

(** [controlHints] of a motif; every property may be missing. *)
Record ControlHints := {
  hint_favoredRootHz : option number;
  hint_tempoBias : option string;
  hint_densityBias : option string;
  hint_fractalBias : option string;
  hint_patternKeywords : option (list string);
}.

Record GuidanceMotif := {
  motifTitle : option string;         (* title *)
  summary : string;
  controlHints : option ControlHints;
}.

(** The properties of a library document that the aggregation reads. *)
Record GuidanceDoc := {
  docId : string;                     (* id *)
  active : bool;
  motif : option GuidanceMotif;
}.

Record MotifAggregate := {
  hasActiveMotifs : bool;
  favoredRootHz : option number;
  tempoBias : option string;
  densityBias : option string;
  fractalBias : option string;
  patternKeywords : list string;
  contributingMotifs : list GuidanceMotif;
}.

(** The five accumulators of the loop over the motifs. *)
Record Votes := {
  rootVotes : list number;
  tempoVotes : list string;
  densityVotes : list string;
  fractalVotes : list string;
  keywordSet : list string;           (* a [Set], in insertion order *)
}.

(** [if (hints.x) votes.push(hints.x)] for a string. *)
Definition push_truthy (v : option string) (votes : list string) : list string :=
  match truthy_str v with
  | Some b => votes ++ [b]
  | None => votes
  end.

(** [set.add(k)]. *)
Definition set_add (k : string) (set : list string) : list string :=
  if bool_decide (k ∈ set) then set else set ++ [k].

(** [s.includes(sub)]. *)
Fixpoint includes (s sub : string) : bool :=
  String.prefix sub s
  || match s with
     | String.EmptyString => false
     | String.String _ s' => includes s' sub
     end.

Definition tempoFromBias (bias : option string) : number :=
  match bias with
  | Some b =>
      if bool_decide (b = "slow") then num 60
      else if bool_decide (b = "fast") then num 140
      else num 120
  | None => num 120
  end.

Definition getFractalPattern (bias : option string) (keyword : string)
  : list number :=
  if includes keyword "eye" || includes keyword "horus" then
    [num 1; Fin (qc 1 2); Fin (qc 1 4); Fin (qc 1 8); Fin (qc 1 16);
     Fin (qc 1 32); Fin (qc 1 64); Fin (qc 1 128)]
  else if includes keyword "pulse" || includes keyword "heart" then
    [num 1; num 0; num 1; num 0]
  else if includes keyword "lift" then
    [num 0; Fin (qc 2 10); Fin (qc 5 10); Fin (qc 8 10); num 1]
  else
    match bias with
    | Some b =>
        if bool_decide (b = "simple") then [num 1]
        else if bool_decide (b = "chaotic") then
          [Fin (qc 9 10); Fin (qc 1 10); Fin (qc 8 10); Fin (qc 2 10);
           Fin (qc 7 10); Fin (qc 3 10); Fin (qc 6 10); Fin (qc 4 10)]
        else [num 1; Fin (qc 1 2); Fin (qc 1 4); Fin (qc 1 8)]
    | None => [num 1; Fin (qc 1 2); Fin (qc 1 4); Fin (qc 1 8)]
    end.

(** The platform's part of the guidance logic: [String.prototype.trim],
    [String.prototype.toLowerCase], and [random i], the value of the one
    call of [Math.random] that [densityToStepSettings] may make for the
    step of index [i]. *)
Section Guidance.
Variable trim : string -> string.
Variable toLowerCase : string -> string.
Variable random : nat -> number.

(** The body of [for (const m of motifs)]. *)
Definition collect (acc : Votes) (m : GuidanceMotif) : Votes :=
  let hints :=
    default {| hint_favoredRootHz := None; hint_tempoBias := None;
               hint_densityBias := None; hint_fractalBias := None;
               hint_patternKeywords := None |} (controlHints m) in
  {| rootVotes :=
       match truthy_num (hint_favoredRootHz hints) with
       | Some r =>
           if bool_decide (r ∈ ROOT_CANDIDATES) then rootVotes acc ++ [r]
           else rootVotes acc
       | None => rootVotes acc
       end;
     tempoVotes := push_truthy (hint_tempoBias hints) (tempoVotes acc);
     densityVotes := push_truthy (hint_densityBias hints) (densityVotes acc);
     fractalVotes := push_truthy (hint_fractalBias hints) (fractalVotes acc);
     keywordSet :=
       match hint_patternKeywords hints with
       | Some kws =>
           foldl (fun set kw =>
                    if bool_decide (kw = String.EmptyString) then set
                    else if bool_decide (trim kw = String.EmptyString)
                         then set
                    else set_add (trim kw) set)
                 (keywordSet acc) kws
       | None => keywordSet acc
       end |}.

Definition favoredRoot (votes : list number) : option number :=
  match votes with
  | [] => None
  | _ =>
      let counts := foldl count_vote [] votes in
      let counts :=
        match counts_get counts (num 16) with
        | Some c => counts_set counts (num 16) (c + Fin (qc 3 2))
        | None => counts
        end in
      best_of NegInfinity counts
  end.

Definition aggregateMotifs (docs : list GuidanceDoc) : MotifAggregate :=
  let activeDocs :=
    List.filter (fun d => active d && bool_decide (is_Some (motif d))) docs in
  match activeDocs with
  | [] =>
      {| hasActiveMotifs := false; favoredRootHz := None;
         tempoBias := None; densityBias := None; fractalBias := None;
         patternKeywords := []; contributingMotifs := [] |}
  | _ =>
      let motifs := omap motif activeDocs in
      let votes :=
        foldl collect
          {| rootVotes := []; tempoVotes := []; densityVotes := [];
             fractalVotes := []; keywordSet := [] |} motifs in
      {| hasActiveMotifs := true;
         favoredRootHz := favoredRoot (rootVotes votes);
         tempoBias := modeOf (tempoVotes votes);
         densityBias := modeOf (densityVotes votes);
         fractalBias := modeOf (fractalVotes votes);
         patternKeywords := keywordSet votes;
         contributingMotifs := motifs |}
  end.

(** The [enabled] and [stepGain] that [densityToStepSettings] returns. *)
Definition densityToStepSettings (bias : option string) (index : nat)
  : bool * number :=
  let isAnchor := (index mod 4 =? 0)%nat in
  if bool_decide (bias = Some "sparse"%string) then
    if isAnchor then (true, Fin (qc 7 10))
    else
      let en := random index <? Fin (qc 1 10) in
      (en, if en then Fin (qc 3 10) else num 0)
  else if bool_decide (bias = Some "dense"%string) then
    (true,
     if isAnchor then Fin (qc 9 10)
     else Fin (qc 5 10) + random index * Fin (qc 2 10))
  else
    let isEighth := (index mod 2 =? 0)%nat in
    if isAnchor then (true, Fin (qc 8 10))
    else if isEighth then (true, Fin (qc 4 10))
    else (false, num 0).

Definition determinePatternBank (keywords : list string) : string :=
  let lc := map toLowerCase keywords in
  if existsb (fun k => includes k "mars" || includes k "scar") lc
  then "martian_scar"
  else if existsb (fun k => includes k "shell" || includes k "healing") lc
  then "healing_shell"
  else if existsb (fun k => includes k "web" || includes k "lattice") lc
  then "cosmic_web"
  else if existsb (fun k => includes k "charge") lc then "charge_spin"
  else "default".

Definition applyGuidanceToState (baseState : OrpheusState)
    (aggregate : MotifAggregate) : OrpheusState :=
  if negb (hasActiveMotifs aggregate) then baseState else
  let targetRoot :=
    match favoredRootHz aggregate with
    | Some r => r
    | None =>
        match steps baseState !! 0%nat with
        | Some st => baseFrequency st
        | None => F_ROOT
        end
    end in
  let targetTempo :=
    match truthy_str (tempoBias aggregate) with
    | Some b => tempoFromBias (Some b)
    | None => tempo baseState
    end in
  let primaryKeyword := determinePatternBank (patternKeywords aggregate) in
  let newLayers :=
    imap (fun i layer =>
            let mode :=
              if bool_decide (fractalBias aggregate = Some "chaotic"%string)
                 || bool_decide
                      (fractalBias aggregate = Some "recursive"%string)
              then fractal else gatingMode layer in
            let pattern :=
              getFractalPattern (fractalBias aggregate) primaryKeyword in
            let w := waveform layer in
            let w := if bool_decide (primaryKeyword = "healing_shell")
                     then sine else w in
            let w := if bool_decide (primaryKeyword = "martian_scar")
                     then (if (i mod 2 =? 0)%nat then sawtooth else square)
                     else w in
            {| layerId := layerId layer; label := label layer;
               ratio := ratio layer; waveform := w; gain := gain layer;
               gatingMode := mode; fractalPattern := Some pattern |})
         (harmonicLayers baseState) in
  let newSteps :=
    imap (fun i step =>
            let densitySettings :=
              densityToStepSettings (densityBias aggregate) i in
            {| enabled := fst densitySettings;
               baseFrequency := targetRoot;
               stepGain := snd densitySettings;
               phaseOffsets := phaseOffsets step |})
         (steps baseState) in
  let biasDesc :=
    String.append (or_string (tempoBias aggregate) "norm")
      (String.append "/" (or_string (densityBias aggregate) "norm")) in
  {| harmonicLayers := newLayers;
     steps := newSteps;
     tempo := targetTempo;
     masterGain := masterGain baseState;
     globalSchumannDepth := globalSchumannDepth baseState;
     sceneMeta :=
       {| name := String.append "Conducted: "
                    (or_string (head (patternKeywords aggregate)) "Mixed");
          description :=
            String.append "Orchestrated by library motifs ("
              (String.append biasDesc ")");
          source := "Scalar Conductor" |} |}.
End Guidance.

(** ** Notions used in the statements about the guidance logic *)

(** The number of times [v] occurs in [l]. *)
Fixpoint occurrences {K : Type} `{EqDecision K} (v : K) (l : list K) : nat :=
  match l with
  | [] => 0
  | x :: l' => (if decide (x = v) then 1 else 0) + occurrences v l'
  end.

(** A count, as the rational the counting loops hold. *)
Definition cnt (n : nat) : Qc := qc (Z.of_nat n) 1.

(** The vote of a motif for a root frequency: its [favoredRootHz] hint
    when that is one of the candidates. *)
Definition rootVote (m : GuidanceMotif) : option number :=
  match controlHints m with
  | Some hints =>
      match hint_favoredRootHz hints with
      | Some r => if bool_decide (r ∈ ROOT_CANDIDATES) then Some r else None
      | None => None
      end
  | None => None
  end.

(** The weight of a root frequency among the votes: the number of votes
    for it, and one and a half more for 16. *)
Definition score (w : number) (votes : list number) : Qc :=
  if decide (w = num 16) then (cnt (occurrences w votes) + qc 3 2)%Qc
  else cnt (occurrences w votes).

(** A library document with an analysed motif. *)
Definition horusMotif : GuidanceMotif :=
  {| motifTitle := Some "Eye of Horus"%string;
     summary := "Halving fractions of the eye";
     controlHints :=
       Some {| hint_favoredRootHz := Some (num 16);
               hint_tempoBias := Some "slow"%string;
               hint_densityBias := Some "dense"%string;
               hint_fractalBias := Some "recursive"%string;
               hint_patternKeywords :=
                 Some ["eye of horus"; "lift"]%string |} |}.

Definition horusDoc : GuidanceDoc :=
  {| docId := "doc-1"; active := true; motif := Some horusMotif |}.

(** * Properties *)

(** ** Numbers *)

(** Moves a goal or hypothesis on canonical rationals to plain rationals. *)
Ltac to_Q :=
  unfold Qclt, Qcle, qc in *; simpl in *;
  rewrite ?Qred_correct in *.

Lemma num_leb_nlt (x y : Qc) : (Fin x <=? Fin y) = negb (Fin y <? Fin x).
Proof.
  simpl. repeat case_bool_decide; simpl; try reflexivity; exfalso.
  - eapply Qcle_not_lt; eassumption.
  - apply Qcnot_le_lt in H. contradiction.
Qed.

Lemma isFinite_Fin (a : number) : isFinite a = true <-> exists q, a = Fin q.
Proof.
  destruct a; simpl; split; try discriminate; eauto;
    intros [q Hq]; discriminate.
Qed.


(** The clamp of any number but [NaN] is a rational between 0 and 0.9. *)
Lemma clamp_range (f : number) :
  f <> NaN ->
  exists c : Qc,
    Math_max (num 0) (Math_min (Fin (qc 9 10)) f) = Fin c
    /\ (0 <= c)%Qc /\ (c <= qc 9 10)%Qc.
Proof.
  intros Hf. destruct f as [| | |q]; [congruence| | |].
  - exists (qc 0 1). split; [reflexivity|]. split; to_Q; lra.
  - exists (qc 9 10). split; [reflexivity|]. split; to_Q; lra.
  - unfold Math_max, Math_min, num; simpl.
    case_bool_decide; simpl.
    + case_bool_decide.
      * exists q. split; [reflexivity|]. split; to_Q; lra.
      * exists (qc 0 1). split; [reflexivity|]. split; to_Q; lra.
    + exists (qc 9 10). split; [reflexivity|]. split; to_Q; lra.
Qed.

Lemma or_zero_not_NaN (v : option number) : or_zero v <> NaN.
Proof.
  destruct v as [[| | |q]|]; simpl; try discriminate.
  destruct (bool_decide (q = 0)); discriminate.
Qed.

Lemma or_zero_Some (v : number) : v <> NaN -> or_zero (Some v) = v.
Proof.
  destruct v as [| | |q]; simpl; try congruence.
  intros _. case_bool_decide; simpl; [|reflexivity].
  subst q. reflexivity.
Qed.

(** The step duration at a finite positive tempo. *)
Lemma stepDurationSec_finite (st : OrpheusState) (T : Qc) :
  (0 < T)%Qc -> tempo st = Fin T ->
  stepDurationSec st = Fin (qc 60 1 / T / qc 4 1)
  /\ (0 < qc 60 1 / T / qc 4 1)%Qc.
Proof.
  intros HT Ht. unfold stepDurationSec. rewrite Ht. unfold num; simpl.
  assert (T <> 0)%Qc as Hne.
  { intros ->. eapply Qclt_not_eq; eauto. }
  rewrite bool_decide_eq_false_2 by exact Hne.
  unfold num_div.
  rewrite bool_decide_eq_false_2.
  2:{ intros E. apply (f_equal this) in E. vm_compute in E. discriminate. }
  split; [reflexivity|].
  assert (0 < / T)%Q as Hinv by (apply Qinv_lt_0_compat; exact HT).
  unfold Qcdiv, Qcmult, Qcinv, Qclt, Q2Qc, this.
  rewrite !Qred_correct.
  change (0 < Qred (60 # 1) * / T * / Qred (4 # 1))%Q.
  rewrite !Qred_correct.
  apply Qmult_lt_0_compat; [apply Qmult_lt_0_compat|]; try exact Hinv;
    reflexivity.
Qed.

(** ** The initial scene, evaluated *)

Example initial_step_duration :
  stepDurationSec getInitialState = Fin (qc 1 8).
Proof. reflexivity. Qed.

(** Equality of evaluated numbers: canonical rationals are equal as soon
    as their fractions are. *)
Ltac num_eq :=
  vm_compute;
  repeat first [ reflexivity
               | apply Qc_is_canon; vm_compute; reflexivity
               | f_equal ].

Example fractal_step_5 : gating fifthLayer 5 = Fin (qc 1 2).
Proof. reflexivity. Qed.

Example initial_frequencies :
  map baseFrequency (take 3 (steps getInitialState))
  = [num 16; num 18; num 20].
Proof. num_eq. Qed.

(** ** Gating evaluator *)

(** C2. The gating multiplier used for a layer at step [i] is 1 when the
    gating mode is [none]; in [fractal] mode it is 1 when the pattern is
    missing or empty (the default pattern [[1.0]]), and otherwise the
    pattern entry at [i mod length], a non-finite or negative entry being
    replaced by 0.  It holds for every step index, in particular for those
    below 16. *)
Theorem gating_multiplier (layer : HarmonicLayer) (i : nat) :
  (gatingMode layer = none -> gating layer i = num 1)
  /\ (gatingMode layer = fractal ->
      fractalPattern layer = None \/ fractalPattern layer = Some [] ->
      gating layer i = num 1)
  /\ (forall p : list number,
        gatingMode layer = fractal ->
        fractalPattern layer = Some p -> p <> [] ->
        exists v : number,
          p !! (i mod length p)%nat = Some v
          /\ (isFinite v = true -> (v <? num 0) = false ->
              gating layer i = v)
          /\ (isFinite v = false \/ (v <? num 0) = true ->
              gating layer i = num 0)).
Proof.
  unfold gating. split; [|split].
  - intros ->. reflexivity.
  - intros -> [-> | ->]; reflexivity.
  - intros p -> -> Hp.
    destruct p as [|a p]; [congruence|]. clear Hp.
    change (0 <? length (a :: p))%nat with true. cbv iota.
    assert (i mod length (a :: p) < length (a :: p))%nat as Hlt
      by (apply Nat.mod_upper_bound; discriminate).
    destruct (lookup_lt_is_Some_2 _ _ Hlt) as [v Hv].
    exists v. split; [exact Hv|].
    unfold at_index. rewrite Hv. split.
    + intros -> ->. reflexivity.
    + intros [-> | Hneg]; [reflexivity|].
      rewrite Hneg, orb_true_r. reflexivity.
Qed.

Lemma gating_multiplier_witness :
  exists v : number,
    [num 1; Fin (qc 1 2); Fin (qc 1 4); Fin (qc 1 8)] !! (5 mod 4)%nat = Some v
    /\ (isFinite v = true -> (v <? num 0) = false -> gating fifthLayer 5 = v)
    /\ (isFinite v = false \/ (v <? num 0) = true ->
        gating fifthLayer 5 = num 0).
Proof.
  apply (proj2 (proj2 (gating_multiplier fifthLayer 5))
           [num 1; Fin (qc 1 2); Fin (qc 1 4); Fin (qc 1 8)]).
  - reflexivity.
  - reflexivity.
  - discriminate.
Defined.


(** ** Phase offsets *)

Lemma phaseFracOf_own (offsets : gmap string number) (id : string) :
  is_Some (offsets !! id) \/ id ∉ Object_prototype_names ->
  phaseFracOf offsets id = or_zero (offsets !! id).
Proof.
  unfold phaseFracOf. intros [[v Hv] | Hid].
  - rewrite Hv. reflexivity.
  - destruct (offsets !! id); [reflexivity|].
    rewrite bool_decide_eq_false_2 by exact Hid. reflexivity.
Qed.




(** ** Voice trigger *)

Lemma service_eta (s : AudioService) :
  set_activeOscillators (activeOscillators s)
    (set_oscillators (oscillators s) s) = s.
Proof. destruct s; reflexivity. Qed.

(** [triggerLayers] appends one oscillator per layer that is not skipped,
    registers it as live, and touches nothing else. *)
Lemma triggerLayers_spec step i t d layers s :
  triggerLayers step i t d layers s
  = let new := omap (layerVoice step i t d) layers in
    set_activeOscillators
      (activeOscillators s ++ seq (length (oscillators s)) (length new))
      (set_oscillators (oscillators s ++ new) s).
Proof.
  unfold triggerLayers. revert s.
  induction layers as [|l layers IH]; intros s; simpl.
  - rewrite !app_nil_r. symmetry. apply service_eta.
  - destruct (layerVoice step i t d l) as [v|]; [|apply IH].
    rewrite IH. unfold addVoice, set_activeOscillators, set_oscillators.
    simpl. rewrite length_app, Nat.add_1_r, <- !app_assoc. reflexivity.
Qed.

Lemma omap_none {A B} (f : A -> option B) (l : list A) :
  (forall x, f x = None) -> omap f l = [].
Proof. intros Hf. induction l; simpl; rewrite ?Hf; auto. Qed.

(** [scheduleNote] in closed form. *)
Lemma scheduleNote_spec s c i t :
  ctx s = Some c ->
  scheduleNote i t s
  = let new := omap (voiceFor (state s) i t) (harmonicLayers (state s)) in
    set_activeOscillators
      (activeOscillators s ++ seq (length (oscillators s)) (length new))
      (set_oscillators (oscillators s ++ new) (notified i t c s)).
Proof.
  intros Hc. unfold scheduleNote, notified. simpl. rewrite Hc.
  assert (forall s1, state s1 = state s -> oscillators s1 = oscillators s ->
            activeOscillators s1 = activeOscillators s ->
            match steps (state s1) !! i with
            | Some step =>
                if negb (enabled step) || (stepGain step <=? num 0) then s1
                else triggerLayers step i t (stepDurationSec (state s1))
                       (harmonicLayers (state s1)) s1
            | None => s1
            end
            = set_activeOscillators
                (activeOscillators s ++
                   seq (length (oscillators s))
                     (length (omap (voiceFor (state s) i t)
                                (harmonicLayers (state s)))))
                (set_oscillators
                   (oscillators s ++
                      omap (voiceFor (state s) i t) (harmonicLayers (state s)))
                   s1)) as Hbody.
  { intros s1 Hst Hos Hact. unfold voiceFor. rewrite Hst.
    destruct (steps (state s) !! i) as [step|].
    - destruct (negb (enabled step) || (stepGain step <=? num 0)).
      + rewrite omap_none by reflexivity. simpl. rewrite !app_nil_r, <- Hos, <- Hact.
        symmetry. apply service_eta.
      + rewrite triggerLayers_spec. simpl. rewrite Hos, Hact. reflexivity.
    - rewrite omap_none by reflexivity. simpl.
      rewrite !app_nil_r, <- Hos, <- Hact.
      symmetry. apply service_eta. }
  destruct (stepCallback s); apply Hbody; reflexivity.
Qed.


Lemma leb_nlt_notNaN (a b : number) :
  a <> NaN -> b <> NaN -> (a <=? b) = negb (b <? a).
Proof.
  destruct a as [| | |x], b as [| | |y]; try congruence; intros _ _;
    try reflexivity.
  apply num_leb_nlt.
Qed.

(** C3, for values that are not [NaN].  [scheduleNote] adds exactly the
    oscillators [voiceFor] gives for the layers of the scene, and when
    none of the step gain, the layer gain and the amplitude computed from
    them is [NaN], a layer gets one if and only if the step is enabled,
    the step gain is positive, the layer gain is positive, and the
    computed amplitude [stepGain * gain * gate] exceeds 0.001.  A disabled
    step, or one whose gain is at most 0, adds no oscillator at all. *)
Theorem voice_created_iff (s : AudioService) (c : AudioContext)
    (i : nat) (t : number) :
  ctx s = Some c ->
  oscillators (scheduleNote i t s)
    = oscillators s ++ omap (voiceFor (state s) i t) (harmonicLayers (state s))
  /\ (forall step layer,
        steps (state s) !! i = Some step ->
        stepGain step <> NaN -> gain layer <> NaN ->
        stepGain step * gain layer * gating layer i <> NaN ->
        (is_Some (voiceFor (state s) i t layer) <->
         enabled step = true
         /\ (num 0 <? stepGain step) = true
         /\ (num 0 <? gain layer) = true
         /\ (Fin (qc 1 1000) <? stepGain step * gain layer * gating layer i)
            = true))
  /\ (forall step,
        steps (state s) !! i = Some step ->
        enabled step = false \/ (stepGain step <=? num 0) = true ->
        oscillators (scheduleNote i t s) = oscillators s
        /\ activeOscillators (scheduleNote i t s) = activeOscillators s).
Proof.
  intros Hc. rewrite (scheduleNote_spec s c i t Hc).
  split; [reflexivity|]. split.
  - intros step layer Hstep Hsg Hg Hpk. unfold voiceFor, layerVoice.
    rewrite Hstep.
    rewrite (leb_nlt_notNaN (stepGain step) (num 0)) by (auto; discriminate).
    rewrite (leb_nlt_notNaN (gain layer) (num 0)) by (auto; discriminate).
    rewrite (leb_nlt_notNaN (stepGain step * gain layer * gating layer i)
               (Fin (qc 1 1000))) by (auto; discriminate).
    destruct (enabled step), (num 0 <? stepGain step),
      (num 0 <? gain layer),
      (Fin (qc 1 1000) <? stepGain step * gain layer * gating layer i);
      cbn [negb orb];
      (split; [intros [? ?]; try discriminate; auto
              | intros (? & ? & ? & ?); try discriminate;
                eexists; reflexivity]).
  - intros step Hstep Hoff.
    assert (omap (voiceFor (state s) i t) (harmonicLayers (state s)) = [])
      as ->.
    { apply omap_none. intros l. unfold voiceFor.
      rewrite Hstep. destruct Hoff as [-> | ->]; [reflexivity|].
      rewrite orb_true_r. reflexivity. }
    simpl. rewrite !app_nil_r. auto.
Qed.

Lemma voice_created_iff_witness :
  is_Some (voiceFor (sceneOf lateStep fifthLayer) 0 (num 0) fifthLayer) <->
  enabled lateStep = true
  /\ (num 0 <? stepGain lateStep) = true
  /\ (num 0 <? gain fifthLayer) = true
  /\ (Fin (qc 1 1000)
        <? stepGain lateStep * gain fifthLayer * gating fifthLayer 0) = true.
Proof.
  refine (proj1 (proj2 (voice_created_iff
            (serviceWith (sceneOf lateStep fifthLayer)) _ 0 (num 0) eq_refl))
            lateStep fifthLayer eq_refl _ _ _); discriminate.
Defined.

(** C3 as stated fails when the layer gain is [NaN]: the guard
    [layer.gain <= 0] lets it through, and so does [peakGain <= 0.001]; an
    oscillator is created although the layer gain is not positive. *)
Lemma voice_created_iff_counterexample :
  length (oscillators
            (scheduleNote 0 (num 0) (serviceWith (sceneOf plainStep nanLayer))))
    = 1%nat
  /\ ~ (is_Some (voiceFor (sceneOf plainStep nanLayer) 0 (num 0) nanLayer) <->
        enabled plainStep = true
        /\ (num 0 <? stepGain plainStep) = true
        /\ (num 0 <? gain nanLayer) = true
        /\ (Fin (qc 1 1000)
              <? stepGain plainStep * gain nanLayer * gating nanLayer 0)
           = true).
Proof.
  split; [reflexivity|].
  intros [H _].
  assert (is_Some (voiceFor (sceneOf plainStep nanLayer) 0 (num 0) nanLayer))
    as Hv by (eexists; reflexivity).
  destruct (H Hv) as (_ & _ & Hpos & _). discriminate Hpos.
Qed.






(** ** Frame of [scheduleNote] and of the loop body *)

Lemma scheduleNote_no_ctx i t s :
  ctx s = None ->
  scheduleNote i t s = set_noteCalls (noteCalls s ++ [(i, t)]) s.
Proof. intros Hc. unfold scheduleNote. simpl. rewrite Hc. reflexivity. Qed.

Lemma scheduleNote_frame i t s :
  ctx (scheduleNote i t s) = ctx s
  /\ isPlaying (scheduleNote i t s) = isPlaying s
  /\ stepCallback (scheduleNote i t s) = stepCallback s
  /\ nextNoteTime (scheduleNote i t s) = nextNoteTime s
  /\ currentStep (scheduleNote i t s) = currentStep s
  /\ timerID (scheduleNote i t s) = timerID s
  /\ state (scheduleNote i t s) = state s
  /\ stopped (scheduleNote i t s) = stopped s
  /\ callbackLog (scheduleNote i t s) = callbackLog s
  /\ noteCalls (scheduleNote i t s) = noteCalls s ++ [(i, t)].
Proof.
  destruct (ctx s) as [c|] eqn:Hc.
  - rewrite (scheduleNote_spec s c i t Hc). unfold notified.
    destruct (stepCallback s) eqn:Hcb; simpl; rewrite ?Hc, ?Hcb;
      repeat split; reflexivity.
  - rewrite (scheduleNote_no_ctx i t s Hc). simpl. rewrite Hc.
    repeat split; reflexivity.
Qed.

Lemma scheduleNote_timers i t s :
  timers (scheduleNote i t s) = timers s ++ queued i t s
  /\ nextTimerId (scheduleNote i t s)
     = (nextTimerId s + length (queued i t s))%nat.
Proof.
  unfold queued. destruct (ctx s) as [c|] eqn:Hc.
  - rewrite (scheduleNote_spec s c i t Hc). unfold notified.
    destruct (stepCallback s); simpl.
    + rewrite Nat.add_1_r. split; reflexivity.
    + rewrite app_nil_r, Nat.add_0_r. split; reflexivity.
  - rewrite (scheduleNote_no_ctx i t s Hc). simpl.
    rewrite app_nil_r, Nat.add_0_r. split; reflexivity.
Qed.

Lemma advance_frame d s :
  ctx (advance d s) = ctx s
  /\ isPlaying (advance d s) = isPlaying s
  /\ stepCallback (advance d s) = stepCallback s
  /\ timerID (advance d s) = timerID s
  /\ state (advance d s) = state s
  /\ stopped (advance d s) = stopped s
  /\ callbackLog (advance d s) = callbackLog s
  /\ timers (advance d s) = timers (scheduleNote (currentStep s) (nextNoteTime s) s)
  /\ nextTimerId (advance d s)
     = nextTimerId (scheduleNote (currentStep s) (nextNoteTime s) s)
  /\ oscillators (advance d s)
     = oscillators (scheduleNote (currentStep s) (nextNoteTime s) s)
  /\ activeOscillators (advance d s)
     = activeOscillators (scheduleNote (currentStep s) (nextNoteTime s) s).
Proof.
  destruct (scheduleNote_frame (currentStep s) (nextNoteTime s) s)
    as (H1 & H2 & H3 & _ & _ & H6 & H7 & H8 & H9 & _).
  unfold advance.
  remember (scheduleNote (currentStep s) (nextNoteTime s) s) as s1.
  destruct (_ =? NUM_STEPS)%nat; simpl;
    rewrite ?H1, ?H2, ?H3, ?H6, ?H7, ?H8, ?H9;
    repeat split; reflexivity.
Qed.

(** One turn of the loop: the call it makes, the time it adds, the cursor
    it leaves. *)
Lemma advance_cursor d s :
  noteCalls (advance d s) = noteCalls s ++ [(currentStep s, nextNoteTime s)]
  /\ nextNoteTime (advance d s) = nextNoteTime s + d
  /\ currentStep (advance d s)
     = (if (S (currentStep s) =? NUM_STEPS)%nat then 0 else S (currentStep s))%nat.
Proof.
  destruct (scheduleNote_frame (currentStep s) (nextNoteTime s) s)
    as (_ & _ & _ & H4 & H5 & _ & _ & _ & _ & H10).
  unfold advance.
  remember (scheduleNote (currentStep s) (nextNoteTime s) s) as s1.
  simpl. rewrite H5.
  destruct (currentStep s =? 15)%nat; simpl; rewrite H4, H10;
    repeat split; reflexivity.
Qed.

Lemma advance_cursor_mod d s :
  (currentStep s < NUM_STEPS)%nat ->
  currentStep (advance d s) = ((currentStep s + 1) mod NUM_STEPS)%nat
  /\ (currentStep (advance d s) < NUM_STEPS)%nat.
Proof.
  intros Hlt. destruct (advance_cursor d s) as (_ & _ & ->).
  unfold NUM_STEPS in *.
  destruct (Nat.eqb_spec (S (currentStep s)) 16) as [E|E].
  - rewrite Nat.add_1_r, E. split; [reflexivity | lia].
  - rewrite Nat.mod_small by lia. split; lia.
Qed.

(** ** The look-ahead loop *)

(** A finished loop is some number of turns of its body, the window being
    open before each turn and closed at the end. *)
Lemma drain_iter fuel d s s' :
  drain fuel d s = Some s' ->
  exists n : nat,
    (n <= fuel)%nat
    /\ s' = Nat.iter n (advance d) s
    /\ window_open s' = false
    /\ forall k, (k < n)%nat -> window_open (Nat.iter k (advance d) s) = true.
Proof.
  revert s. induction fuel as [|fuel IH]; intros s; simpl;
    destruct (window_open s) eqn:Hw; try discriminate.
  - intros [= <-]. exists 0%nat. split; [lia|]. split; [reflexivity|].
    split; [exact Hw|]. intros k Hk. lia.
  - intros H. destruct (IH _ H) as (n & Hn & Hs & Hclosed & Hopen).
    exists (S n). split; [lia|]. split; [|split; [exact Hclosed|]].
    + rewrite Nat.iter_succ_r. exact Hs.
    + intros [|k] Hk; [exact Hw|].
      rewrite Nat.iter_succ_r. apply Hopen. lia.
  - intros [= <-]. exists 0%nat. split; [lia|]. split; [reflexivity|].
    split; [exact Hw|]. intros k Hk. lia.
Qed.

Lemma cycle_calls_S c t d n :
  cycle_calls c t d (S n)
  = cycle_calls c t d n ++ [(((c + n) mod NUM_STEPS)%nat, after_steps t d n)].
Proof. unfold cycle_calls. rewrite seq_S, map_app. reflexivity. Qed.

(** [n] turns of the body from a cursor below 16. *)
Lemma iter_advance d s n :
  (currentStep s < NUM_STEPS)%nat ->
  noteCalls (Nat.iter n (advance d) s)
    = noteCalls s ++ cycle_calls (currentStep s) (nextNoteTime s) d n
  /\ nextNoteTime (Nat.iter n (advance d) s) = after_steps (nextNoteTime s) d n
  /\ currentStep (Nat.iter n (advance d) s)
     = ((currentStep s + n) mod NUM_STEPS)%nat.
Proof.
  intros Hlt. induction n as [|n (IH1 & IH2 & IH3)].
  - unfold cycle_calls, after_steps. cbn [Nat.iter seq map nat_rect].
    rewrite app_nil_r, Nat.add_0_r, Nat.mod_small by exact Hlt. auto.
  - rewrite cycle_calls_S. simpl Nat.iter.
    destruct (advance_cursor d (Nat.iter n (advance d) s)) as (H1 & H2 & _).
    destruct (advance_cursor_mod d (Nat.iter n (advance d) s)) as (H3 & _).
    { rewrite IH3. apply Nat.mod_upper_bound. discriminate. }
    rewrite H1, H2, H3, IH1, IH2, IH3, <- app_assoc.
    repeat split.
    rewrite Nat.Div0.add_mod_idemp_l. f_equal. lia.
Qed.

Lemma iter_advance_frame d s n :
  ctx (Nat.iter n (advance d) s) = ctx s
  /\ isPlaying (Nat.iter n (advance d) s) = isPlaying s
  /\ stepCallback (Nat.iter n (advance d) s) = stepCallback s
  /\ timerID (Nat.iter n (advance d) s) = timerID s
  /\ state (Nat.iter n (advance d) s) = state s
  /\ stopped (Nat.iter n (advance d) s) = stopped s
  /\ callbackLog (Nat.iter n (advance d) s) = callbackLog s.
Proof.
  induction n as [|n IH]; [repeat split; reflexivity|].
  simpl Nat.iter.
  destruct (advance_frame d (Nat.iter n (advance d) s))
    as (H1 & H2 & H3 & H4 & H5 & H6 & H7 & _).
  destruct IH as (I1 & I2 & I3 & I4 & I5 & I6 & I7).
  rewrite H1, H2, H3, H4, H5, H6, H7. auto 10.
Qed.

(** The scheduler, when it returns, has run some turns of the body with
    the step duration of the scene it found, and re-armed if playing. *)
Lemma scheduler_iter fuel s s' c :
  ctx s = Some c ->
  scheduler fuel s = Some s' ->
  exists n : nat,
    (n <= fuel)%nat
    /\ window_open (Nat.iter n (advance (stepDurationSec (state s))) s) = false
    /\ s' = (if isPlaying s
            then rearm (Nat.iter n (advance (stepDurationSec (state s))) s)
            else Nat.iter n (advance (stepDurationSec (state s))) s).
Proof.
  intros Hc. unfold scheduler. rewrite Hc.
  destruct (drain fuel _ s) as [s1|] eqn:Hd; [|discriminate].
  intros [= <-].
  destruct (drain_iter _ _ _ _ Hd) as (n & Hn & -> & Hw & _).
  exists n. split; [exact Hn|]. split; [exact Hw|].
  destruct (iter_advance_frame (stepDurationSec (state s)) s n)
    as (_ & -> & _). reflexivity.
Qed.

(** *** Termination *)

Lemma window_open_Q s c (now t : Qc) :
  ctx s = Some c -> currentTime c = Fin now -> nextNoteTime s = Fin t ->
  window_open s = bool_decide (t < now + qc 1 10)%Qc.
Proof.
  intros Hc Hn Ht. unfold window_open. rewrite Hc, Hn, Ht. reflexivity.
Qed.

(** ** Invariants of the reachable states *)

Lemma no_tick_iff s :
  tick_timers s = [] <-> forall tm, tm ∈ timers s -> task tm <> TickTask.
Proof.
  unfold tick_timers. split.
  - intros H tm Hin Htick.
    exact (filter_nil_not_elem_of _ _ tm H Htick Hin).
  - intros H. induction (timers s) as [|tm l IH]; [reflexivity|].
    rewrite filter_cons_False.
    + apply IH. intros tm' Hin. apply H. right. exact Hin.
    + apply H. left.
Qed.

Lemma NoDup_ids_filter (P : Timer -> Prop) `{!forall x, Decision (P x)}
    (l : list Timer) :
  NoDup (timerId <$> l) -> NoDup (timerId <$> filter P l).
Proof.
  induction l as [|tm l IH]; [auto|].
  intros Hnd. rewrite fmap_cons in Hnd.
  apply NoDup_cons in Hnd as [Hnot Hnd].
  rewrite filter_cons. destruct (decide (P tm)); [|auto].
  rewrite fmap_cons. apply NoDup_cons. split; [|auto].
  intros Hin. apply Hnot.
  apply list_elem_of_fmap in Hin as (tm' & Heq & Hin').
  apply list_elem_of_filter in Hin' as [_ Hin'].
  apply list_elem_of_fmap. eauto.
Qed.

Lemma Inv_new : Inv newAudioService.
Proof.
  split; cbn [newAudioService timers nextTimerId isPlaying ctx
              activeOscillators currentStep noteCalls timerID];
    try lia; auto.
  - constructor.
  - intros tm Hin. inversion Hin.
  - unfold NUM_STEPS. lia.
  - exists [], []. auto.
  - discriminate.
  - intros tm Hin. inversion Hin.
Qed.

(** A change that leaves the timers, the transport flags and the cursor
    alone keeps the invariant. *)
Lemma Inv_frame s s' :
  Inv s ->
  timers s' = timers s -> nextTimerId s' = nextTimerId s ->
  isPlaying s' = isPlaying s -> timerID s' = timerID s ->
  (is_Some (ctx s) -> is_Some (ctx s')) ->
  (activeOscillators s = [] -> activeOscillators s' = []) ->
  currentStep s' = currentStep s -> noteCalls s' = noteCalls s ->
  Inv s'.
Proof.
  intros [] Ht Hn Hp Hid Hc Ha Hcur Hcalls.
  split; rewrite ?Ht, ?Hn, ?Hp, ?Hid, ?Hcur, ?Hcalls; auto.
Qed.

Lemma Inv_clearTimeout i s : Inv s -> Inv (clearTimeout i s).
Proof.
  intros []. unfold clearTimeout. split; simpl; auto.
  - rewrite Forall_forall in *. intros tm Hin.
    apply list_elem_of_filter in Hin as [_ Hin]. auto.
  - apply NoDup_ids_filter. assumption.
  - intros tm Hin. apply list_elem_of_filter in Hin as [_ Hin]. auto.
  - intros tm Hin. apply list_elem_of_filter in Hin as [_ Hin]. auto.
Qed.

Lemma stopAllVoices_spec s :
  stopAllVoices s
  = set_activeOscillators [] (set_stopped (stopped s ++ activeOscillators s) s).
Proof.
  unfold stopAllVoices. f_equal.
  generalize (activeOscillators s) as l. intros l. revert s.
  induction l as [|o l IH]; intros s; simpl.
  - rewrite app_nil_r. destruct s; reflexivity.
  - rewrite IH. simpl. rewrite <- app_assoc. reflexivity.
Qed.

(** After [stop] no re-arm timer is pending. *)
Lemma stop_no_tick s : Inv s -> tick_timers (stop s) = [].
Proof.
  intros HI. apply no_tick_iff. unfold stop.
  rewrite stopAllVoices_spec. simpl. intros tm Hin Htick.
  destruct (timerID_truthy (timerID s)) as [i|] eqn:Hid; simpl in Hin.
  - apply list_elem_of_filter in Hin as [Hne Hin].
    destruct (inv_tick s HI tm Hin Htick) as [_ Heq].
    rewrite Heq in Hid. simpl in Hid.
    destruct (timerId tm =? 0)%nat; [discriminate|].
    injection Hid as <-. congruence.
  - destruct (inv_tick s HI tm Hin Htick) as [_ Heq].
    rewrite Heq in Hid. simpl in Hid.
    destruct (Nat.eqb_spec (timerId tm) 0) as [E|E]; [|discriminate].
    pose proof (inv_ids s HI) as Hids. rewrite Forall_forall in Hids.
    specialize (Hids tm Hin). lia.
Qed.

Lemma Inv_stop s : Inv s -> Inv (stop s).
Proof.
  intros HI. pose proof (stop_no_tick s HI) as Hno.
  rewrite no_tick_iff in Hno. revert Hno.
  unfold stop. rewrite stopAllVoices_spec.
  destruct HI.
  destruct (timerID_truthy (timerID (set_isPlaying false s))) as [i|];
    intros Hno; split; simpl in *; auto; try discriminate.
  - rewrite Forall_forall in *. intros tm Hin.
    apply list_elem_of_filter in Hin as [_ Hin]. auto.
  - apply NoDup_ids_filter. assumption.
  - intros tm Hin Htick. exfalso. eapply Hno; eauto.
  - intros tm Hin. apply list_elem_of_filter in Hin as [_ Hin]. auto.
  - intros tm Hin Htick. exfalso. eapply Hno; eauto.
Qed.

Lemma queued_fresh i t s tm :
  tm ∈ queued i t s -> timerId tm = nextTimerId s /\ task tm <> TickTask.
Proof.
  unfold queued. destruct (ctx s); [destruct (stepCallback s)|];
    intros Hin; try (inversion Hin; fail).
  apply list_elem_of_singleton in Hin as ->. split; [reflexivity|discriminate].
Qed.

Lemma queued_ids i t s :
  timerId <$> queued i t s = repeat (nextTimerId s) (length (queued i t s)).
Proof.
  unfold queued. destruct (ctx s); [destruct (stepCallback s)|]; reflexivity.
Qed.

Lemma queued_length i t s : (length (queued i t s) <= 1)%nat.
Proof.
  unfold queued. destruct (ctx s); [destruct (stepCallback s)|]; simpl; lia.
Qed.

(** One turn of the loop, while playing with no re-arm timer pending. *)
Lemma advance_Inv d s :
  Inv s -> isPlaying s = true -> tick_timers s = [] ->
  Inv (advance d s)
  /\ isPlaying (advance d s) = true
  /\ tick_timers (advance d s) = [].
Proof.
  intros HI Hp Hno.
  destruct (advance_frame d s)
    as (Fc & Fp & _ & Fid & _ & _ & _ & Ft & Fn & _ & _).
  destruct (scheduleNote_timers (currentStep s) (nextNoteTime s) s) as [Ht Hn].
  rewrite Ht in Ft. rewrite Hn in Fn. clear Ht Hn.
  pose proof (queued_fresh (currentStep s) (nextNoteTime s) s) as Hq.
  pose proof (queued_length (currentStep s) (nextNoteTime s) s) as Hlen.
  pose proof (queued_ids (currentStep s) (nextNoteTime s) s) as Hqi.
  destruct (advance_cursor d s) as (Hcalls & _ & _).
  destruct (advance_cursor_mod d s (inv_cursor s HI)) as (Hcur & Hcurlt).
  rewrite no_tick_iff in Hno.
  assert (forall tm, tm ∈ timers (advance d s) -> task tm <> TickTask) as Hno'.
  { intros tm. rewrite Ft, elem_of_app. intros [Hin | Hin]; [auto|].
    apply Hq. exact Hin. }
  split; [|split; [congruence | apply no_tick_iff; exact Hno']].
  destruct HI. split.
  - rewrite Fn. lia.
  - rewrite Ft, Fn, Forall_app. split.
    + eapply Forall_impl; [eassumption|]. simpl. intros tm. lia.
    + apply Forall_forall. intros tm Hin.
      assert (1 <= length (queued (currentStep s) (nextNoteTime s) s))%nat.
      { destruct (queued _ _ s); [inversion Hin | simpl; lia]. }
      apply Hq in Hin as [-> _]. lia.
  - rewrite Ft, fmap_app, Hqi. apply NoDup_app. split; [assumption|]. split.
    + intros x Hin Hrep. apply list_elem_of_fmap in Hin as (tm & -> & Hin).
      apply list_elem_of_In, repeat_spec in Hrep.
      rewrite Forall_forall in inv_ids0. specialize (inv_ids0 tm Hin). lia.
    + destruct (length (queued _ _ s)) as [|[|n]]; [constructor| |lia].
      apply NoDup_singleton.
  - intros tm Hin Htick. exfalso. eapply Hno'; eauto.
  - rewrite Fc, Fp. assumption.
  - rewrite Fp, Hp. discriminate.
  - exact Hcurlt.
  - destruct inv_cycle0 as (old & run0 & Hc1 & Hc2 & Hc3).
    exists old, (run0 ++ [(currentStep s, nextNoteTime s)]).
    rewrite Hcalls, Hc1, <- app_assoc. split; [reflexivity|].
    rewrite length_app. simpl length. rewrite Nat.add_1_r, seq_S, !map_app.
    rewrite Hc2. split.
    + cbn [map fst]. rewrite Hc3, Nat.add_0_l. reflexivity.
    + rewrite Hcur, Hc3, Nat.Div0.add_mod_idemp_l, Nat.add_1_r. reflexivity.
  - rewrite Fid, Fn. intros i Hi. specialize (inv_timerID0 i Hi). lia.
  - rewrite Fid, Ft. intros tm Hin Hid.
    apply elem_of_app in Hin as [Hin | Hin]; [auto|].
    apply Hq in Hin as [E _]. rewrite E in Hid.
    specialize (inv_timerID0 _ Hid). lia.
Qed.

Lemma iter_advance_Inv d s n :
  Inv s -> isPlaying s = true -> tick_timers s = [] ->
  Inv (Nat.iter n (advance d) s)
  /\ isPlaying (Nat.iter n (advance d) s) = true
  /\ tick_timers (Nat.iter n (advance d) s) = [].
Proof.
  intros HI Hp Hno. induction n as [|n (I1 & I2 & I3)]; [auto|].
  simpl Nat.iter. apply advance_Inv; assumption.
Qed.

Lemma rearm_Inv s :
  Inv s -> isPlaying s = true -> tick_timers s = [] -> Inv (rearm s).
Proof.
  intros [] Hp Hno. rewrite no_tick_iff in Hno.
  unfold rearm, setTimeout. split; simpl; auto.
  - rewrite Forall_app. split.
    + eapply Forall_impl; [eassumption|]. simpl. intros tm. lia.
    + apply Forall_singleton. simpl. lia.
  - rewrite fmap_app. apply NoDup_app. split; [assumption|]. split.
    + intros x Hin Hx. apply list_elem_of_singleton in Hx as ->.
      apply list_elem_of_fmap in Hin as (tm & Heq & Hin). simpl in Heq.
      rewrite Forall_forall in inv_ids0. specialize (inv_ids0 tm Hin). lia.
    + apply NoDup_singleton.
  - intros tm Hin Htick. apply elem_of_app in Hin as [Hin | Hin].
    + exfalso. eapply Hno; eauto.
    + apply list_elem_of_singleton in Hin as ->. simpl. auto.
  - intros i [= <-]. lia.
  - intros tm Hin [= Hid]. apply elem_of_app in Hin as [Hin | Hin].
    + rewrite Forall_forall in inv_ids0. specialize (inv_ids0 tm Hin). lia.
    + apply list_elem_of_singleton in Hin as ->. reflexivity.
Qed.

Lemma scheduler_Inv fuel s s' :
  Inv s -> isPlaying s = true -> tick_timers s = [] ->
  scheduler fuel s = Some s' -> Inv s'.
Proof.
  intros HI Hp Hno Hs.
  destruct (ctx s) as [c|] eqn:Hc.
  - destruct (scheduler_iter fuel s s' c Hc Hs) as (n & _ & _ & ->).
    rewrite Hp.
    destruct (iter_advance_Inv (stepDurationSec (state s)) s n HI Hp Hno)
      as (I1 & I2 & I3).
    apply rearm_Inv; assumption.
  - unfold scheduler in Hs. rewrite Hc in Hs. injection Hs as <-. exact HI.
Qed.

Lemma Inv_no_tick_when_stopped s :
  Inv s -> isPlaying s = false -> tick_timers s = [].
Proof.
  intros HI Hp. apply no_tick_iff. intros tm Hin Htick.
  destruct (inv_tick s HI tm Hin Htick) as [Hplay _]. congruence.
Qed.

Ltac frame_inv HI :=
  eapply Inv_frame; [exact HI|..]; try reflexivity; simpl; auto;
  try (intros _; eexists; reflexivity).

Lemma Inv_initialize fresh s : Inv s -> Inv (initialize fresh s).
Proof.
  intros HI. unfold initialize. destruct (ctx s) eqn:Hc; [exact HI|].
  frame_inv HI.
Qed.

Lemma Inv_resume s : Inv s -> Inv (resume s).
Proof.
  intros HI. unfold resume. destruct (ctx s) eqn:Hc; [|exact HI].
  frame_inv HI.
Qed.

Lemma Inv_setState st s : Inv s -> Inv (setState st s).
Proof.
  intros HI. unfold setState, applyGlobalSettings. simpl.
  destruct (ctx s) eqn:Hc; frame_inv HI.
Qed.

Lemma Inv_tick_clock t s : Inv s -> Inv (tick_clock t s).
Proof.
  intros HI. unfold tick_clock. destruct (ctx s) eqn:Hc; [|exact HI].
  frame_inv HI.
Qed.

Lemma Inv_onended osc s : Inv s -> Inv (onended osc s).
Proof.
  intros HI. frame_inv HI. intros ->. reflexivity.
Qed.

Lemma Inv_runStepTask n s : Inv s -> Inv (runStepTask n s).
Proof.
  intros HI. unfold runStepTask. destruct (stepCallback s); [|exact HI].
  frame_inv HI.
Qed.

(** The awaited [start], written out. *)
Lemma start_eq fresh onStep fuel s :
  start fresh onStep fuel s
  = (let s := match ctx s with None => initialize fresh s | Some _ => s end in
     if isPlaying s then Some s else
     let s := if is_suspended s then resume s else s in
     match ctx s with
     | None => None
     | Some c =>
         let s := set_stepCallback onStep s in
         let s := set_isPlaying true s in
         let s := set_currentStep 0 s in
         let s := set_nextNoteTime (currentTime c + Fin (qc 5 100)) s in
         scheduler fuel s
     end).
Proof.
  unfold start, start_call, awaited, start_continue, start_guard, start_body.
  cbv zeta.
  destruct (ctx s) as [c|] eqn:Hc.
  - destruct (isPlaying s) eqn:Hp; [reflexivity|].
    destruct (is_suspended s) eqn:Hsu.
    + destruct (ctx (resume s)) as [c'|]; [|reflexivity].
      destruct (scheduler fuel _); reflexivity.
    + rewrite Hc. destruct (scheduler fuel _); reflexivity.
  - destruct (isPlaying (initialize fresh s)) eqn:Hp; [reflexivity|].
    destruct (is_suspended (initialize fresh s)) eqn:Hsu.
    + destruct (ctx (resume (initialize fresh s))) as [c'|]; [|reflexivity].
      destruct (scheduler fuel _); reflexivity.
    + destruct (ctx (initialize fresh s)) as [c'|]; [|reflexivity].
      destruct (scheduler fuel _); reflexivity.
Qed.

Lemma Inv_start fresh onStep fuel s s' :
  Inv s -> start fresh onStep fuel s = Some s' -> Inv s'.
Proof.
  intros HI. rewrite start_eq. cbv zeta.
  set (s0 := match ctx s with None => initialize fresh s | Some _ => s end).
  assert (Inv s0) as HI0.
  { subst s0. destruct (ctx s); [exact HI | apply Inv_initialize; exact HI]. }
  clearbody s0. clear HI s.
  destruct (isPlaying s0) eqn:Hp; [intros [= <-]; exact HI0|].
  set (s1 := if is_suspended s0 then resume s0 else s0).
  assert (Inv s1) as HI1.
  { subst s1. destruct (is_suspended s0); [apply Inv_resume|]; exact HI0. }
  assert (isPlaying s1 = false) as Hp1.
  { subst s1. destruct (is_suspended s0); [|exact Hp].
    unfold resume. destruct (ctx s0); [simpl|]; exact Hp. }
  clearbody s1. clear HI0 Hp s0.
  destruct (ctx s1) as [c|] eqn:Hc; [|discriminate].
  pose proof (Inv_no_tick_when_stopped s1 HI1 Hp1) as Hno.
  apply scheduler_Inv; [|reflexivity|exact Hno].
  rewrite no_tick_iff in Hno. destruct HI1.
  split; simpl; auto.
  - intros tm Hin Htick. exfalso. eapply Hno; eauto.
  - unfold NUM_STEPS. lia.
  - exists (noteCalls s1), []. rewrite app_nil_r. auto.
Qed.

Lemma find_timer_Some i s tm :
  find_timer i s = Some tm -> tm ∈ timers s /\ timerId tm = i.
Proof.
  unfold find_timer.
  destruct (list_find _ (timers s)) as [[k tm']|] eqn:Hf; [|discriminate].
  simpl. intros [= <-].
  apply list_find_Some in Hf as (Hk & Hid & _).
  split; [|exact Hid]. eapply list_elem_of_lookup_2. exact Hk.
Qed.

Lemma Inv_fireTimer i fuel s s' :
  Inv s -> fireTimer i fuel s = Some s' -> Inv s'.
Proof.
  intros HI. unfold fireTimer.
  destruct (find_timer i s) as [tm|] eqn:Hf; [|discriminate].
  apply find_timer_Some in Hf as [Hin Hid].
  destruct (task tm) as [n|] eqn:Htask.
  - intros [= <-]. apply Inv_runStepTask, Inv_clearTimeout, HI.
  - destruct (inv_tick s HI tm Hin Htask) as [Hp HtID].
    apply scheduler_Inv.
    + apply Inv_clearTimeout, HI.
    + exact Hp.
    + apply no_tick_iff. simpl. intros tm' Hin' Htick'.
      apply list_elem_of_filter in Hin' as [Hne Hin'].
      destruct (inv_tick s HI tm' Hin' Htick') as [_ HtID'].
      rewrite HtID in HtID'. injection HtID' as E. congruence.
Qed.

Lemma Inv_fire e s s' : Inv s -> fire e s = Some s' -> Inv s'.
Proof.
  intros IH Hfire. destruct e; simpl in Hfire.
  - eapply Inv_start; eauto.
  - injection Hfire as <-. apply Inv_stop, IH.
  - injection Hfire as <-. apply Inv_setState, IH.
  - eapply Inv_fireTimer; eauto.
  - injection Hfire as <-. apply Inv_onended, IH.
  - injection Hfire as <-. apply Inv_tick_clock, IH.
Qed.

(** Every reachable state satisfies the invariant. *)
Lemma reachable_Inv s : reachable s -> Inv s.
Proof.
  induction 1 as [|e s s' _ IH Hfire]; [apply Inv_new|].
  eapply Inv_fire; eauto.
Qed.

Lemma reachable_run es s s' :
  reachable s -> run es s = Some s' -> reachable s'.
Proof.
  revert s. induction es as [|e es IH]; intros s Hs; simpl.
  - intros [= <-]. exact Hs.
  - destruct (fire e s) as [s1|] eqn:Hf; [|discriminate].
    apply IH. eapply reachable_fire; eauto.
Qed.

Lemma reachable_playing : reachable playing.
Proof.
  apply (reachable_run [EStart freshContext (Some 7%nat) 4] newAudioService);
    [apply reachable_new|].
  unfold playing, run, fire.
  destruct (start freshContext (Some 7%nat) 4 newAudioService) eqn:E;
    [reflexivity | vm_compute in E; discriminate E].
Qed.

Lemma reachable_later : reachable later.
Proof.
  apply (reachable_fire (EClock (Fin (qc 3 10))) playing);
    [apply reachable_playing | unfold later, fire; reflexivity].
Qed.

Lemma reachable_shortPlaying : reachable shortPlaying.
Proof.
  apply (reachable_run [ESetState (sceneOf lateStep fifthLayer);
                        EStart freshContext (Some 7%nat) 4] newAudioService);
    [apply reachable_new|].
  unfold shortPlaying.
  destruct (run _ newAudioService) eqn:E;
    [reflexivity | vm_compute in E; discriminate E].
Qed.

(** ** Step duration *)

Lemma iter_advance_time d s n :
  nextNoteTime (Nat.iter n (advance d) s) = after_steps (nextNoteTime s) d n.
Proof.
  induction n as [|n IH]; [reflexivity|].
  simpl Nat.iter. destruct (advance_cursor d (Nat.iter n (advance d) s))
    as (_ & -> & _).
  rewrite IH. reflexivity.
Qed.

Lemma rearm_frame s :
  nextNoteTime (rearm s) = nextNoteTime s
  /\ currentStep (rearm s) = currentStep s
  /\ noteCalls (rearm s) = noteCalls s
  /\ oscillators (rearm s) = oscillators s
  /\ activeOscillators (rearm s) = activeOscillators s
  /\ isPlaying (rearm s) = isPlaying s.
Proof. repeat split; reflexivity. Qed.

(** The loop leaves as soon as its test fails: if the window is closed
    after [n] turns, [n] turns of fuel are enough. *)
Lemma drain_closes (d : number) (n : nat) (s : AudioService) :
  window_open (Nat.iter n (advance d) s) = false ->
  is_Some (drain n d s).
Proof.
  revert s. induction n as [|n IH]; intros s Hw; simpl in *.
  - rewrite Hw. eexists. reflexivity.
  - destruct (window_open s); [|eexists; reflexivity].
    apply IH. rewrite <- Nat.iter_succ_r. exact Hw.
Qed.

(** C1. The step duration the scheduler uses is [(60 / tempo) / 4],
    computed once on entry from the tempo of the scene at that tick.
    Every turn of the look-ahead loop calls [scheduleNote] with the cursor
    and [nextNoteTime], then adds exactly that duration to [nextNoteTime],
    then moves the cursor, and leaves the scene alone; a run that returns
    has made [n] such turns, the loop test holding before each of them and
    failing after the last, so that [nextNoteTime] has been advanced [n]
    times by the step duration; and the run does return as soon as the
    test fails after some number of turns. *)
Theorem scheduler_step_duration (s : AudioService) (c : AudioContext) :
  ctx s = Some c ->
  let d := num 60 / tempo (state s) / num 4 in
  stepDurationSec (state s) = d
  /\ (forall s0 : AudioService,
        noteCalls (advance d s0)
          = noteCalls s0 ++ [(currentStep s0, nextNoteTime s0)]
        /\ nextNoteTime (advance d s0) = nextNoteTime s0 + d
        /\ currentStep (advance d s0)
           = (if (S (currentStep s0) =? NUM_STEPS)%nat then 0
              else S (currentStep s0))%nat
        /\ state (advance d s0) = state s0)
  /\ (forall fuel s',
        scheduler fuel s = Some s' ->
        exists n : nat,
          (n <= fuel)%nat
          /\ s' = (if isPlaying s then rearm else fun x => x)
                    (Nat.iter n (advance d) s)
          /\ nextNoteTime s' = after_steps (nextNoteTime s) d n
          /\ (forall k, (k < n)%nat ->
                window_open (Nat.iter k (advance d) s) = true)
          /\ window_open (Nat.iter n (advance d) s) = false)
  /\ (forall n,
        window_open (Nat.iter n (advance d) s) = false ->
        exists s', scheduler n s = Some s').
Proof.
  intros Hc d. change (num 60 / tempo (state s) / num 4)
    with (stepDurationSec (state s)) in d.
  split; [reflexivity|]. split; [|split].
  - intros s0. destruct (advance_cursor d s0) as (H1 & H2 & H3).
    destruct (advance_frame d s0) as (_ & _ & _ & _ & H5 & _). auto.
  - intros fuel s' Hs. revert Hs. unfold scheduler. rewrite Hc.
    fold d. destruct (drain fuel d s) as [s1|] eqn:Hd; [|discriminate].
    intros [= <-].
    destruct (drain_iter _ _ _ _ Hd) as (n & Hn & -> & Hw & Hopen).
    destruct (iter_advance_frame d s n) as (_ & Hp & _).
    exists n. split; [exact Hn|]. rewrite Hp.
    split; [destruct (isPlaying s); reflexivity|].
    split; [|split; [exact Hopen | exact Hw]].
    destruct (isPlaying s);
      [destruct (rearm_frame (Nat.iter n (advance d) s)) as (-> & _)|];
      apply iter_advance_time.
  - intros n Hw. destruct (drain_closes d n s Hw) as [s1 Hs1].
    unfold scheduler. rewrite Hc. fold d. rewrite Hs1. eexists. reflexivity.
Qed.

Lemma scheduler_step_duration_witness :
  stepDurationSec (state (serviceWith getInitialState))
    = num 60 / num 120 / num 4
  /\ exists s', scheduler 1 (serviceWith getInitialState) = Some s'.
Proof.
  destruct (scheduler_step_duration (serviceWith getInitialState) _ eq_refl)
    as (H1 & _ & _ & H4).
  split; [exact H1|].
  apply (H4 1%nat). vm_compute. reflexivity.
Defined.

(** ** Step cursor *)






(** ** Step-advance notification *)

Lemma list_find_fresh (i : nat) (l : list Timer) (tm : Timer) :
  Forall (fun x => timerId x <> i) l -> timerId tm = i ->
  list_find (fun x => timerId x = i) (l ++ [tm]) = Some (length l, tm).
Proof.
  intros Hl Hi. induction Hl as [|x l Hx Hl IH]; simpl.
  - rewrite decide_True by exact Hi. reflexivity.
  - rewrite decide_False by exact Hx. rewrite IH. reflexivity.
Qed.

Lemma filter_all {A} (P : A -> Prop) `{!forall x, Decision (P x)}
    (l : list A) :
  Forall P l -> filter P l = l.
Proof.
  induction 1 as [|x l Hx Hl IH]; [reflexivity|].
  rewrite filter_cons_True by exact Hx. rewrite IH. reflexivity.
Qed.

Lemma Inv_ids_fresh s :
  Inv s -> Forall (fun x => timerId x <> nextTimerId s) (timers s).
Proof.
  intros HI. eapply Forall_impl; [exact (inv_ids s HI)|].
  simpl. intros x. lia.
Qed.

(** The timer queued by [scheduleNote] comes due: the callback registered
    then is called once with the step index, and the timer is gone. *)
Lemma step_timer_fires s c cb i t fuel :
  Inv s -> ctx s = Some c -> stepCallback s = Some cb ->
  exists s2,
    fireTimer (nextTimerId s) fuel (scheduleNote i t s) = Some s2
    /\ callbackLog s2 = callbackLog s ++ [(cb, i)]
    /\ timers s2 = timers s
    /\ find_timer (nextTimerId s) s2 = None.
Proof.
  intros HI Hc Hcb.
  pose proof (Inv_ids_fresh s HI) as Hfresh.
  destruct (scheduleNote_timers i t s) as [Ht _].
  destruct (scheduleNote_frame i t s)
    as (_ & _ & Fcb & _ & _ & _ & _ & _ & Flog & _).
  unfold queued in Ht. rewrite Hc, Hcb in Ht.
  unfold fireTimer, find_timer. rewrite Ht.
  rewrite (list_find_fresh (nextTimerId s) (timers s) (stepTimer i t c s)
             Hfresh eq_refl).
  simpl. unfold runStepTask, clearTimeout. simpl. rewrite Fcb, Hcb.
  eexists. split; [reflexivity|]. simpl. rewrite Flog, Ht.
  rewrite filter_app, (filter_all _ _ Hfresh).
  rewrite filter_cons_False by (simpl; auto). rewrite filter_nil, app_nil_r.
  split; [reflexivity|]. split; [reflexivity|].
  destruct (list_find _ (timers s)) as [[k x]|] eqn:Hf; [|reflexivity].
  apply list_find_Some in Hf as (Hk & Hid & _).
  rewrite Forall_forall in Hfresh. exfalso.
  apply (Hfresh x); [eapply list_elem_of_lookup_2; exact Hk | exact Hid].
Qed.

(** C6. For every call [scheduleNote i t] made while a step callback is
    registered, exactly one timer is queued; its delay is the time from
    the audio clock to [t] in milliseconds (not below 0); when it comes
    due the callback is called once with [i] and the timer is gone.  None
    of this depends on the step: it holds for a disabled step, a step
    with zero gain, a step that makes no voice.  Without a callback no
    timer is queued. *)
Theorem step_callback_once (s : AudioService) (c : AudioContext)
    (i : nat) (t : number) :
  reachable s -> ctx s = Some c ->
  (forall cb : Callback,
     stepCallback s = Some cb ->
     timers (scheduleNote i t s)
       = timers s
         ++ [{| timerId := nextTimerId s;
                delay := Math_max (num 0) ((t - currentTime c) * num 1000);
                task := StepTask i |}]
     /\ (forall tq nowq : Qc,
           t = Fin tq -> currentTime c = Fin nowq -> (nowq <= tq)%Qc ->
           Math_max (num 0) ((t - currentTime c) * num 1000)
           = Fin ((tq - nowq) * qc 1000 1))
     /\ (forall fuel : nat,
           exists s2,
             fireTimer (nextTimerId s) fuel (scheduleNote i t s) = Some s2
             /\ callbackLog s2 = callbackLog s ++ [(cb, i)]
             /\ timers s2 = timers s
             /\ find_timer (nextTimerId s) s2 = None))
  /\ (stepCallback s = None ->
      timers (scheduleNote i t s) = timers s
      /\ callbackLog (scheduleNote i t s) = callbackLog s).
Proof.
  intros Hr Hc. pose proof (reachable_Inv s Hr) as HI.
  destruct (scheduleNote_timers i t s) as [Ht _].
  destruct (scheduleNote_frame i t s)
    as (_ & _ & _ & _ & _ & _ & _ & _ & Flog & _).
  unfold queued in Ht. rewrite Hc in Ht. split.
  - intros cb Hcb. rewrite Hcb in Ht. split; [exact Ht|]. split.
    + intros tq nowq -> -> Hle. unfold Math_max, num. simpl.
      case_bool_decide; [reflexivity|].
      f_equal. apply Qc_is_canon. to_Q. lra.
    + intros fuel. apply (step_timer_fires s c cb i t fuel HI Hc Hcb).
  - intros Hcb. rewrite Hcb, app_nil_r in Ht. auto.
Qed.

Lemma shortPlaying_ctx : is_Some (ctx shortPlaying).
Proof.
  destruct (ctx shortPlaying) eqn:E; [eexists; reflexivity|].
  vm_compute in E. discriminate E.
Qed.

Lemma shortPlaying_callback : stepCallback shortPlaying = Some 7%nat.
Proof. vm_compute. reflexivity. Qed.


Lemma step_callback_once_witness :
  exists s2,
    fireTimer (nextTimerId shortPlaying) 0
      (scheduleNote 3 (num 1) shortPlaying) = Some s2
    /\ callbackLog s2 = callbackLog shortPlaying ++ [(7%nat, 3%nat)].
Proof.
  destruct shortPlaying_ctx as [c Hc].
  destruct (step_callback_once shortPlaying c 3 (num 1)
              reachable_shortPlaying Hc) as [H _].
  destruct (H 7%nat shortPlaying_callback) as (_ & _ & Hfire).
  destruct (Hfire 0%nat) as (s2 & H1 & H2 & _).
  exists s2. split; [exact H1 | exact H2].
Defined.

(** ** Scenes with fewer than 16 steps *)



(** ** Transport *)

Lemma advance_ticks d s : tick_timers (advance d s) = tick_timers s.
Proof.
  destruct (advance_frame d s) as (_ & _ & _ & _ & _ & _ & _ & Ft & _).
  destruct (scheduleNote_timers (currentStep s) (nextNoteTime s) s) as [Ht _].
  unfold tick_timers. rewrite Ft, Ht, filter_app.
  assert (filter (fun tm => task tm = TickTask)
            (queued (currentStep s) (nextNoteTime s) s) = []) as ->.
  { unfold queued. destruct (ctx s); [destruct (stepCallback s)|];
      reflexivity. }
  apply app_nil_r.
Qed.

Lemma iter_advance_ticks d s n :
  tick_timers (Nat.iter n (advance d) s) = tick_timers s.
Proof.
  induction n as [|n IH]; [reflexivity|].
  simpl Nat.iter. rewrite advance_ticks. exact IH.
Qed.

(** The scheduler re-arms only while [isPlaying] is true. *)
Lemma scheduler_stopped fuel s s' :
  isPlaying s = false -> scheduler fuel s = Some s' ->
  tick_timers s' = tick_timers s /\ isPlaying s' = false.
Proof.
  intros Hp Hs. destruct (ctx s) as [c|] eqn:Hc.
  - destruct (scheduler_iter fuel s s' c Hc Hs) as (n & _ & _ & ->).
    rewrite Hp. split; [apply iter_advance_ticks|].
    destruct (iter_advance_frame (stepDurationSec (state s)) s n)
      as (_ & -> & _). exact Hp.
  - unfold scheduler in Hs. rewrite Hc in Hs. injection Hs as <-. auto.
Qed.

(** While stopped, nothing but [start] sets the service going again. *)
Lemma quiet_fire e s s' :
  Inv s -> isPlaying s = false -> not_start e = true ->
  fire e s = Some s' ->
  isPlaying s' = false /\ oscillators s' = oscillators s.
Proof.
  intros HI Hp Hq. destruct e; simpl; try discriminate Hq.
  - intros [= <-]. unfold stop. rewrite stopAllVoices_spec.
    destruct (timerID_truthy _); split; reflexivity.
  - intros [= <-]. unfold setState, applyGlobalSettings. simpl.
    destruct (ctx s); split; simpl; auto.
  - unfold fireTimer. destruct (find_timer i s) as [tm|] eqn:Hf;
      [|discriminate].
    apply find_timer_Some in Hf as [Hin Hid].
    destruct (task tm) as [n|] eqn:Htask.
    + intros [= <-]. unfold runStepTask, clearTimeout. simpl.
      destruct (stepCallback s); split; simpl; auto.
    + destruct (inv_tick s HI tm Hin Htask) as [Hplay _]. congruence.
  - intros [= <-]. split; simpl; auto.
  - intros [= <-]. unfold tick_clock. destruct (ctx s); split; simpl; auto.
Qed.

Lemma quiet_run es s s' :
  Inv s -> isPlaying s = false -> forallb not_start es = true ->
  run es s = Some s' ->
  Inv s' /\ isPlaying s' = false /\ oscillators s' = oscillators s.
Proof.
  revert s. induction es as [|e es IH]; intros s HI Hp Hq; simpl.
  - intros [= <-]. auto.
  - simpl in Hq. apply andb_true_iff in Hq as [Hq1 Hq2].
    destruct (fire e s) as [s1|] eqn:Hf; [|discriminate].
    destruct (quiet_fire e s s1 HI Hp Hq1 Hf) as [Hp1 Ho1].
    intros Hrun.
    destruct (IH s1 (Inv_fire e s s1 HI Hf) Hp1 Hq2 Hrun) as (H1 & H2 & H3).
    split; [exact H1|]. split; [exact H2|]. congruence.
Qed.

(** X31. As long as every call of [start] has been awaited before the
    next event (no two calls overlap): [stop] stops every live oscillator
    and leaves the live set empty; it cancels the pending re-arm timer;
    and afterwards, whatever happens short of a new [start] (timers coming
    due, oscillators ending, scene updates, the clock), the service stays
    stopped, no re-arm timer is ever pending again and no oscillator is
    created.  In any state at all, the scheduler re-arms only while
    [isPlaying] is true. *)
Theorem stop_cancels (s : AudioService) :
  reachable s ->
  activeOscillators (stop s) = []
  /\ stopped (stop s) = stopped s ++ activeOscillators s
  /\ (forall osc, osc ∈ activeOscillators s -> osc ∈ stopped (stop s))
  /\ isPlaying (stop s) = false
  /\ tick_timers (stop s) = []
  /\ (forall es s',
        forallb not_start es = true -> run es (stop s) = Some s' ->
        isPlaying s' = false
        /\ tick_timers s' = []
        /\ oscillators s' = oscillators s)
  /\ (forall fuel s1 s2,
        isPlaying s1 = false -> scheduler fuel s1 = Some s2 ->
        tick_timers s2 = tick_timers s1).
Proof.
  intros Hr. pose proof (reachable_Inv s Hr) as HI.
  pose proof (Inv_stop s HI) as HI'.
  assert (activeOscillators (stop s) = []
          /\ stopped (stop s) = stopped s ++ activeOscillators s
          /\ isPlaying (stop s) = false
          /\ oscillators (stop s) = oscillators s) as (H1 & H2 & H3 & H4).
  { unfold stop. rewrite stopAllVoices_spec.
    destruct (timerID_truthy _); repeat split; reflexivity. }
  split; [exact H1|]. split; [exact H2|]. split.
  { intros osc Hin. rewrite H2. apply elem_of_app. right. exact Hin. }
  split; [exact H3|]. split; [apply stop_no_tick; exact HI|]. split.
  - intros es s' Hq Hrun.
    destruct (quiet_run es (stop s) s' HI' H3 Hq Hrun) as (I1 & I2 & I3).
    split; [exact I2|]. split; [|congruence].
    apply Inv_no_tick_when_stopped; assumption.
  - intros fuel s1 s2 Hp Hs.
    destruct (scheduler_stopped fuel s1 s2 Hp Hs) as [Ht _]. exact Ht.
Qed.

Lemma stop_cancels_witness :
  activeOscillators (stop playing) = []
  /\ stopped (stop playing) = stopped playing ++ activeOscillators playing
  /\ tick_timers (stop playing) = [].
Proof.
  destruct (stop_cancels playing reachable_playing)
    as (H1 & H2 & _ & _ & H5 & _).
  split; [exact H1|]. split; [exact H2 | exact H5].
Defined.

Lemma set_isPlaying_same s : set_isPlaying (isPlaying s) s = s.
Proof. destruct s; reflexivity. Qed.

Lemma set_timers_same s : set_timers (timers s) s = s.
Proof. destruct s; reflexivity. Qed.

(** X32. As long as every call of [start] has been awaited before the
    next event (no two calls overlap): [start] on a running service
    returns without changing anything (cursor, [nextNoteTime], timers,
    callback: the whole state), and [stop] on a stopped service leaves the
    whole state as it is. *)
Theorem transport_idempotent (s : AudioService) :
  reachable s ->
  (isPlaying s = true ->
   forall fresh onStep fuel, start fresh onStep fuel s = Some s)
  /\ (isPlaying s = false -> stop s = s).
Proof.
  intros Hr. pose proof (reachable_Inv s Hr) as HI. split.
  - intros Hp fresh onStep fuel. rewrite start_eq. cbv zeta.
    destruct (inv_ctx s HI Hp) as [c Hc]. rewrite Hc, Hp. reflexivity.
  - intros Hp.
    assert (set_isPlaying false s = s) as E
      by (rewrite <- Hp; apply set_isPlaying_same).
    unfold stop. cbv zeta. rewrite stopAllVoices_spec, !E.
    pose proof (Inv_no_tick_when_stopped s HI Hp) as Hno.
    rewrite no_tick_iff in Hno.
    assert (match timerID_truthy (timerID s) with
            | Some i => clearTimeout i s
            | None => s
            end = s) as ->.
    { destruct (timerID s) as [i|] eqn:Hid; [|reflexivity]. simpl.
      destruct (i =? 0)%nat; [reflexivity|].
      unfold clearTimeout. rewrite filter_all; [apply set_timers_same|].
      apply Forall_forall. intros tm Hin Heq. subst i.
      apply (Hno tm Hin). apply (inv_owner s HI tm Hin Hid). }
    rewrite (inv_live s HI Hp), app_nil_r.
    rewrite <- (inv_live s HI Hp). destruct s; reflexivity.
Qed.

Lemma playing_isPlaying : isPlaying playing = true.
Proof. vm_compute. reflexivity. Qed.

Lemma transport_idempotent_witness :
  start freshContext None 3 playing = Some playing
  /\ stop newAudioService = newAudioService.
Proof.
  split.
  - apply (proj1 (transport_idempotent playing reachable_playing)
             playing_isPlaying).
  - apply (proj2 (transport_idempotent newAudioService reachable_new)).
    reflexivity.
Defined.

(** ** Calls of [start] that overlap *)

(** C5, on calls of [start] that overlap.  [start] tests [isPlaying]
    before it waits for [resume] and not again afterwards, so two calls
    made while the context is suspended both run the rest of [start]: step
    0 is scheduled twice, six oscillators are live and two re-arm timers
    are pending, of which [timerID] names the second.  [stop] then stops
    the six oscillators and empties the live set, but cancels the second
    timer only: the first is still pending after [stop] has returned, and
    when it comes due the scheduler runs once more, schedules step 1 and
    creates three oscillators while [isPlaying] is false. *)
Theorem stop_leaves_second_loop :
  match overlapped with
  | Some p =>
      waiting p = []
      /\ isPlaying (service p) = true
      /\ map fst (noteCalls (service p)) = [0; 0]%nat
      /\ activeOscillators (service p) = [0; 1; 2; 3; 4; 5]%nat
      /\ map timerId (tick_timers (service p)) = [2; 4]%nat
      /\ timerID (service p) = Some 4%nat
      /\ isPlaying (stop (service p)) = false
      /\ activeOscillators (stop (service p)) = []
      /\ stopped (stop (service p)) = [0; 1; 2; 3; 4; 5]%nat
      /\ tick_timers (stop (service p))
         = [{| timerId := 2; delay := lookahead; task := TickTask |}]
      /\ match overlappedThenStopped with
         | Some s' =>
             isPlaying s' = false
             /\ map fst (noteCalls s') = [0; 0; 1]%nat
             /\ activeOscillators s' = [6; 7; 8]%nat
             /\ tick_timers s' = []
         | None => False
         end
  | None => False
  end.
Proof. vm_compute. repeat split; reflexivity. Qed.

(** C8, on calls of [start] that overlap.  After the two calls, [stop],
    and the timer that [stop] did not cancel, the service is stopped and
    three oscillators are live; a further [stop] stops them and empties
    the live set: it does not leave the state as it is. *)
Theorem stop_when_stopped_after_overlap :
  match overlappedThenStopped with
  | Some s =>
      isPlaying s = false
      /\ activeOscillators s = [6; 7; 8]%nat
      /\ activeOscillators (stop s) = []
      /\ stopped (stop s) = stopped s ++ [6; 7; 8]%nat
      /\ stop s <> s
  | None => False
  end.
Proof.
  assert (option_map (fun s => (isPlaying s, activeOscillators s))
            overlappedThenStopped
          = Some (false, [6; 7; 8]%nat)) as Hfacts
    by (vm_compute; reflexivity).
  destruct overlappedThenStopped as [s|]; [|discriminate Hfacts].
  simpl in Hfacts. injection Hfacts as Hp Hlive.
  assert (activeOscillators (stop s) = []
          /\ stopped (stop s) = stopped s ++ activeOscillators s)
    as [H1 H2].
  { unfold stop. rewrite stopAllVoices_spec.
    destruct (timerID_truthy _); split; reflexivity. }
  rewrite Hlive in H2.
  split; [exact Hp|]. split; [exact Hlive|]. split; [exact H1|].
  split; [exact H2|].
  intros Heq. rewrite Heq, Hlive in H1. discriminate H1.
Qed.

(** * Further properties of the service *)

(** ** Tempos the scheduler does not survive *)

Lemma stalled_window s : stalled s = true -> window_open s = false.
Proof.
  unfold stalled, window_open. destruct (ctx s) as [c|]; [|reflexivity].
  destruct (nextNoteTime s); try discriminate; intros _;
    destruct (currentTime c + scheduleAheadTime); reflexivity.
Qed.

Lemma stalled_scheduler fuel s :
  stalled s = true ->
  scheduler fuel s = Some (match ctx s with
                           | Some _ => if isPlaying s then rearm s else s
                           | None => s
                           end).
Proof.
  intros Hst. unfold scheduler. destruct (ctx s) eqn:Hc; [|reflexivity].
  assert (drain fuel (stepDurationSec (state s)) s = Some s) as ->.
  { destruct fuel; simpl; rewrite (stalled_window s Hst); reflexivity. }
  reflexivity.
Qed.

(** X2. When the step duration computed from the tempo is [NaN] or
    [Infinity] (a tempo of [NaN], as from the emptied tempo field, gives
    [NaN]), a run of the scheduler that finds the window open schedules
    one step, leaves [nextNoteTime] at [NaN] or [Infinity], and
    returns. *)
Theorem degenerate_tempo_stalls (s : AudioService) (c : AudioContext)
    (fuel : nat) :
  ctx s = Some c -> window_open s = true ->
  stepDurationSec (state s) = NaN \/ stepDurationSec (state s) = Infinity ->
  exists s',
    scheduler (S fuel) s = Some s'
    /\ noteCalls s' = noteCalls s ++ [(currentStep s, nextNoteTime s)]
    /\ stalled s' = true.
Proof.
  intros Hc Hw Hd.
  set (d := stepDurationSec (state s)) in *.
  destruct (advance_cursor d s) as (H1 & H2 & _).
  destruct (advance_frame d s) as (F1 & F2 & _).
  assert (stalled (advance d s) = true) as Hst.
  { unfold stalled. rewrite H2.
    unfold window_open in Hw. rewrite Hc in Hw.
    destruct (nextNoteTime s); try discriminate Hw;
      destruct Hd as [-> | ->]; reflexivity. }
  unfold scheduler. rewrite Hc. fold d. simpl drain. rewrite Hw.
  assert (drain fuel d (advance d s) = Some (advance d s)) as ->.
  { destruct fuel; simpl; rewrite (stalled_window _ Hst); reflexivity. }
  eexists. split; [reflexivity|].
  destruct (isPlaying (advance d s)); unfold stalled in *; simpl;
    rewrite ?H1; auto.
Qed.

Lemma degenerate_tempo_stalls_witness :
  exists s',
    scheduler 1 (serviceWith (sceneAt NaN)) = Some s'
    /\ noteCalls s' = noteCalls (serviceWith (sceneAt NaN))
                      ++ [(currentStep (serviceWith (sceneAt NaN)),
                           nextNoteTime (serviceWith (sceneAt NaN)))]
    /\ stalled s' = true.
Proof.
  refine (degenerate_tempo_stalls (serviceWith (sceneAt NaN)) _ 0
            eq_refl _ _).
  - reflexivity.
  - left. reflexivity.
Defined.

Lemma stalled_fire e s s' :
  stalled s = true -> not_start e = true -> fire e s = Some s' ->
  stalled s' = true
  /\ noteCalls s' = noteCalls s
  /\ oscillators s' = oscillators s.
Proof.
  intros Hst Hq. destruct e; simpl; try discriminate Hq.
  - intros [= <-]. unfold stop. rewrite stopAllVoices_spec.
    destruct (timerID_truthy _); repeat split; simpl; exact Hst.
  - intros [= <-]. unfold setState, applyGlobalSettings. simpl.
    destruct (ctx s); repeat split; simpl; exact Hst.
  - unfold fireTimer. destruct (find_timer i s) as [tm|]; [|discriminate].
    destruct (task tm) as [n|].
    + intros [= <-]. unfold runStepTask, clearTimeout. simpl.
      destruct (stepCallback s); repeat split; simpl; exact Hst.
    + rewrite stalled_scheduler by exact Hst. intros [= <-]. simpl.
      destruct (ctx s); [destruct (isPlaying s)|]; repeat split; exact Hst.
  - intros [= <-]. repeat split; exact Hst.
  - intros [= <-]. unfold tick_clock.
    destruct (ctx s); repeat split; simpl; exact Hst.
Qed.

(** X3. Once [nextNoteTime] is [NaN] or [Infinity] nothing but a new
    [start] brings the transport back: whatever timers come due, whatever
    scene is set (a sane tempo included), however the clock moves, no
    further step is scheduled and no oscillator is created. *)
Theorem stalled_until_restart (es : list event) (s s' : AudioService) :
  stalled s = true -> forallb not_start es = true ->
  run es s = Some s' ->
  stalled s' = true
  /\ noteCalls s' = noteCalls s
  /\ oscillators s' = oscillators s.
Proof.
  revert s. induction es as [|e es IH]; intros s Hst Hq; simpl.
  - intros [= <-]. auto.
  - simpl in Hq. apply andb_true_iff in Hq as [Hq1 Hq2].
    destruct (fire e s) as [s1|] eqn:Hf; [|discriminate].
    destruct (stalled_fire e s s1 Hst Hq1 Hf) as (S1 & S2 & S3).
    intros Hrun. destruct (IH s1 S1 Hq2 Hrun) as (I1 & I2 & I3).
    split; [exact I1|]. split; congruence.
Qed.

(** The service stalled by an emptied tempo field, one step into
    playback. *)
(** The run of the scheduler at a tempo of [NaN], evaluated. *)
Lemma nan_tempo_run :
  exists s0,
    scheduler 1 (serviceWith (sceneAt NaN)) = Some s0 /\ stalled s0 = true.
Proof.
  destruct (scheduler 1 (serviceWith (sceneAt NaN))) as [s0|] eqn:E;
    [|vm_compute in E; discriminate].
  exists s0. split; [reflexivity|].
  vm_compute in E. injection E as <-. reflexivity.
Qed.

Lemma stalled_until_restart_witness :
  exists s0 s',
    scheduler 1 (serviceWith (sceneAt NaN)) = Some s0
    /\ run [ESetState getInitialState; EClock (num 5)] s0 = Some s'
    /\ stalled s' = true
    /\ noteCalls s' = noteCalls s0.
Proof.
  destruct nan_tempo_run as (s0 & Hs0 & Hst).
  exists s0, (tick_clock (num 5) (setState getInitialState s0)).
  assert (run [ESetState getInitialState; EClock (num 5)] s0
          = Some (tick_clock (num 5) (setState getInitialState s0))) as Hrun
    by reflexivity.
  destruct (stalled_until_restart
              [ESetState getInitialState; EClock (num 5)] s0 _ Hst eq_refl Hrun)
    as (H1 & H2 & _).
  split; [exact Hs0|]. split; [exact Hrun|]. split; [exact H1 | exact H2].
Defined.

Lemma stepDurationSec_negative st (T : Qc) :
  (T < 0)%Qc -> tempo st = Fin T ->
  exists dq : Qc, stepDurationSec st = Fin dq /\ (dq < 0)%Qc.
Proof.
  intros HT Ht. unfold stepDurationSec. rewrite Ht. unfold num; simpl.
  assert (T <> 0)%Qc as Hne.
  { intros ->. eapply Qclt_not_eq; eauto. }
  rewrite bool_decide_eq_false_2 by exact Hne.
  unfold num_div.
  rewrite bool_decide_eq_false_2.
  2:{ intros E. apply (f_equal this) in E. vm_compute in E. discriminate. }
  eexists. split; [reflexivity|].
  assert (~ this T == 0)%Q as HneQ.
  { intros E. apply Hne. apply Qc_is_canon. exact E. }
  pose proof (Qmult_inv_r (this T) HneQ) as Hinv.
  unfold Qcdiv, Qcmult, Qcinv, Qclt, Q2Qc, this.
  rewrite !Qred_correct.
  change (Qred (60 # 1) * / T * / Qred (4 # 1) < 0)%Q.
  rewrite !Qred_correct.
  assert (this T < 0)%Q as HTq by exact HT.
  set (i := (/ this T)%Q) in *. clearbody i.
  assert (i < 0)%Q by nra.
  assert (/ (4 # 1) == 1 # 4)%Q as -> by reflexivity. lra.
Qed.

Lemma stepDurationSec_infinite st :
  tempo st = Infinity \/ tempo st = NegInfinity ->
  exists dq : Qc, stepDurationSec st = Fin dq /\ (dq <= 0)%Qc.
Proof.
  unfold stepDurationSec. intros [-> | ->];
    (eexists; split; [reflexivity|]; vm_compute; discriminate).
Qed.

(** With a step duration that is not positive the window never closes. *)
Lemma drain_never_returns (dq now : Qc) c (fuel : nat) :
  (dq <= 0)%Qc -> currentTime c = Fin now ->
  forall s (t : Qc),
    ctx s = Some c -> nextNoteTime s = Fin t -> (t < now + qc 1 10)%Qc ->
    drain fuel (Fin dq) s = None.
Proof.
  intros Hdq Hnow. induction fuel as [|fuel IH]; intros s t Hc Ht Hlt; simpl;
    rewrite (window_open_Q s c now t Hc Hnow Ht),
      (bool_decide_eq_true_2 _ Hlt); [reflexivity|].
  destruct (advance_frame (Fin dq) s) as (Hc' & _).
  destruct (advance_cursor (Fin dq) s) as (_ & Ht' & _).
  apply (IH (advance (Fin dq) s) (t + dq)%Qc).
  - rewrite Hc'. exact Hc.
  - rewrite Ht', Ht. reflexivity.
  - to_Q. lra.
Qed.

(** X4. With a negative tempo (typed into the tempo field) or an infinite
    one, a run of the scheduler that finds the window open never returns:
    the step duration is negative or zero, so [nextNoteTime] never leaves
    the window. *)
Theorem nonpositive_step_never_returns (s : AudioService) (c : AudioContext)
    (now t : Qc) :
  ctx s = Some c -> currentTime c = Fin now -> nextNoteTime s = Fin t ->
  (t < now + qc 1 10)%Qc ->
  (exists T : Qc, tempo (state s) = Fin T /\ (T < 0)%Qc)
  \/ tempo (state s) = Infinity \/ tempo (state s) = NegInfinity ->
  forall fuel, scheduler fuel s = None.
Proof.
  intros Hc Hnow Ht Hlt Htempo fuel.
  assert (exists dq : Qc,
            stepDurationSec (state s) = Fin dq /\ (dq <= 0)%Qc)
    as (dq & Hd & Hdq).
  { destruct Htempo as [(T & HT & Hneg) | Hinf].
    - destruct (stepDurationSec_negative _ T Hneg HT) as (dq & H1 & H2).
      exists dq. split; [exact H1|]. apply Qclt_le_weak. exact H2.
    - apply stepDurationSec_infinite. exact Hinf. }
  unfold scheduler. rewrite Hc, Hd.
  rewrite (drain_never_returns dq now c fuel Hdq Hnow s t Hc Ht Hlt).
  reflexivity.
Qed.

Lemma nonpositive_step_never_returns_witness :
  scheduler 50 (serviceWith (sceneAt (num (-5)))) = None.
Proof.
  refine (nonpositive_step_never_returns
            (serviceWith (sceneAt (num (-5)))) _ (qc 0 1) (qc 0 1)
            eq_refl eq_refl eq_refl _ _ 50%nat).
  - reflexivity.
  - left. exists (qc (-5) 1). split; reflexivity.
Defined.

(** ** Shape of the transitions *)

Lemma omap_length_le {A B} (f : A -> option B) (l : list A) :
  (length (omap f l) <= length l)%nat.
Proof.
  induction l as [|x l IH]; [simpl; lia|].
  change (omap f (x :: l))
    with (match f x with Some y => y :: omap f l | None => omap f l end).
  destruct (f x); simpl; lia.
Qed.

Lemma scheduleNote_voices i t s :
  exists new : list OscillatorNode,
    oscillators (scheduleNote i t s) = oscillators s ++ new
    /\ activeOscillators (scheduleNote i t s)
       = activeOscillators s ++ seq (length (oscillators s)) (length new)
    /\ (length new <= length (harmonicLayers (state s)))%nat.
Proof.
  destruct (ctx s) as [c|] eqn:Hc.
  - rewrite (scheduleNote_spec s c i t Hc). simpl.
    eexists. split; [reflexivity|]. split; [reflexivity|].
    apply omap_length_le.
  - rewrite (scheduleNote_no_ctx i t s Hc). exists []. simpl.
    rewrite !app_nil_r. split; [reflexivity|]. split; [reflexivity | lia].
Qed.

Lemma iter_advance_voices d s n :
  exists new : list OscillatorNode,
    oscillators (Nat.iter n (advance d) s) = oscillators s ++ new
    /\ activeOscillators (Nat.iter n (advance d) s)
       = activeOscillators s ++ seq (length (oscillators s)) (length new).
Proof.
  induction n as [|n (new & IH1 & IH2)].
  - exists []. simpl. rewrite !app_nil_r. auto.
  - simpl Nat.iter. set (x := Nat.iter n (advance d) s) in *.
    destruct (advance_frame d x)
      as (_ & _ & _ & _ & _ & _ & _ & _ & _ & Fo & Fa).
    destruct (scheduleNote_voices (currentStep x) (nextNoteTime x) x)
      as (new' & H1 & H2 & _).
    exists (new ++ new'). rewrite Fo, Fa, H1, H2, IH1, IH2.
    rewrite <- !app_assoc, !length_app, seq_app. auto.
Qed.

Lemma scheduler_frame fuel s s' :
  scheduler fuel s = Some s' ->
  ctx s' = ctx s /\ state s' = state s /\ isPlaying s' = isPlaying s
  /\ stepCallback s' = stepCallback s /\ stopped s' = stopped s
  /\ callbackLog s' = callbackLog s.
Proof.
  intros Hs. destruct (ctx s) as [c|] eqn:Hc.
  - destruct (scheduler_iter fuel s s' c Hc Hs) as (n & _ & _ & ->).
    destruct (iter_advance_frame (stepDurationSec (state s)) s n)
      as (F1 & F2 & F3 & _ & F5 & F6 & F7).
    destruct (isPlaying s); simpl; rewrite ?F1, ?F2, ?F3, ?F5, ?F6, ?F7, ?Hc;
      repeat split; congruence.
  - unfold scheduler in Hs. rewrite Hc in Hs. injection Hs as <-.
    rewrite Hc. repeat split; reflexivity.
Qed.

Lemma scheduler_voices fuel s s' :
  scheduler fuel s = Some s' ->
  exists new : list OscillatorNode,
    oscillators s' = oscillators s ++ new
    /\ activeOscillators s'
       = activeOscillators s ++ seq (length (oscillators s)) (length new).
Proof.
  intros Hs. destruct (ctx s) as [c|] eqn:Hc.
  - destruct (scheduler_iter fuel s s' c Hc Hs) as (n & _ & _ & ->).
    destruct (iter_advance_voices (stepDurationSec (state s)) s n)
      as (new & H1 & H2).
    exists new. destruct (isPlaying s); simpl; auto.
  - unfold scheduler in Hs. rewrite Hc in Hs. injection Hs as <-.
    exists []. simpl. rewrite !app_nil_r. auto.
Qed.

Lemma start_prepared fresh onStep fuel s s' :
  isPlaying s = false -> start fresh onStep fuel s = Some s' ->
  exists s2 c,
    scheduler fuel s2 = Some s'
    /\ ctx s2 = Some c
    /\ ctxState c = running
    /\ currentTime c
       = currentTime (match ctx s with Some c0 => c0 | None => fresh end)
    /\ isPlaying s2 = true
    /\ stepCallback s2 = onStep
    /\ currentStep s2 = 0%nat
    /\ nextNoteTime s2 = currentTime c + Fin (qc 5 100)
    /\ state s2 = state s
    /\ timers s2 = timers s /\ nextTimerId s2 = nextTimerId s
    /\ timerID s2 = timerID s
    /\ oscillators s2 = oscillators s
    /\ activeOscillators s2 = activeOscillators s
    /\ stopped s2 = stopped s
    /\ noteCalls s2 = noteCalls s
    /\ callbackLog s2 = callbackLog s
    /\ (forall c0, ctx s = Some c0 ->
          masterGainValue c = masterGainValue c0
          /\ masterGainTarget c = masterGainTarget c0)
    /\ (ctx s = None ->
          masterGainValue c = masterGain (state s)
          /\ masterGainTarget c
             = Some (masterGain (state s), currentTime fresh)).
Proof.
  intros Hp. rewrite start_eq. cbv zeta.
  destruct (ctx s) as [c0|] eqn:Hc.
  - rewrite Hp. unfold is_suspended, resume. rewrite Hc.
    destruct (ctxState c0) eqn:Hst; simpl; rewrite ?Hc; intros Hs;
      eexists; eexists; (split; [exact Hs|]); simpl;
      repeat split; try reflexivity; try congruence;
      try (match goal with
           | H : Some _ = Some _ |- _ => injection H as <-; reflexivity
           end).
  - unfold initialize. rewrite Hc. simpl. rewrite Hp.
    unfold is_suspended, resume. simpl.
    destruct (ctxState fresh) eqn:Hst; simpl; intros Hs;
      eexists; eexists; (split; [exact Hs|]); simpl;
      repeat split; try reflexivity; try congruence; try discriminate.
Qed.

Lemma fire_voices e s s' : fire e s = Some s' -> voices_step e s s'.
Proof.
  unfold voices_step. destruct e; simpl.
  - rewrite start_eq. cbv zeta.
    set (s0 := match ctx s with None => initialize fresh s | Some _ => s end).
    assert (oscillators s0 = oscillators s
            /\ activeOscillators s0 = activeOscillators s
            /\ stopped s0 = stopped s) as (E1 & E2 & E3).
    { subst s0. destruct (ctx s) eqn:Hc; [auto|].
      unfold initialize. rewrite Hc. auto. }
    clearbody s0. destruct (isPlaying s0).
    { intros [= <-]. exists []. simpl. rewrite !app_nil_r. auto. }
    set (s1 := if is_suspended s0 then resume s0 else s0).
    assert (oscillators s1 = oscillators s
            /\ activeOscillators s1 = activeOscillators s
            /\ stopped s1 = stopped s) as (G1 & G2 & G3).
    { subst s1. destruct (is_suspended s0); [|auto].
      unfold resume. destruct (ctx s0); auto. }
    clearbody s1. destruct (ctx s1) as [c|]; [|discriminate].
    intros Hs. destruct (scheduler_voices _ _ _ Hs) as (new & H1 & H2).
    destruct (scheduler_frame _ _ _ Hs) as (_ & _ & _ & _ & H3 & _).
    simpl in H1, H2, H3. exists new. rewrite H1, H2, H3, G1, G2, G3. auto.
  - intros [= <-]. exists []. unfold stop. rewrite stopAllVoices_spec.
    rewrite app_nil_r. destruct (timerID_truthy _); simpl; auto.
  - intros [= <-]. exists []. unfold setState, applyGlobalSettings. simpl.
    rewrite !app_nil_r. destruct (ctx s); simpl; auto.
  - unfold fireTimer. destruct (find_timer i s) as [tm|]; [|discriminate].
    destruct (task tm) as [n|].
    + intros [= <-]. exists []. unfold runStepTask, clearTimeout. simpl.
      rewrite !app_nil_r. destruct (stepCallback s); simpl; auto.
    + intros Hs. destruct (scheduler_voices _ _ _ Hs) as (new & H1 & H2).
      destruct (scheduler_frame _ _ _ Hs) as (_ & _ & _ & _ & H3 & _).
      exists new. auto.
  - intros [= <-]. exists []. simpl. rewrite app_nil_r. auto.
  - intros [= <-]. exists []. unfold tick_clock. rewrite !app_nil_r.
    destruct (ctx s); simpl; auto.
Qed.

(** ** Voices are created once and stopped at most once *)

Lemma playing_then_setState_runs :
  is_Some (run [ESetState (sceneAt (num 90)); EClock (num 1); ETimer 2 8]
             playing).
Proof.
  destruct (run _ playing) eqn:E; [eexists; reflexivity|].
  vm_compute in E. discriminate E.
Qed.

Lemma LiveInv_new : LiveInv newAudioService.
Proof.
  split; simpl; try constructor. intros o Ho. inversion Ho.
Qed.

Lemma LiveInv_fire e s s' : LiveInv s -> fire e s = Some s' -> LiveInv s'.
Proof.
  intros [L1 L2 L3 L4 L5] Hf.
  destruct (fire_voices e s s' Hf) as (new & Ho & Hrest).
  assert (forall l, Forall (fun o => (o < length (oscillators s))%nat) l ->
            Forall (fun o => (o < length (oscillators s'))%nat) l) as Hmono.
  { intros l Hl. eapply Forall_impl; [exact Hl|].
    simpl. intros o Hlt. rewrite Ho, length_app. lia. }
  assert (activeOscillators s'
            = activeOscillators s ++ seq (length (oscillators s)) (length new)
          /\ stopped s' = stopped s -> LiveInv s') as Happend.
  { intros [Ha Hst]. split; rewrite ?Ha, ?Hst.
    - apply NoDup_app. split; [exact L1|]. split; [|apply NoDup_seq].
      intros o Hin Hseq. apply elem_of_seq in Hseq.
      rewrite Forall_forall in L2. specialize (L2 o Hin). lia.
    - apply Forall_app. split; [apply Hmono; exact L2|].
      apply Forall_forall. intros o Hseq. apply elem_of_seq in Hseq.
      rewrite Ho, length_app. lia.
    - exact L3.
    - apply Hmono. exact L4.
    - intros o Hin Hs. apply elem_of_app in Hin as [Hin | Hseq].
      + exact (L5 o Hin Hs).
      + apply elem_of_seq in Hseq.
        rewrite Forall_forall in L4. specialize (L4 o Hs). lia. }
  destruct e; try (apply Happend; exact Hrest).
  - destruct Hrest as (_ & Ha & Hst). split; rewrite ?Ha, ?Hst.
    + constructor.
    + constructor.
    + apply NoDup_app. split; [exact L3|]. split; [|exact L1].
      intros o Hs Hin. exact (L5 o Hin Hs).
    + apply Forall_app. split; apply Hmono; assumption.
    + intros o Hin. inversion Hin.
  - destruct Hrest as (_ & Ha & Hst). split; rewrite ?Ha, ?Hst.
    + apply NoDup_filter. exact L1.
    + apply Hmono. rewrite Forall_forall in *. intros o Hin.
      apply list_elem_of_filter in Hin as [_ Hin]. auto.
    + exact L3.
    + apply Hmono. exact L4.
    + intros o Hin. apply list_elem_of_filter in Hin as [_ Hin]. auto.
Qed.

(** X6. In every reachable state the live set has no duplicates and
    contains only oscillators that have been created; the oscillators
    that were stopped by force have each been stopped once; and no
    oscillator is both live and stopped by force. *)
Theorem live_set_integrity (s : AudioService) :
  reachable s ->
  NoDup (activeOscillators s)
  /\ Forall (fun o => (o < length (oscillators s))%nat) (activeOscillators s)
  /\ NoDup (stopped s)
  /\ Forall (fun o => (o < length (oscillators s))%nat) (stopped s)
  /\ (forall o, o ∈ activeOscillators s -> o ∉ stopped s).
Proof.
  intros Hr.
  assert (LiveInv s) as [L1 L2 L3 L4 L5].
  { induction Hr as [|e s s' _ IH Hf]; [apply LiveInv_new|].
    eapply LiveInv_fire; eauto. }
  auto.
Qed.

Lemma live_set_integrity_witness :
  NoDup (activeOscillators playing) /\ NoDup (stopped (stop playing)).
Proof.
  split.
  - exact (proj1 (live_set_integrity playing reachable_playing)).
  - refine (proj1 (proj2 (proj2 (live_set_integrity (stop playing) _)))).
    exact (reachable_fire EStop playing (stop playing) reachable_playing
             eq_refl).
Defined.

(** ** The scene and the audio context *)

Lemma start_running fresh onStep fuel s s' :
  isPlaying s = true -> start fresh onStep fuel s = Some s' ->
  s' = match ctx s with None => initialize fresh s | Some _ => s end.
Proof.
  intros Hp. rewrite start_eq. cbv zeta.
  assert (isPlaying (match ctx s with
                     | None => initialize fresh s
                     | Some _ => s
                     end) = true) as ->.
  { destruct (ctx s) eqn:Hc; [exact Hp|].
    unfold initialize. rewrite Hc. exact Hp. }
  intros [= <-]. reflexivity.
Qed.

Lemma fire_scene e s s' : fire e s = Some s' -> scene_step e s s'.
Proof.
  unfold scene_step. destruct e; simpl.
  - intros Hs. destruct (isPlaying s) eqn:Hp.
    + rewrite (start_running _ _ _ _ _ Hp Hs).
      destruct (ctx s) as [c|] eqn:Hc.
      * rewrite Hc. split; [reflexivity|]. exists c. auto.
      * unfold initialize. rewrite Hc. simpl. split; [reflexivity|].
        eexists. split; [reflexivity|]. simpl. auto.
    + destruct (start_prepared _ _ _ _ _ Hp Hs)
        as (s2 & c & Hsch & Hc2 & _ & Htime & _ & _ & _ & _ & Hst & _
            & _ & _ & _ & _ & _ & _ & _ & Hsome & Hnone).
      destruct (scheduler_frame _ _ _ Hsch) as (Fc & Fs & _).
      rewrite Fs, Hst. split; [reflexivity|].
      destruct (ctx s) as [c0|] eqn:Hc.
      * destruct (Hsome c0 eq_refl) as [G1 G2].
        exists c. rewrite Fc. auto.
      * destruct (Hnone eq_refl) as [G1 G2].
        exists c. rewrite Fc. auto.
  - intros [= <-]. unfold stop. rewrite stopAllVoices_spec.
    destruct (timerID_truthy _); simpl; (split; [reflexivity|]);
      destruct (ctx s) as [c|]; eauto.
  - intros [= <-]. unfold setState, applyGlobalSettings. simpl.
    destruct (ctx s) as [c|] eqn:Hc; simpl; rewrite ?Hc;
      (split; [reflexivity|]); [|reflexivity].
    eexists. split; [reflexivity|]. simpl. auto.
  - unfold fireTimer. destruct (find_timer i s) as [tm|]; [|discriminate].
    destruct (task tm) as [n|].
    + intros [= <-]. unfold runStepTask, clearTimeout. simpl.
      destruct (stepCallback s) as [cb|]; simpl; (split; [reflexivity|]);
        destruct (ctx s) as [c|]; eauto.
    + intros Hs. destruct (scheduler_frame _ _ _ Hs) as (Fc & Fs & _).
      simpl in Fc, Fs. rewrite Fs, Fc. split; [reflexivity|].
      destruct (ctx s) as [c|]; eauto.
  - intros [= <-]. simpl. split; [reflexivity|].
    destruct (ctx s) as [c|]; eauto.
  - intros [= <-]. unfold tick_clock.
    destruct (ctx s) as [c|] eqn:Hc; simpl; rewrite ?Hc;
      (split; [reflexivity|]); [|reflexivity].
    eexists. split; [reflexivity|]. simpl. auto.
Qed.

(** X7. The scene held by the service changes only through [setState]:
    after any list of events [getState] returns the argument of the last
    [setState] among them, or the scene it held before if there is none.
    Playback, timers and [stop] never write to it. *)
Theorem scene_set_only_by_setState (es : list event) (s s' : AudioService) :
  run es s = Some s' -> getState s' = last_scene es (getState s).
Proof.
  unfold getState, last_scene. revert s.
  induction es as [|e es IH]; intros s; simpl.
  - intros [= <-]. reflexivity.
  - destruct (fire e s) as [s1|] eqn:Hf; [|discriminate].
    intros Hrun. rewrite (IH s1 Hrun).
    destruct (fire_scene e s s1 Hf) as [-> _]. reflexivity.
Qed.

Lemma scene_set_only_by_setState_witness :
  exists s',
    run [ESetState (sceneAt (num 90)); EClock (num 1); ETimer 2 8] playing
      = Some s'
    /\ getState s' = sceneAt (num 90).
Proof.
  destruct playing_then_setState_runs as [s' Hs'].
  exists s'. split; [exact Hs'|].
  exact (scene_set_only_by_setState _ playing s' Hs').
Defined.

(** X8. Whenever the audio context exists, the target last requested for
    the master gain is the [masterGain] of the scene the service holds:
    [initialize] requests it for the scene held then, and every
    [setState] requests it again. *)
Theorem master_gain_follows_scene (s : AudioService) (c : AudioContext) :
  reachable s -> ctx s = Some c ->
  exists t : number, masterGainTarget c = Some (masterGain (state s), t).
Proof.
  intros Hr. revert c.
  induction Hr as [|e s s' _ IH Hf]; intros c' Hc'; [discriminate Hc'|].
  destruct (fire_scene e s s' Hf) as [Hst Hctx].
  destruct (ctx s) as [c|] eqn:Hc.
  - destruct Hctx as (c1 & Hc1 & _ & Htarget & _).
    rewrite Hc' in Hc1. injection Hc1 as <-.
    destruct (IH c eq_refl) as [t Ht].
    rewrite Hst, Htarget. destruct e; eauto.
  - destruct e; try congruence.
    destruct Hctx as (c1 & Hc1 & _ & Htarget & _).
    rewrite Hc' in Hc1. injection Hc1 as <-.
    rewrite Hst, Htarget. eauto.
Qed.

Lemma later_ctx : is_Some (ctx later).
Proof.
  destruct (ctx later) eqn:E; [eexists; reflexivity|].
  vm_compute in E. discriminate E.
Qed.

Lemma master_gain_follows_scene_witness :
  exists c t,
    ctx later = Some c
    /\ masterGainTarget c = Some (masterGain (state later), t).
Proof.
  destruct later_ctx as [c Hc].
  destruct (master_gain_follows_scene later c reachable_later Hc) as [t Ht].
  exists c, t. split; [exact Hc | exact Ht].
Defined.

(** X9. The audio context is made once: an event list without [start]
    never creates one, and once there is one every later event keeps it,
    with the gain value it was created with. *)
Theorem context_created_once (es : list event) (s s' : AudioService) :
  run es s = Some s' ->
  (forall c, ctx s = Some c ->
     exists c', ctx s' = Some c' /\ masterGainValue c' = masterGainValue c)
  /\ (ctx s = None -> forallb not_start es = true -> ctx s' = None).
Proof.
  revert s. induction es as [|e es IH]; intros s; simpl.
  - intros [= <-]. split; [eauto | auto].
  - destruct (fire e s) as [s1|] eqn:Hf; [|discriminate].
    intros Hrun. destruct (IH s1 Hrun) as [I1 I2].
    destruct (fire_scene e s s1 Hf) as [_ Hctx]. split.
    + intros c Hc. rewrite Hc in Hctx.
      destruct Hctx as (c1 & Hc1 & Hv & _).
      destruct (I1 c1 Hc1) as (c2 & Hc2 & Hv2). exists c2.
      split; [exact Hc2 | congruence].
    + intros Hc Hq. apply andb_true_iff in Hq as [Hq1 Hq2].
      rewrite Hc in Hctx. apply I2; [|exact Hq2].
      destruct e; try exact Hctx. discriminate Hq1.
Qed.

Lemma context_created_once_witness :
  exists s',
    run [ESetState (sceneAt (num 90)); EStop] newAudioService = Some s'
    /\ ctx s' = None.
Proof.
  exists (stop (setState (sceneAt (num 90)) newAudioService)).
  assert (run [ESetState (sceneAt (num 90)); EStop] newAudioService
          = Some (stop (setState (sceneAt (num 90)) newAudioService)))
    as Hrun by reflexivity.
  split; [exact Hrun|].
  exact (proj2 (context_created_once _ _ _ Hrun) eq_refl eq_refl).
Defined.

(** ** One scheduling loop *)

Lemma filter_comm {A} (P Q : A -> Prop) `{!forall x, Decision (P x)}
    `{!forall x, Decision (Q x)} (l : list A) :
  filter P (filter Q l) = filter Q (filter P l).
Proof.
  induction l as [|x l IH]; [reflexivity|].
  rewrite !filter_cons.
  destruct (decide (Q x)), (decide (P x));
    rewrite ?filter_cons_True, ?filter_cons_False by assumption;
    rewrite IH; reflexivity.
Qed.

Lemma tick_timers_clear i s :
  tick_timers (clearTimeout i s)
  = filter (fun tm => timerId tm ≠ i) (tick_timers s).
Proof. unfold tick_timers, clearTimeout. simpl. apply filter_comm. Qed.

Lemma tick_timers_rearm s :
  tick_timers (rearm s)
  = tick_timers s
    ++ [{| timerId := nextTimerId s; delay := lookahead; task := TickTask |}]
  /\ timerID (rearm s) = Some (nextTimerId s).
Proof.
  unfold tick_timers, rearm, setTimeout. simpl. rewrite filter_app.
  split; reflexivity.
Qed.

Lemma scheduler_armed fuel s s' c :
  ctx s = Some c -> isPlaying s = true -> tick_timers s = [] ->
  scheduler fuel s = Some s' -> armed s'.
Proof.
  intros Hc Hp Hno Hs.
  destruct (scheduler_iter fuel s s' c Hc Hs) as (n & _ & _ & ->).
  rewrite Hp. set (x := Nat.iter n _ s).
  destruct (tick_timers_rearm x) as [Ht Hid].
  exists (nextTimerId x). split; [exact Hid|].
  rewrite Ht. subst x. rewrite iter_advance_ticks, Hno. reflexivity.
Qed.

Lemma armed_fire e s s' :
  Inv s -> (isPlaying s = true -> armed s) ->
  fire e s = Some s' -> isPlaying s' = true -> armed s'.
Proof.
  intros HI IH Hf Hp'. destruct e; simpl in Hf.
  - destruct (isPlaying s) eqn:Hp.
    + rewrite (start_running _ _ _ _ _ Hp Hf) in *.
      destruct (inv_ctx s HI Hp) as [c Hc]. rewrite Hc. auto.
    + destruct (start_prepared _ _ _ _ _ Hp Hf)
        as (s2 & c & Hsch & Hc2 & _ & _ & Hp2 & _ & _ & _ & _ & Ht & _).
      apply (scheduler_armed fuel s2 s' c Hc2 Hp2); [|exact Hsch].
      unfold tick_timers. rewrite Ht.
      exact (Inv_no_tick_when_stopped s HI Hp).
  - injection Hf as <-. exfalso. revert Hp'. unfold stop.
    rewrite stopAllVoices_spec. destruct (timerID_truthy _); discriminate.
  - injection Hf as <-.
    assert (isPlaying s = true) as Hp.
    { revert Hp'. unfold setState, applyGlobalSettings. simpl.
      destruct (ctx s); auto. }
    destruct (IH Hp) as (i & Hid & Ht). exists i.
    unfold tick_timers, setState, applyGlobalSettings in *. simpl.
    destruct (ctx s); simpl; auto.
  - unfold fireTimer in Hf.
    destruct (find_timer i s) as [tm|] eqn:Hfind; [|discriminate].
    apply find_timer_Some in Hfind as [Hin Hi].
    destruct (task tm) as [n|] eqn:Htask.
    + injection Hf as <-.
      assert (isPlaying s = true) as Hp.
      { revert Hp'. unfold runStepTask, clearTimeout. simpl.
        destruct (stepCallback s); auto. }
      destruct (IH Hp) as (k & Hid & Ht).
      assert (k <> i) as Hne.
      { intros ->. rewrite <- Hi in Hid.
        pose proof (inv_owner s HI tm Hin Hid) as Howner. congruence. }
      exists k.
      assert (timerID (runStepTask n (clearTimeout i s)) = timerID s
              /\ tick_timers (runStepTask n (clearTimeout i s))
                 = tick_timers (clearTimeout i s)) as [-> ->].
      { unfold runStepTask, tick_timers. simpl.
        destruct (stepCallback s); auto. }
      split; [exact Hid|]. rewrite tick_timers_clear, Ht.
      rewrite filter_cons_True by (simpl; exact Hne). reflexivity.
    + destruct (inv_tick s HI tm Hin Htask) as [Hp HtID].
      destruct (inv_ctx s HI Hp) as [c Hc].
      apply (scheduler_armed fuel (clearTimeout i s) s' c); auto.
      apply no_tick_iff. simpl. intros tm' Hin' Htick'.
      apply list_elem_of_filter in Hin' as [Hne Hin'].
      destruct (inv_tick s HI tm' Hin' Htick') as [_ HtID'].
      rewrite HtID in HtID'. injection HtID' as E. congruence.
  - injection Hf as <-. destruct (IH Hp') as (i & Hid & Ht).
    exists i. auto.
  - injection Hf as <-.
    assert (isPlaying s = true) as Hp.
    { revert Hp'. unfold tick_clock. destruct (ctx s); auto. }
    destruct (IH Hp) as (i & Hid & Ht). exists i.
    unfold tick_timers, tick_clock in *. destruct (ctx s); simpl; auto.
Qed.

(** X10. As long as every call of [start] has been awaited before the
    next event (no two calls overlap): while the service is playing
    exactly one re-arm timer of the scheduler is pending, the one
    [timerID] names, with the look-ahead period as delay; while it is
    stopped none is pending. *)
Theorem one_scheduling_loop (s : AudioService) :
  reachable s ->
  (isPlaying s = true ->
   exists i : nat,
     timerID s = Some i
     /\ tick_timers s
        = [{| timerId := i; delay := lookahead; task := TickTask |}])
  /\ (isPlaying s = false -> tick_timers s = []).
Proof.
  intros Hr. split.
  - induction Hr as [|e s s' Hr IH Hf]; [discriminate|].
    intros Hp'. exact (armed_fire e s s' (reachable_Inv s Hr) IH Hf Hp').
  - apply Inv_no_tick_when_stopped, reachable_Inv, Hr.
Qed.

Lemma one_scheduling_loop_witness :
  (exists i : nat,
     timerID playing = Some i
     /\ tick_timers playing
        = [{| timerId := i; delay := lookahead; task := TickTask |}])
  /\ tick_timers newAudioService = [].
Proof.
  split.
  - exact (proj1 (one_scheduling_loop playing reachable_playing)
             playing_isPlaying).
  - exact (proj2 (one_scheduling_loop newAudioService reachable_new) eq_refl).
Defined.

(** ** Starting *)

Lemma cycle_calls_head c t d n :
  (c < NUM_STEPS)%nat ->
  cycle_calls c t d (S n)
  = (c, t) :: map (fun k => (((c + k) mod NUM_STEPS)%nat, after_steps t d k))
                (seq 1 n).
Proof.
  intros Hc. unfold cycle_calls. cbn [seq map].
  rewrite Nat.add_0_r, Nat.mod_small by exact Hc. reflexivity.
Qed.

(** X11. [start] on a stopped service sets it playing with the callback
    it was given, on the context it already had (or the one just made),
    resumed; it leaves the scene alone, and when the audio clock is finite
    the first thing it schedules is step 0, 50 ms after the clock. *)
Theorem start_from_stopped (s s' : AudioService) (fresh : AudioContext)
    (onStep : option Callback) (fuel : nat) :
  reachable s -> isPlaying s = false ->
  start fresh onStep fuel s = Some s' ->
  isPlaying s' = true
  /\ stepCallback s' = onStep
  /\ state s' = state s
  /\ exists c : AudioContext,
       ctx s' = Some c
       /\ ctxState c = running
       /\ currentTime c
          = currentTime (match ctx s with Some c0 => c0 | None => fresh end)
       /\ forall now : Qc,
            currentTime c = Fin now ->
            exists rest,
              noteCalls s'
              = noteCalls s ++ (0%nat, Fin (now + qc 5 100)) :: rest.
Proof.
  intros Hr Hp Hs.
  destruct (start_prepared _ _ _ _ _ Hp Hs)
    as (s2 & c & Hsch & Hc2 & Hrun & Htime & Hp2 & Hcb & Hcur & Hnext & Hst
        & _ & _ & _ & _ & _ & _ & Hcalls & _).
  destruct (scheduler_frame _ _ _ Hsch) as (Fc & Fs & Fp & Fcb & _).
  split; [congruence|]. split; [congruence|]. split; [congruence|].
  exists c. split; [congruence|]. split; [exact Hrun|].
  split; [exact Htime|].
  intros now Hnow.
  destruct (scheduler_iter fuel s2 s' c Hc2 Hsch) as (n & _ & Hclosed & ->).
  set (d := stepDurationSec (state s2)) in *.
  assert (currentStep s2 < NUM_STEPS)%nat as Hlt
    by (rewrite Hcur; unfold NUM_STEPS; lia).
  destruct (iter_advance d s2 n Hlt) as (H1 & _).
  assert (noteCalls (if isPlaying s2 then rearm (Nat.iter n (advance d) s2)
                     else Nat.iter n (advance d) s2)
          = noteCalls (Nat.iter n (advance d) s2)) as ->
    by (destruct (isPlaying s2); reflexivity).
  rewrite H1, Hcalls, Hcur, Hnext, Hnow.
  destruct n as [|n].
  - exfalso. simpl in Hclosed. unfold window_open in Hclosed.
    rewrite Hc2, Hnext, Hnow in Hclosed. simpl in Hclosed.
    apply bool_decide_eq_false_1 in Hclosed. apply Hclosed. to_Q. lra.
  - rewrite cycle_calls_head by (unfold NUM_STEPS; lia).
    eexists. reflexivity.
Qed.

Lemma start_from_stopped_witness :
  isPlaying playing = true
  /\ stepCallback playing = Some 7%nat
  /\ state playing = state newAudioService.
Proof.
  assert (start freshContext (Some 7%nat) 4 newAudioService = Some playing)
    as Hs.
  { unfold playing.
    destruct (start freshContext (Some 7%nat) 4 newAudioService) eqn:E;
      [reflexivity | vm_compute in E; discriminate E]. }
  destruct (start_from_stopped newAudioService playing freshContext
              (Some 7%nat) 4 reachable_new eq_refl Hs) as (H1 & H2 & H3 & _).
  split; [exact H1|]. split; [exact H2 | exact H3].
Defined.

(** ** Callbacks that outlive [stop] *)

Lemma find_timer_elem s tm :
  NoDup (timerId <$> timers s) -> tm ∈ timers s ->
  find_timer (timerId tm) s = Some tm.
Proof.
  unfold find_timer. generalize (timers s). intros l Hnd Hin.
  induction l as [|x l IH]; [inversion Hin|].
  rewrite fmap_cons in Hnd. apply NoDup_cons in Hnd as [Hnot Hnd].
  simpl. destruct (decide (timerId x = timerId tm)) as [E|E].
  - simpl. apply elem_of_cons in Hin as [-> | Hin]; [reflexivity|].
    exfalso. apply Hnot. rewrite E. apply list_elem_of_fmap. eauto.
  - apply elem_of_cons in Hin as [-> | Hin]; [congruence|].
    specialize (IH Hnd Hin).
    destruct (list_find _ l) as [[k y]|]; simpl in *; [exact IH | discriminate].
Qed.

(** X12. [stop] cancels the re-arm timer only: a step notification that
    was queued before [stop] is still pending afterwards and, when it
    comes due, still calls the step callback with its index, although the
    service is stopped. *)
Theorem stop_keeps_step_callbacks (s : AudioService) (tm : Timer)
    (n : nat) (cb : Callback) (fuel : nat) :
  reachable s -> tm ∈ timers s -> task tm = StepTask n ->
  stepCallback s = Some cb ->
  tm ∈ timers (stop s)
  /\ exists s2,
       fireTimer (timerId tm) fuel (stop s) = Some s2
       /\ callbackLog s2 = callbackLog s ++ [(cb, n)]
       /\ isPlaying s2 = false.
Proof.
  intros Hr Hin Htask Hcb. pose proof (reachable_Inv s Hr) as HI.
  pose proof (Inv_stop s HI) as HI'.
  assert (tm ∈ timers (stop s)
          /\ stepCallback (stop s) = Some cb
          /\ callbackLog (stop s) = callbackLog s
          /\ isPlaying (stop s) = false) as (Hin' & Hcb' & Hlog & Hp).
  { unfold stop. rewrite stopAllVoices_spec. simpl.
    destruct (timerID s) as [i|] eqn:Hid; simpl;
      [destruct (Nat.eqb_spec i 0)|]; simpl; repeat split; auto.
    apply list_elem_of_filter. split; [|exact Hin].
    intros E. rewrite <- E in Hid.
    pose proof (inv_owner s HI tm Hin Hid). congruence. }
  split; [exact Hin'|].
  unfold fireTimer.
  rewrite (find_timer_elem (stop s) tm (inv_nodup _ HI') Hin'), Htask.
  eexists. split; [reflexivity|].
  remember (stop s) as st. clear Heqst.
  unfold runStepTask, clearTimeout. simpl. rewrite Hcb'. simpl.
  rewrite Hlog. split; [reflexivity | exact Hp].
Qed.

Lemma playing_step_timer :
  {| timerId := 1; delay := num 50; task := StepTask 0 |} ∈ timers playing.
Proof.
  assert (timers playing !! 0%nat
          = Some {| timerId := 1; delay := num 50; task := StepTask 0 |}) as H
    by num_eq.
  eapply list_elem_of_lookup_2. exact H.
Qed.

Lemma stop_keeps_step_callbacks_witness :
  exists s2,
    fireTimer 1 0 (stop playing) = Some s2
    /\ callbackLog s2 = callbackLog playing ++ [(7%nat, 0%nat)]
    /\ isPlaying s2 = false.
Proof.
  assert (stepCallback playing = Some 7%nat) as Hcb
    by (vm_compute; reflexivity).
  exact (proj2 (stop_keeps_step_callbacks playing _ 0 7 0 reachable_playing
                  playing_step_timer eq_refl Hcb)).
Defined.

(** ** The envelope of a voice *)

(** X13. A voice created for a layer at a finite step time [t], when the
    step duration [d] is a finite number that is not negative: it starts
    at [t] plus the layer's offset, its gain peaks [attack] (10 ms) after
    the start and reaches the floor [0.8 d] later, and the oscillator is
    stopped 100 ms after that; its frequency is the step's base frequency
    times the layer's ratio and its waveform the layer's.  When the step
    has an entry of its own for the layer, or the layer id names no member
    of [Object.prototype], these times are in order: step time, start,
    peak, floor, stop. *)
Theorem voice_envelope (st : OrpheusState) (t dq : Qc) (i : nat)
    (layer : HarmonicLayer) (v : OscillatorNode) :
  stepDurationSec st = Fin dq -> (0 <= dq)%Qc ->
  voiceFor st i (Fin t) layer = Some v ->
  exists step : StepSettings,
    steps st !! i = Some step
    /\ startTime v = Fin t + offsetSec step layer (Fin dq)
    /\ envelopeStart v = startTime v
    /\ peakTime v = startTime v + attack
    /\ floorTime v = startTime v + attack + Fin dq * Fin (qc 8 10)
    /\ stopTime v
       = startTime v + attack + Fin dq * Fin (qc 8 10) + Fin (qc 1 10)
    /\ frequency v = baseFrequency step * ratio layer
    /\ oscType v = waveform layer
    /\ (is_Some (phaseOffsets step !! layerId layer)
        \/ layerId layer ∉ Object_prototype_names ->
        (Fin t <=? startTime v) = true
        /\ (startTime v <=? peakTime v) = true
        /\ (peakTime v <=? floorTime v) = true
        /\ (floorTime v <=? stopTime v) = true).
Proof.
  intros Hd Hpos Hv.
  unfold voiceFor in Hv.
  destruct (steps st !! i) as [step|] eqn:Hstep; [|discriminate].
  destruct (negb (enabled step) || _); [discriminate|].
  unfold layerVoice in Hv. rewrite Hd in Hv.
  destruct (gain layer <=? num 0); [discriminate|].
  destruct (_ <=? Fin (qc 1 1000)); [discriminate|].
  injection Hv as <-. exists step. cbn [startTime envelopeStart peakTime
    floorTime stopTime frequency oscType].
  do 8 (split; [reflexivity|]).
  intros Hown. unfold offsetSec. rewrite (phaseFracOf_own _ _ Hown).
  destruct (clamp_range (or_zero (phaseOffsets step !! layerId layer))
              (or_zero_not_NaN _)) as (c & -> & Hc0 & Hc9).
  unfold attack. cbn [num_add num_mul num_leb].
  repeat split; apply bool_decide_eq_true_2;
    revert Hpos Hc0; clear; unfold Qcplus, Qcmult, Qcle, qc;
    cbn [this Q2Qc]; rewrite ?Qred_correct; intros; nra.
Qed.

Lemma voice_envelope_witness :
  exists v step,
    voiceFor (sceneOf lateStep fifthLayer) 0 (Fin (qc 1 1)) fifthLayer = Some v
    /\ steps (sceneOf lateStep fifthLayer) !! 0%nat = Some step
    /\ (Fin (qc 1 1) <=? startTime v) = true
    /\ (floorTime v <=? stopTime v) = true.
Proof.
  destruct (voiceFor (sceneOf lateStep fifthLayer) 0 (Fin (qc 1 1)) fifthLayer)
    as [v|] eqn:Hv; [|vm_compute in Hv; discriminate Hv].
  assert (0 <= qc 1 8)%Qc as Hd by discriminate.
  destruct (voice_envelope (sceneOf lateStep fifthLayer) (qc 1 1) (qc 1 8)
              0 fifthLayer v eq_refl Hd Hv)
    as (step & H1 & _ & _ & _ & _ & _ & _ & _ & H9).
  exists v, step. split; [reflexivity|]. split; [exact H1|].
  destruct H9 as (Ha & _ & _ & Hb).
  - injection H1 as <-. left. eexists. reflexivity.
  - split; [exact Ha | exact Hb].
Defined.

(** X14. One call of [scheduleNote] creates at most one oscillator per
    layer of the scene; the new oscillators are numbered after the
    existing ones and are exactly what is added to the live set; without
    an audio context the call creates nothing and queues nothing. *)
Theorem one_voice_per_layer (s : AudioService) (i : nat) (t : number) :
  (exists new : list OscillatorNode,
     oscillators (scheduleNote i t s) = oscillators s ++ new
     /\ activeOscillators (scheduleNote i t s)
        = activeOscillators s ++ seq (length (oscillators s)) (length new)
     /\ (length new <= length (harmonicLayers (state s)))%nat)
  /\ (ctx s = None ->
      oscillators (scheduleNote i t s) = oscillators s
      /\ activeOscillators (scheduleNote i t s) = activeOscillators s
      /\ timers (scheduleNote i t s) = timers s).
Proof.
  split; [apply scheduleNote_voices|].
  intros Hc. rewrite (scheduleNote_no_ctx i t s Hc). auto.
Qed.

Lemma one_voice_per_layer_witness :
  oscillators (scheduleNote 3 (num 1) newAudioService)
    = oscillators newAudioService
  /\ timers (scheduleNote 3 (num 1) newAudioService) = timers newAudioService.
Proof.
  destruct (proj2 (one_voice_per_layer newAudioService 3 (num 1)) eq_refl)
    as (H1 & _ & H3).
  split; [exact H1 | exact H3].
Defined.

(** * The control room *)

Lemma handleScenePresetChange_frame id ui :
  uiTempo (handleScenePresetChange id ui) = uiTempo ui
  /\ uiMasterGain (handleScenePresetChange id ui) = uiMasterGain ui
  /\ uiIsPlaying (handleScenePresetChange id ui) = uiIsPlaying ui.
Proof.
  unfold handleScenePresetChange.
  destruct (List.find _ SCENE_PRESETS) as [p|]; [|auto].
  destruct (build p (currentRoot ui)) as [st hs]. auto.
Qed.

Lemma clamp_tempo (b : number) :
  truthy b = true ->
  exists T : Qc,
    Math_max (num 20) (Math_min (num 300) b) = Fin T
    /\ (qc 20 1 <= T)%Qc /\ (T <= qc 300 1)%Qc.
Proof.
  destruct b as [| | |q]; [discriminate| | |]; intros _.
  - exists (qc 20 1). split; [reflexivity|]. split; to_Q; lra.
  - exists (qc 300 1). split; [reflexivity|]. split; to_Q; lra.
  - unfold Math_max, Math_min, num; simpl.
    case_bool_decide; simpl.
    + case_bool_decide.
      * exists q. split; [reflexivity|]. split; to_Q; lra.
      * exists (qc 20 1). split; [reflexivity|]. split; to_Q; lra.
    + exists (qc 300 1). split; [reflexivity|]. split; to_Q; lra.
Qed.

Lemma step_duration_bounds (st : OrpheusState) (T : Qc) :
  tempo st = Fin T -> (qc 20 1 <= T)%Qc -> (T <= qc 300 1)%Qc ->
  exists d : Qc,
    stepDurationSec st = Fin d /\ (qc 1 20 <= d)%Qc /\ (d <= qc 3 4)%Qc.
Proof.
  intros Ht Hlo Hhi.
  assert (0 < T)%Qc as Hpos by (to_Q; lra).
  destruct (stepDurationSec_finite st T Hpos Ht) as (Hd & _).
  exists (qc 60 1 / T / qc 4 1)%Qc. split; [exact Hd|].
  assert (this T * / this T == 1)%Q as Hinv.
  { apply Qmult_inv_r. intros E. to_Q. lra. }
  assert (0 < / this T)%Q as Hip by (apply Qinv_lt_0_compat; exact Hpos).
  unfold Qcdiv, Qcmult, Qcinv, Qcle, Q2Qc, this.
  rewrite !Qred_correct.
  change ((1 # 20) <= Qred (60 # 1) * / T * / Qred (4 # 1)
          /\ Qred (60 # 1) * / T * / Qred (4 # 1) <= (3 # 4))%Q.
  rewrite !Qred_correct.
  change (/ (4 # 1))%Q with (1 # 4)%Q.
  to_Q. split; nra.
Qed.

(** X15. Whatever the command, the tempo after [executeCommand] is the
    tempo before or a number between 20 and 300; in the second case the
    step of the scheduler lasts between 0.05 s and 0.75 s. *)
Theorem command_tempo_in_range (cmd : OrchestratorCommand) (ui : ControlRoom) :
  let ui' := fst (executeCommand cmd ui) in
  uiTempo ui' = uiTempo ui
  \/ exists T d : Qc,
       uiTempo ui' = Fin T /\ (qc 20 1 <= T)%Qc /\ (T <= qc 300 1)%Qc
       /\ stepDurationSec (currentState ui') = Fin d
       /\ (qc 1 20 <= d)%Qc /\ (d <= qc 3 4)%Qc.
Proof.
  unfold executeCommand.
  destruct (bool_decide (cmdType cmd = "start")); [left; reflexivity|].
  destruct (bool_decide (cmdType cmd = "stop")); [left; reflexivity|].
  destruct (bool_decide (cmdType cmd = "set_tempo")).
  { destruct (truthy_num (bpm cmd)) as [b|] eqn:Hb; [|left; reflexivity].
    right. unfold truthy_num in Hb.
    destruct (bpm cmd) as [b'|]; [|discriminate].
    destruct (truthy b') eqn:Htr; [|discriminate].
    injection Hb as <-.
    destruct (clamp_tempo b' Htr) as (T & HT & Hlo & Hhi).
    destruct (step_duration_bounds
                (currentState
                   (setTempo (Math_max (num 20) (Math_min (num 300) b')) ui))
                T HT Hlo Hhi) as (d & Hd & Hd1 & Hd2).
    exists T, d. cbn [fst]. repeat split; assumption. }
  destruct (bool_decide (cmdType cmd = "set_master_gain")).
  { destruct (value cmd); left; reflexivity. }
  destruct (bool_decide (cmdType cmd = "set_root_frequency")).
  { destruct (truthy_num (hz cmd)); left; reflexivity. }
  destruct (bool_decide (cmdType cmd = "load_preset")); [|left; reflexivity].
  destruct (truthy_str (presetId cmd)) as [p|]; [|left; reflexivity].
  left. apply handleScenePresetChange_frame.
Qed.

Lemma clamp_unit (v : number) :
  v <> NaN ->
  exists g : Qc,
    Math_max (num 0) (Math_min (num 1) v) = Fin g
    /\ (0 <= g)%Qc /\ (g <= qc 1 1)%Qc.
Proof.
  intros Hv. destruct v as [| | |q]; [congruence| | |].
  - exists (qc 0 1). split; [reflexivity|]. split; to_Q; lra.
  - exists (qc 1 1). split; [reflexivity|]. split; to_Q; lra.
  - unfold Math_max, Math_min, num; simpl.
    case_bool_decide; simpl.
    + case_bool_decide.
      * exists q. split; [reflexivity|]. split; to_Q; lra.
      * exists (qc 0 1). split; [reflexivity|]. split; to_Q; lra.
    + exists (qc 1 1). split; [reflexivity|]. split; to_Q; lra.
Qed.

(** X16. Whatever the command, the master gain after [executeCommand] is
    the one before, or a number between 0 and 1, or [NaN]; it is [NaN]
    only when the command carries the value [NaN], which the clamp lets
    through. *)
Theorem command_master_gain (cmd : OrchestratorCommand) (ui : ControlRoom) :
  let ui' := fst (executeCommand cmd ui) in
  uiMasterGain ui' = uiMasterGain ui
  \/ (exists g : Qc,
        uiMasterGain ui' = Fin g /\ (0 <= g)%Qc /\ (g <= qc 1 1)%Qc)
  \/ (uiMasterGain ui' = NaN /\ value cmd = Some NaN).
Proof.
  unfold executeCommand.
  destruct (bool_decide (cmdType cmd = "start")); [left; reflexivity|].
  destruct (bool_decide (cmdType cmd = "stop")); [left; reflexivity|].
  destruct (bool_decide (cmdType cmd = "set_tempo")).
  { destruct (truthy_num (bpm cmd)); left; reflexivity. }
  destruct (bool_decide (cmdType cmd = "set_master_gain")).
  { destruct (value cmd) as [v|]; [|left; reflexivity].
    right. cbn [fst uiMasterGain setMasterGain].
    destruct v as [| | |q].
    - right. split; reflexivity.
    - left. apply clamp_unit. discriminate.
    - left. apply clamp_unit. discriminate.
    - left. apply clamp_unit. discriminate. }
  destruct (bool_decide (cmdType cmd = "set_root_frequency")).
  { destruct (truthy_num (hz cmd)); left; reflexivity. }
  destruct (bool_decide (cmdType cmd = "load_preset")); [|left; reflexivity].
  destruct (truthy_str (presetId cmd)) as [p|]; [|left; reflexivity].
  left. apply handleScenePresetChange_frame.
Qed.

(** X17. The command types [set_step_gain] and [set_step_enabled], and any
    type that is none of the six the switch handles, change nothing and do
    not touch the transport. *)
Theorem step_commands_ignored (cmd : OrchestratorCommand) (ui : ControlRoom) :
  cmdType cmd ∉ ["start"; "stop"; "set_tempo"; "set_master_gain";
                 "set_root_frequency"; "load_preset"]%string ->
  executeCommand cmd ui = (ui, false).
Proof.
  intros Hnot. unfold executeCommand.
  repeat (case_bool_decide as E;
          [exfalso; apply Hnot; rewrite E; set_solver|]; clear E).
  reflexivity.
Qed.

Lemma step_commands_ignored_witness :
  executeCommand {| cmdType := "set_step_gain"; bpm := None; hz := None;
                    value := Some (num 1); presetId := None |} initialRoom
  = (initialRoom, false).
Proof.
  apply step_commands_ignored. simpl.
  apply (bool_decide_unpack _). vm_compute. exact I.
Defined.

Lemma lookup_map {A B} (f : A -> B) (l : list A) (i : nat) :
  map f l !! i = f <$> l !! i.
Proof.
  revert i. induction l as [|x l IH]; intros [|i]; simpl; auto.
Qed.

Lemma voiceFor_root (ui : ControlRoom) (h : number) i t layer :
  voiceFor
    (currentState
       (setSource "AI Modified"
          (setSteps (map (withField (F_baseFrequency h)) (uiSteps ui)) ui)))
    i t layer
  = match voiceFor (currentState ui) i t layer with
    | Some v =>
        Some {| oscType := oscType v; frequency := h * ratio layer;
                envelopeStart := envelopeStart v; peakGain := peakGain v;
                peakTime := peakTime v; floorTime := floorTime v;
                startTime := startTime v; stopTime := stopTime v |}
    | None => None
    end.
Proof.
  unfold voiceFor. simpl.
  rewrite lookup_map.
  destruct (uiSteps ui !! i) as [st|]; [|reflexivity]. simpl.
  destruct (negb (enabled st) || (stepGain st <=? num 0)); [reflexivity|].
  unfold layerVoice, stepDurationSec, offsetSec. simpl.
  destruct (gain layer <=? num 0); [reflexivity|].
  destruct (_ <=? Fin (qc 1 1000)); reflexivity.
Qed.

(** X18. A [set_root_frequency] command whose [hz] is missing, 0 or [NaN]
    changes nothing. Otherwise it keeps the number of steps, and in the
    scene that results every step gives the voices it gave before, with
    the same envelope, each now at frequency [hz * ratio]. *)
Theorem root_frequency_command (cmd : OrchestratorCommand) (ui : ControlRoom) :
  cmdType cmd = "set_root_frequency"%string ->
  let ui' := fst (executeCommand cmd ui) in
  match hz cmd with
  | Some h =>
      if truthy h then
        length (uiSteps ui') = length (uiSteps ui)
        /\ forall i t layer,
             voiceFor (currentState ui') i t layer
             = match voiceFor (currentState ui) i t layer with
               | Some v =>
                   Some {| oscType := oscType v; frequency := h * ratio layer;
                           envelopeStart := envelopeStart v;
                           peakGain := peakGain v; peakTime := peakTime v;
                           floorTime := floorTime v; startTime := startTime v;
                           stopTime := stopTime v |}
               | None => None
               end
      else ui' = ui
  | None => ui' = ui
  end.
Proof.
  intros Hty. unfold executeCommand. rewrite Hty. simpl.
  destruct (hz cmd) as [h|]; [|reflexivity]. simpl.
  destruct (truthy h); [|reflexivity].
  cbn [fst]. split.
  - simpl. apply length_map.
  - intros i t layer. apply voiceFor_root.
Qed.

Lemma root_frequency_command_witness :
  length (uiSteps
            (fst (executeCommand
                    {| cmdType := "set_root_frequency"; bpm := None;
                       hz := Some (num 32); value := None;
                       presetId := None |} initialRoom)))
  = 16%nat.
Proof.
  destruct (root_frequency_command
              {| cmdType := "set_root_frequency"; bpm := None;
                 hz := Some (num 32); value := None; presetId := None |}
              initialRoom eq_refl) as [H _].
  rewrite H. reflexivity.
Defined.

Lemma currentRoot_truthy (ui : ControlRoom) : truthy (currentRoot ui) = true.
Proof.
  unfold currentRoot. destruct (uiSteps ui !! 0%nat) as [st|]; [|reflexivity].
  destruct (truthy (baseFrequency st)) eqn:E; [exact E | reflexivity].
Qed.

Lemma build_ok (root : number) (p : ScenePreset) :
  p ∈ SCENE_PRESETS ->
  preset_scene root (fst (build p root)) (snd (build p root)).
Proof.
  intros Hp. unfold SCENE_PRESETS in Hp.
  repeat (apply elem_of_cons in Hp as [-> | Hp]);
    [| | | inversion Hp].
  all: unfold preset_scene; split; [reflexivity|]; split; [reflexivity|].
  all: split.
  all: repeat (apply Forall_cons; split); try apply Forall_nil.
  all: try (split; [reflexivity|]; split;
            [simpl; eexists; split; [reflexivity|]; split; to_Q; lra|];
            repeat (apply Forall_cons; split); try apply Forall_nil;
            vm_compute; reflexivity).
  all: try exact I.
  all: simpl; eexists; split; [reflexivity|]; split; to_Q; lra.
Qed.

Lemma find_elem {A} (f : A -> bool) (l : list A) (x : A) :
  List.find f l = Some x -> x ∈ l /\ f x = true.
Proof.
  induction l as [|y l IH]; simpl; [discriminate|].
  destruct (f y) eqn:E.
  - intros [= ->]. split; [left | exact E].
  - intros H. destruct (IH H) as [H1 H2]. split; [right; exact H1 | exact H2].
Qed.

Lemma find_none {A} (f : A -> bool) (l : list A) :
  List.find f l = None -> Forall (fun x => f x = false) l.
Proof.
  induction l as [|y l IH]; simpl; [constructor|].
  destruct (f y) eqn:E; [discriminate|]. intros H.
  constructor; [exact E | apply IH; exact H].
Qed.

(** X19. [handleScenePresetChange] with an id that names no scene preset
    changes nothing. With the id of a preset it installs 16 steps and 3
    layers: every step at the root frequency of the scene before (the
    frequency of its first step, or 16 when that is missing, 0 or [NaN]),
    with a gain between 0 and 1 and a phase offset of 0 for every layer,
    every layer with a gain in (0, 1]; tempo and master gain are kept. *)
Theorem scene_preset_shape (id : string) (ui : ControlRoom) :
  let ui' := handleScenePresetChange id ui in
  (ui' = ui /\ Forall (fun p => sp_id p <> id) SCENE_PRESETS)
  \/ ((exists p, p ∈ SCENE_PRESETS /\ sp_id p = id)
      /\ preset_scene (currentRoot ui) (uiSteps ui') (uiLayers ui')
      /\ truthy (currentRoot ui) = true
      /\ uiTempo ui' = uiTempo ui
      /\ uiMasterGain ui' = uiMasterGain ui).
Proof.
  intros ui'.
  destruct (handleScenePresetChange_frame id ui) as (Ht & Hg & _).
  subst ui'. unfold handleScenePresetChange in *.
  destruct (List.find _ SCENE_PRESETS) as [p|] eqn:Hf.
  - right. apply find_elem in Hf as [Hin Hid].
    apply bool_decide_eq_true in Hid.
    split; [exists p; auto|].
    pose proof (build_ok (currentRoot ui) p Hin) as Hb.
    destruct (build p (currentRoot ui)) as [sts ls].
    split; [exact Hb|]. split; [apply currentRoot_truthy|].
    split; assumption.
  - left. split; [reflexivity|].
    apply find_none in Hf. eapply Forall_impl; [exact Hf|].
    intros p Hp. simpl in Hp. apply bool_decide_eq_false in Hp. exact Hp.
Qed.

Lemma update_at_spec {A} (i : nat) (f : A -> A) (l l' : list A) :
  update_at i f l = Some l' ->
  exists x,
    l !! i = Some x /\ l' !! i = Some (f x)
    /\ length l' = length l
    /\ forall j, j <> i -> l' !! j = l !! j.
Proof.
  unfold update_at. destruct (l !! i) as [x|] eqn:Hx; [|discriminate].
  intros [= <-]. exists x. split; [reflexivity|].
  split; [|split].
  - apply list_lookup_insert_eq. eapply lookup_lt_Some; eauto.
  - apply length_insert.
  - intros j Hj. apply list_lookup_insert_ne. auto.
Qed.

Lemma update_at_None {A} (i : nat) (f : A -> A) (l : list A) :
  update_at i f l = None <-> (length l <= i)%nat.
Proof.
  unfold update_at. destruct (l !! i) as [x|] eqn:Hx.
  - split; [discriminate|]. intros H.
    apply lookup_lt_Some in Hx. lia.
  - split; [|reflexivity]. intros _. apply lookup_ge_None. exact Hx.
Qed.

Lemma sanitised_pattern (parsed : list number) :
  let nums := List.filter (fun v => isFinite v && (num 0 <=? v)) parsed in
  let p := if (0 <? length nums)%nat then nums else [num 1] in
  p <> []
  /\ Forall (fun v => exists q : Qc, v = Fin q /\ (0 <= q)%Qc) p
  /\ ((nums = [] /\ p = [num 1]) \/ (nums <> [] /\ p = nums)).
Proof.
  intros nums p.
  assert (Forall (fun v => (exists q : Qc, v = Fin q /\ (0 <= q)%Qc)
                           /\ v ∈ parsed) nums) as Hn.
  { apply Forall_forall. intros v Hv.
    apply list_elem_of_In, filter_In in Hv as [Hin Hv].
    apply andb_true_iff in Hv as [Hf Hpos].
    apply isFinite_Fin in Hf as [q ->]. split.
    - exists q. split; [reflexivity|]. simpl in Hpos.
      apply bool_decide_eq_true in Hpos. exact Hpos.
    - apply list_elem_of_In. exact Hin. }
  subst p. destruct nums as [|v nums'] eqn:E; simpl.
  - split; [discriminate|]. split; [|left; split; reflexivity].
    constructor; [|constructor]. exists (qc 1 1). split; [reflexivity|].
    to_Q. lra.
  - split; [discriminate|]. split.
    + eapply Forall_impl; [exact Hn|]. intros x [H _]. exact H.
    + right. split; [discriminate | reflexivity].
Qed.

Lemma gating_clean (l : HarmonicLayer) (p : list number) (k : nat) :
  gatingMode l = fractal -> fractalPattern l = Some p -> p <> [] ->
  Forall (fun v => exists q : Qc, v = Fin q /\ (0 <= q)%Qc) p ->
  gating l k = at_index p (k mod length p) /\ at_index p (k mod length p) ∈ p.
Proof.
  intros Hm Hp Hne Hall. unfold gating. rewrite Hm, Hp.
  destruct p as [|v p']; [congruence|].
  change (0 <? length (v :: p'))%nat with true. cbv iota.
  set (pat := v :: p') in *.
  assert (k mod length pat < length pat)%nat as Hlt.
  { apply Nat.mod_upper_bound. subst pat. simpl. lia. }
  apply lookup_lt_is_Some in Hlt as [g Hg].
  unfold at_index. rewrite Hg.
  assert (g ∈ pat) as Hin by (eapply list_elem_of_lookup_2; eauto).
  split; [|exact Hin].
  rewrite Forall_forall in Hall. destruct (Hall g Hin) as (q & -> & Hq).
  simpl. case_bool_decide as E; [|reflexivity].
  exfalso. revert E Hq. to_Q. lra.
Qed.

(** X20. When [handleFractalPatternChange] edits a layer of the scene, the
    pattern it stores is never empty and holds only finite numbers that
    are at least 0: the entries of the text that are such numbers, in
    order, when there is at least one, and the single entry 1 when there
    is none. So the gate of the layer at any step is the pattern entry
    itself, and the other layers are untouched. *)
Theorem fractal_pattern_sanitised (index : nat) (parsed : list number)
    (ui ui' : ControlRoom) :
  handleFractalPatternChange index parsed ui = Some ui' ->
  exists (l0 : HarmonicLayer) (p : list number),
    uiLayers ui !! index = Some l0
    /\ uiLayers ui' !! index = Some (withPattern p l0)
    /\ p <> []
    /\ Forall (fun v => exists q : Qc, v = Fin q /\ (0 <= q)%Qc) p
    /\ (let nums :=
          List.filter (fun v => isFinite v && (num 0 <=? v)) parsed in
        (nums = [] /\ p = [num 1]) \/ (nums <> [] /\ p = nums))
    /\ (gatingMode l0 = fractal ->
        forall k, gating (withPattern p l0) k = at_index p (k mod length p)
                  /\ at_index p (k mod length p) ∈ p)
    /\ length (uiLayers ui') = length (uiLayers ui)
    /\ forall j, j <> index -> uiLayers ui' !! j = uiLayers ui !! j.
Proof.
  unfold handleFractalPatternChange.
  destruct (sanitised_pattern parsed) as (Hne & Hall & Hsrc).
  set (p := if (0 <? length _)%nat then _ else [num 1]) in *.
  destruct (update_at index (withPattern p) (uiLayers ui)) as [ls|] eqn:Hu;
    [|discriminate].
  intros [= <-]. apply update_at_spec in Hu as (l0 & H0 & H1 & Hlen & Hoth).
  exists l0, p. simpl.
  split; [exact H0|]. split; [exact H1|]. split; [exact Hne|].
  split; [exact Hall|]. split; [exact Hsrc|].
  split; [|split; assumption].
  intros Hm k. apply gating_clean; auto.
Qed.

Lemma fractal_pattern_sanitised_witness :
  exists ui' l,
    handleFractalPatternChange 1
      [Fin (qc 1 2); NaN; num (-2); num 3] initialRoom = Some ui'
    /\ uiLayers ui' !! 1%nat = Some l
    /\ fractalPattern l = Some [Fin (qc 1 2); num 3].
Proof.
  destruct (handleFractalPatternChange 1
              [Fin (qc 1 2); NaN; num (-2); num 3] initialRoom)
    as [ui'|] eqn:E; [|vm_compute in E; discriminate E].
  destruct (fractal_pattern_sanitised 1
              [Fin (qc 1 2); NaN; num (-2); num 3] initialRoom ui' E)
    as (l0 & p & _ & H1 & _ & _ & Hsrc & _).
  exists ui', (withPattern p l0). split; [reflexivity|]. split; [exact H1|].
  destruct Hsrc as [[Hnil _] | [_ ->]]; [discriminate Hnil | reflexivity].
Defined.

Lemma presets_found :
  Forall (fun pr => findMatchingPresetId (Some (fp_pattern pr)) = fp_id pr)
    FRACTAL_PRESETS.
Proof. repeat constructor. Qed.

(** X21. [handlePresetChange] with an id that names no fractal preset
    changes nothing. With the id of a preset, the edited layer holds the
    pattern of that preset, and [findMatchingPresetId] on the layer's
    pattern gives that id back: the preset menu shows the choice made. *)
Theorem preset_round_trip (index : nat) (id : string) (ui ui' : ControlRoom) :
  handlePresetChange index id ui = Some ui' ->
  (ui' = ui /\ Forall (fun pr => fp_id pr <> id) FRACTAL_PRESETS)
  \/ exists (pr : FractalPreset) (l0 : HarmonicLayer),
       pr ∈ FRACTAL_PRESETS /\ fp_id pr = id
       /\ uiLayers ui !! index = Some l0
       /\ uiLayers ui' !! index = Some (withPattern (fp_pattern pr) l0)
       /\ findMatchingPresetId (fractalPattern (withPattern (fp_pattern pr) l0))
          = id
       /\ forall j, j <> index -> uiLayers ui' !! j = uiLayers ui !! j.
Proof.
  unfold handlePresetChange.
  destruct (List.find _ FRACTAL_PRESETS) as [pr|] eqn:Hf.
  - destruct (update_at index _ (uiLayers ui)) as [ls|] eqn:Hu; [|discriminate].
    intros [= <-]. right.
    apply find_elem in Hf as [Hin Hid]. apply bool_decide_eq_true in Hid.
    apply update_at_spec in Hu as (l0 & H0 & H1 & _ & Hoth).
    exists pr, l0. simpl. repeat split; auto.
    rewrite <- Hid.
    pose proof presets_found as Hall. rewrite Forall_forall in Hall.
    apply Hall. exact Hin.
  - intros [= <-]. left. split; [reflexivity|].
    apply find_none in Hf. eapply Forall_impl; [exact Hf|].
    intros p Hp. simpl in Hp. apply bool_decide_eq_false in Hp. exact Hp.
Qed.

Lemma preset_round_trip_witness :
  exists ui',
    handlePresetChange 2 "triLift" initialRoom = Some ui'
    /\ (ui' = initialRoom
        \/ exists l, uiLayers ui' !! 2%nat = Some l
                     /\ findMatchingPresetId (fractalPattern l)
                        = "triLift"%string).
Proof.
  eexists. split; [reflexivity|].
  destruct (preset_round_trip 2 "triLift" initialRoom _ eq_refl)
    as [[H _] | (pr & l0 & _ & _ & _ & H1 & H2 & _)].
  - left. exact H.
  - right. eexists. split; [exact H1 | exact H2].
Defined.

Lemma clamp_id (q : Qc) :
  (0 <= q)%Qc -> (q <= qc 9 10)%Qc ->
  Math_max (num 0) (Math_min (Fin (qc 9 10)) (or_zero (Some (Fin q)))) = Fin q.
Proof.
  intros H0 H1. rewrite or_zero_Some by discriminate.
  unfold Math_max, Math_min, num; simpl.
  case_bool_decide as E1; simpl.
  - case_bool_decide as E2; [reflexivity|].
    f_equal. apply Qc_is_canon. apply Qcnot_lt_le in E2.
    revert H0 E2. to_Q. intros. lra.
  - f_equal. apply Qc_is_canon. apply Qcnot_lt_le in E1.
    revert H1 E1. to_Q. intros. lra.
Qed.

(** X23. [handlePhaseChange] fails (a [TypeError] in the source) exactly
    when the step index is outside the steps. Otherwise it writes the
    offset of the one layer in the one step, keeping the other offsets of
    the step, its other settings and every other step; and for an offset
    between 0 and 0.9 the voice of that layer starts that fraction of the
    step duration into the step. *)
Theorem phase_change_writes_one_offset (stepIndex : nat) (layer : string)
    (v : number) (ui : ControlRoom) :
  match handlePhaseChange stepIndex layer v ui with
  | None => (length (uiSteps ui) <= stepIndex)%nat
  | Some ui' =>
      exists st st',
        uiSteps ui !! stepIndex = Some st
        /\ uiSteps ui' !! stepIndex = Some st'
        /\ phaseOffsets st' !! layer = Some v
        /\ (forall other, other <> layer ->
              phaseOffsets st' !! other = phaseOffsets st !! other)
        /\ enabled st' = enabled st
        /\ baseFrequency st' = baseFrequency st
        /\ stepGain st' = stepGain st
        /\ (forall j, j <> stepIndex -> uiSteps ui' !! j = uiSteps ui !! j)
        /\ uiLayers ui' = uiLayers ui
        /\ (forall (l : HarmonicLayer) (q : Qc) (d : number),
              layerId l = layer -> v = Fin q ->
              (0 <= q)%Qc -> (q <= qc 9 10)%Qc ->
              offsetSec st' l d = Fin q * d)
  end.
Proof.
  unfold handlePhaseChange.
  destruct (update_at stepIndex _ (uiSteps ui)) as [sts|] eqn:Hu.
  - apply update_at_spec in Hu as (st & H0 & H1 & _ & Hoth).
    eexists st, _. split; [exact H0|]. split; [exact H1|]. simpl.
    split; [apply lookup_insert_eq|].
    split; [intros other Hne; apply lookup_insert_ne; congruence|].
    do 5 (split; [solve [auto]|]).
    intros l q d Hl -> Hq0 Hq1. unfold offsetSec, phaseFracOf.
    cbn [phaseOffsets]. rewrite Hl, lookup_insert_eq. cbv beta iota.
    rewrite clamp_id; auto.
  - apply update_at_None in Hu. exact Hu.
Qed.

Lemma phase_change_writes_one_offset_witness :
  match handlePhaseChange 3 "fifth" (Fin (qc 1 4)) initialRoom with
  | Some ui' =>
      exists st',
        uiSteps ui' !! 3%nat = Some st'
        /\ offsetSec st' fifthLayer (Fin (qc 1 8))
           = Fin (qc 1 4) * Fin (qc 1 8)
  | None => False
  end.
Proof.
  pose proof (phase_change_writes_one_offset 3 "fifth" (Fin (qc 1 4))
                initialRoom) as H.
  destruct (handlePhaseChange 3 "fifth" (Fin (qc 1 4)) initialRoom)
    as [ui'|].
  - destruct H as (st & st' & _ & H1 & _ & _ & _ & _ & _ & _ & _ & Hoff).
    exists st'. split; [exact H1|].
    apply (Hoff fifthLayer (qc 1 4)); [reflexivity | reflexivity | |];
      to_Q; lra.
  - simpl in H. lia.
Defined.

Lemma scheduleNote_oscillators (s : AudioService) (i : nat) (t : number) :
  oscillators (scheduleNote i t s)
  = oscillators s
    ++ match ctx s with
       | Some _ => omap (voiceFor (state s) i t) (harmonicLayers (state s))
       | None => []
       end.
Proof.
  destruct (ctx s) as [c|] eqn:Hc.
  - rewrite (scheduleNote_spec s c i t Hc). reflexivity.
  - rewrite (scheduleNote_no_ctx i t s Hc). simpl. rewrite app_nil_r.
    reflexivity.
Qed.

Lemma pushState_frame (ui : ControlRoom) (s : AudioService) :
  state (pushState ui s) = currentState ui
  /\ oscillators (pushState ui s) = oscillators s
  /\ activeOscillators (pushState ui s) = activeOscillators s
  /\ (ctx (pushState ui s) = None <-> ctx s = None).
Proof.
  unfold pushState, setState, applyGlobalSettings.
  destruct s as [[c|] ? ? ? ? ? ? ? ? ? ? ? ? ?]; simpl; (split; [reflexivity|]); (split; [reflexivity|]);
    (split; [reflexivity|]); split; intros H; try discriminate; reflexivity.
Qed.

(** X24. Once [handleStepChange] has unchecked a step, or set its gain to
    0 or below, and the scene has been pushed to the service,
    [scheduleNote] for that step creates no oscillator; every other step
    gives the voices it gave before. *)
Theorem muted_step_is_silent (index : nat) (f : StepField)
    (ui ui' : ControlRoom) (s : AudioService) (t : number) :
  handleStepChange index f ui = Some ui' ->
  f = F_enabled false
  \/ (exists v, f = F_stepGain v /\ (v <=? num 0) = true) ->
  oscillators (scheduleNote index t (pushState ui' s)) = oscillators s
  /\ forall j t' l, j <> index ->
       voiceFor (currentState ui') j t' l = voiceFor (currentState ui) j t' l.
Proof.
  unfold handleStepChange.
  destruct (update_at index (withField f) (uiSteps ui)) as [sts|] eqn:Hu;
    [|discriminate].
  intros [= <-] Hf.
  apply update_at_spec in Hu as (st & H0 & H1 & _ & Hoth).
  split.
  - rewrite scheduleNote_oscillators.
    destruct (pushState_frame
                (setSource "Custom (Edited)" (setSteps sts ui)) s)
      as (Hst & Hos & _ & _).
    rewrite Hst, Hos.
    destruct (ctx (pushState _ s)); [|apply app_nil_r].
    rewrite omap_none; [apply app_nil_r|].
    intros l. unfold voiceFor. simpl. rewrite H1.
    destruct Hf as [-> | (v & -> & Hv)]; simpl.
    + reflexivity.
    + rewrite Hv, orb_true_r. reflexivity.
  - intros j t' l Hj. unfold voiceFor. simpl. rewrite (Hoth j Hj).
    reflexivity.
Qed.

Lemma muted_step_is_silent_witness :
  exists ui',
    handleStepChange 0 (F_enabled false) initialRoom = Some ui'
    /\ oscillators
         (scheduleNote 0 (num 0) (pushState ui' (serviceWith getInitialState)))
       = [].
Proof.
  eexists. split; [reflexivity|].
  refine (proj1 (muted_step_is_silent 0 (F_enabled false) initialRoom _
                   (serviceWith getInitialState) (num 0) eq_refl _)).
  left. reflexivity.
Defined.

Lemma finite_num_spec (v : option number) (a : number) :
  finite_num v = Some a -> isFinite a = true.
Proof.
  destruct v as [b|]; simpl; [|discriminate].
  destruct (isFinite b) eqn:E; [|discriminate]. intros [= <-]. exact E.
Qed.

(** X25. Whatever the file, after [handleLoadScene] the tempo is the one
    before or a finite number, and so is the master gain; the steps are
    the ones before or at most 16 steps taken from the front of the
    file's; the playback flag is not touched. *)
Theorem load_scene_numbers (parsed : option SceneFile) (stem : string)
    (ui : ControlRoom) :
  let ui' := handleLoadScene parsed stem ui in
  (uiTempo ui' = uiTempo ui \/ isFinite (uiTempo ui') = true)
  /\ (uiMasterGain ui' = uiMasterGain ui
      \/ isFinite (uiMasterGain ui') = true)
  /\ (uiSteps ui' = uiSteps ui
      \/ exists l, (exists json, parsed = Some json /\ jsSteps json = Some l)
                   /\ uiSteps ui' = take 16 l
                   /\ (length (uiSteps ui') <= 16)%nat)
  /\ uiIsPlaying ui' = uiIsPlaying ui.
Proof.
  unfold handleLoadScene. destruct parsed as [json|]; [|simpl; auto 10].
  destruct (bool_decide _ || _ || _); [|simpl; auto 10].
  destruct (or_array _ _) as [| |ls];
    destruct (jsSteps json) as [sts|] eqn:Hs;
    destruct (finite_num (jsTempoBpm json)) as [tp|] eqn:Ht;
    destruct (finite_num (jsMasterGain json)) as [mg|] eqn:Hg;
    destruct (jsMeta json) as [m|]; simpl;
    try apply finite_num_spec in Ht; try apply finite_num_spec in Hg.
  all: repeat split; auto; try discriminate.
  all: right; exists sts; split; [exists json; auto|]; split; [reflexivity|];
    rewrite length_take; lia.
Qed.

(** X26. The layers after [handleLoadScene] are the array under
    [harmonicLayers] when there is one; else the array under [harmonics]
    when there is one and [harmonicLayers] is missing or falsy; else the
    layers before: a truthy [harmonicLayers] that is no array hides the
    array under [harmonics]. A file that is accepted leaves a source label
    that is not empty; a file with another [kind] and neither array
    changes nothing. *)
Theorem load_scene_layers (json : SceneFile) (stem : string)
    (ui : ControlRoom) :
  let ui' := handleLoadScene (Some json) stem ui in
  uiLayers ui'
  = match jsHarmonicLayers json, jsHarmonics json with
    | IsArray l, _ => l
    | Falsy, IsArray l => l
    | _, _ => uiLayers ui
    end
  /\ (if bool_decide (jsKind json = Some "orpheus_scene"%string)
         || isArray (jsHarmonicLayers json) || isArray (jsHarmonics json)
      then source (uiSceneMeta ui') <> String.EmptyString
      else ui' = ui).
Proof.
  unfold handleLoadScene.
  destruct (bool_decide (jsKind json = Some "orpheus_scene"%string)) eqn:Hk;
    destruct (jsHarmonicLayers json) as [| |hl];
    destruct (jsHarmonics json) as [| |h];
    destruct (jsSteps json) as [sts|];
    destruct (finite_num (jsTempoBpm json)) as [tp|];
    destruct (finite_num (jsMasterGain json)) as [mg|];
    destruct (jsMeta json) as [m|]; simpl; split; try reflexivity;
    try discriminate.
  all: unfold or_string; destruct (truthy_str (metaSource m)) as [x|] eqn:E;
    try discriminate.
  all: unfold truthy_str in E; destruct (metaSource m) as [y|];
    try discriminate; case_bool_decide; try discriminate;
    injection E as <-; assumption.
Qed.

(** * The guidance logic *)

Lemma bank_names toLowerCase (kws : list string) :
  determinePatternBank toLowerCase kws
  ∈ ["martian_scar"; "healing_shell"; "cosmic_web"; "charge_spin";
     "default"]%string.
Proof.
  unfold determinePatternBank.
  repeat match goal with |- context [existsb ?f ?l] =>
    destruct (existsb f l) end; set_solver.
Qed.

Lemma bank_pattern toLowerCase (bias : option string) (kws : list string) :
  getFractalPattern bias (determinePatternBank toLowerCase kws)
  = getFractalPattern bias "default".
Proof.
  pose proof (bank_names toLowerCase kws) as H.
  repeat (apply elem_of_cons in H as [-> | H]); try reflexivity.
  inversion H.
Qed.

(** X27. In the scene [applyGuidanceToState] builds from active motifs,
    every layer keeps its id, ratio and gain and gets the same pattern,
    which depends on the fractal bias alone: the single entry 1 for
    [simple], the eight-entry sequence for [chaotic], the halving pattern
    otherwise. The patterns kept for the keywords eye, horus, pulse, heart
    and lift are never chosen, whatever the keywords of the motifs. *)
Theorem guidance_pattern_by_bias (toLowerCase : string -> string)
    (random : nat -> number) (base : OrpheusState) (agg : MotifAggregate) :
  hasActiveMotifs agg = true ->
  let st := applyGuidanceToState toLowerCase random base agg in
  let pattern :=
    if bool_decide (fractalBias agg = Some "simple"%string) then [num 1]
    else if bool_decide (fractalBias agg = Some "chaotic"%string) then
      [Fin (qc 9 10); Fin (qc 1 10); Fin (qc 8 10); Fin (qc 2 10);
       Fin (qc 7 10); Fin (qc 3 10); Fin (qc 6 10); Fin (qc 4 10)]
    else [num 1; Fin (qc 1 2); Fin (qc 1 4); Fin (qc 1 8)] in
  length (harmonicLayers st) = length (harmonicLayers base)
  /\ forall i l,
       harmonicLayers base !! i = Some l ->
       exists l',
         harmonicLayers st !! i = Some l'
         /\ fractalPattern l' = Some pattern
         /\ layerId l' = layerId l /\ ratio l' = ratio l /\ gain l' = gain l.
Proof.
  intros Ha st pattern. subst st. unfold applyGuidanceToState.
  rewrite Ha. cbn [negb harmonicLayers]. split; [apply length_imap|].
  intros i l Hl. rewrite list_lookup_imap, Hl. cbn [fmap option_fmap option_map].
  eexists. split; [reflexivity|]. cbn [fractalPattern layerId ratio gain].
  split; [|auto]. f_equal. rewrite bank_pattern. subst pattern.
  unfold getFractalPattern. cbn [includes orb].
  change (includes "default" _) with false. cbn [orb].
  destruct (fractalBias agg) as [b|]; [|reflexivity].
  repeat case_bool_decide; try reflexivity; congruence.
Qed.

Lemma density_settings (random : nat -> number) (bias : option string)
    (i : nat) :
  (exists r : Qc, random i = Fin r /\ (0 <= r)%Qc /\ (r < 1)%Qc) ->
  let d := densityToStepSettings random bias i in
  (if fst d
   then exists g : Qc,
          snd d = Fin g /\ (qc 3 10 <= g)%Qc /\ (g <= qc 9 10)%Qc
   else snd d = num 0)
  /\ ((i mod 4 = 0)%nat ->
      fst d = true
      /\ exists g : Qc, snd d = Fin g /\ (qc 7 10 <= g)%Qc).
Proof.
  intros (r & Hr & Hr0 & Hr1). unfold densityToStepSettings.
  destruct (i mod 4 =? 0)%nat eqn:Ea.
  - assert (forall g : Qc, (qc 7 10 <= g)%Qc -> (g <= qc 9 10)%Qc ->
              (exists g' : Qc, Fin g = Fin g' /\ (qc 3 10 <= g')%Qc
                               /\ (g' <= qc 9 10)%Qc)
              /\ ((i mod 4 = 0)%nat ->
                  true = true /\ exists g' : Qc, Fin g = Fin g'
                                              /\ (qc 7 10 <= g')%Qc)) as Hk.
    { intros g H1 H2. split.
      - exists g. split; [reflexivity|]. split; [|exact H2].
        revert H1. to_Q. lra.
      - intros _. split; [reflexivity|]. exists g. auto. }
    repeat case_bool_decide; cbn [fst snd]; apply Hk; clear; to_Q.
    all: lra.
  - apply Nat.eqb_neq in Ea.
    repeat case_bool_decide; cbn [fst snd].
    + rewrite Hr. simpl. case_bool_decide; cbn [fst snd].
      * split; [|intros; contradiction].
        exists (qc 3 10). split; [reflexivity|]. split; to_Q; lra.
      * split; [reflexivity | intros; contradiction].
    + split; [|intros; contradiction]. rewrite Hr. simpl.
      eexists. split; [reflexivity|].
      clear -Hr0 Hr1. unfold Qcplus, Qcmult. to_Q. split; lra.
    + destruct (i mod 2 =? 0)%nat; cbn [fst snd].
      * split; [|intros; contradiction].
        exists (qc 4 10). split; [reflexivity|]. split; to_Q; lra.
      * split; [reflexivity | intros; contradiction].
Qed.

Lemma tempoFromBias_values (bias : option string) :
  tempoFromBias bias ∈ [num 60; num 120; num 140].
Proof.
  unfold tempoFromBias. destruct bias as [b|]; [|set_solver].
  repeat case_bool_decide; set_solver.
Qed.

(** X28. In the scene [applyGuidanceToState] builds from active motifs,
    when every draw of [Math.random] is in [0, 1): there are as many steps
    as before, all at one base frequency and with their phase offsets
    kept; an enabled step has a gain between 0.3 and 0.9 and a disabled
    one the gain 0; every fourth step, from the first, is enabled with a
    gain of at least 0.7. The tempo is the one before, or 60, 120 or 140,
    and the master gain is kept. *)
Theorem guidance_steps (toLowerCase : string -> string)
    (random : nat -> number) (base : OrpheusState) (agg : MotifAggregate) :
  hasActiveMotifs agg = true ->
  (forall i, exists r : Qc, random i = Fin r /\ (0 <= r)%Qc /\ (r < 1)%Qc) ->
  let st := applyGuidanceToState toLowerCase random base agg in
  length (steps st) = length (steps base)
  /\ (exists root,
        forall i s',
          steps st !! i = Some s' ->
          baseFrequency s' = root
          /\ (exists s, steps base !! i = Some s
                        /\ phaseOffsets s' = phaseOffsets s)
          /\ (if enabled s'
              then exists g : Qc,
                     stepGain s' = Fin g
                     /\ (qc 3 10 <= g)%Qc /\ (g <= qc 9 10)%Qc
              else stepGain s' = num 0)
          /\ ((i mod 4 = 0)%nat ->
              enabled s' = true
              /\ exists g : Qc, stepGain s' = Fin g /\ (qc 7 10 <= g)%Qc))
  /\ tempo st ∈ [tempo base; num 60; num 120; num 140]
  /\ masterGain st = masterGain base.
Proof.
  intros Ha Hr st. subst st. unfold applyGuidanceToState.
  rewrite Ha. cbn [negb steps tempo masterGain].
  split; [apply length_imap|]. split; [|split; [|reflexivity]].
  - eexists. intros i s' Hs'. rewrite list_lookup_imap in Hs'.
    destruct (steps base !! i) as [s|] eqn:Hs; [|discriminate].
    cbn [fmap option_fmap option_map] in Hs'. injection Hs' as <-.
    cbn [baseFrequency phaseOffsets enabled stepGain].
    split; [reflexivity|]. split; [exists s; auto|].
    apply density_settings. apply Hr.
  - destruct (truthy_str (tempoBias agg)) as [b|]; [|set_solver].
    pose proof (tempoFromBias_values (Some b)) as H.
    apply elem_of_cons. right. exact H.
Qed.

Lemma cnt_S (n : nat) : Fin (cnt n) + num 1 = Fin (cnt (S n)).
Proof.
  unfold cnt, num. simpl. f_equal. apply Qc_is_canon.
  unfold Qcplus, qc. simpl. rewrite !Qred_correct.
  unfold Qeq, Qplus. simpl. lia.
Qed.

Lemma cnt_1 : num 0 + num 1 = Fin (cnt 1).
Proof.
  unfold cnt, num. simpl. f_equal; try (apply Qc_is_canon; reflexivity).
Qed.

Lemma cnt_lt (a b : nat) : (cnt a < cnt b)%Qc <-> (a < b)%nat.
Proof.
  unfold cnt, qc, Qclt. simpl. rewrite !Qred_correct.
  unfold Qlt. simpl. lia.
Qed.

Lemma cnt_le (a b : nat) : (cnt a <= cnt b)%Qc <-> (a <= b)%nat.
Proof.
  unfold cnt, qc, Qcle. simpl. rewrite !Qred_correct.
  unfold Qle. simpl. lia.
Qed.

Section CountsFacts.
Context {K : Type} `{EqDecision K}.
Implicit Types (k v w : K) (ks vs : list K) (g : K -> Qc).

Lemma occurrences_app v vs1 vs2 :
  occurrences v (vs1 ++ vs2)
  = (occurrences v vs1 + occurrences v vs2)%nat.
Proof. induction vs1 as [|x vs1 IH]; simpl; [reflexivity|]. rewrite IH. lia. Qed.

Lemma occurrences_pos v vs : (0 < occurrences v vs)%nat <-> v ∈ vs.
Proof.
  induction vs as [|x vs IH]; simpl.
  - split; [lia | intros H1; inversion H1].
  - rewrite elem_of_cons. destruct (decide (x = v)) as [-> | Hne].
    + split; [auto | lia].
    + rewrite <- IH. split; [auto | intros [E | E]; [congruence | exact E]].
Qed.

Lemma counts_get_map g ks k :
  counts_get (map (fun x => (x, Fin (g x))) ks) k
  = if decide (k ∈ ks) then Some (Fin (g k)) else None.
Proof.
  induction ks as [|x ks IH]; simpl.
  - destruct (decide (k ∈ [])) as [E | E]; [inversion E | reflexivity].
  - destruct (decide (x = k)) as [-> | Hne].
    + rewrite decide_True by (left). reflexivity.
    + rewrite IH. destruct (decide (k ∈ ks)) as [E | E].
      * rewrite decide_True by (right; exact E). reflexivity.
      * rewrite decide_False; [reflexivity|].
        intros E'. apply elem_of_cons in E' as [-> | E']; auto.
Qed.

Lemma counts_set_map_in g g' ks k (c : Qc) :
  NoDup ks -> k ∈ ks -> g' k = c -> (forall x, x <> k -> g' x = g x) ->
  counts_set (map (fun x => (x, Fin (g x))) ks) k (Fin c)
  = map (fun x => (x, Fin (g' x))) ks.
Proof.
  intros Hnd Hin Hk Hoth. induction Hnd as [|x ks Hx Hnd IH]; simpl.
  - inversion Hin.
  - destruct (decide (x = k)) as [-> | Hne].
    + rewrite Hk. f_equal. apply map_ext_in. intros y Hy.
      rewrite Hoth; [reflexivity|]. intros ->.
      apply Hx. apply list_elem_of_In. exact Hy.
    + rewrite (Hoth x Hne). f_equal. apply IH.
      apply elem_of_cons in Hin as [-> | Hin]; [congruence | exact Hin].
Qed.

Lemma counts_set_map_out g g' ks k (c : Qc) :
  k ∉ ks -> g' k = c -> (forall x, x <> k -> g' x = g x) ->
  counts_set (map (fun x => (x, Fin (g x))) ks) k (Fin c)
  = map (fun x => (x, Fin (g' x))) (ks ++ [k]).
Proof.
  intros Hout Hk Hoth. induction ks as [|x ks IH]; simpl.
  - rewrite Hk. reflexivity.
  - destruct (decide (x = k)) as [-> | Hne].
    + exfalso. apply Hout. left.
    + rewrite (Hoth x Hne). f_equal. apply IH.
      intros E. apply Hout. right. exact E.
Qed.

(** The counting loop: one entry per distinct value, holding its number
    of occurrences, in the order in which the values first appear. *)
Lemma count_fold vs :
  exists ks,
    foldl count_vote [] vs
    = map (fun k => (k, Fin (cnt (occurrences k vs)))) ks
    /\ NoDup ks
    /\ (forall k, k ∈ ks <-> k ∈ vs)
    /\ (forall l1 v l2, ks = l1 ++ v :: l2 ->
          exists pre post,
            vs = pre ++ v :: post /\ forall w, w ∈ pre -> w ∈ l1).
Proof.
  induction vs as [|x vs IH] using rev_ind.
  - exists []. split; [reflexivity|]. split; [constructor|].
    split; [reflexivity|]. intros [|? ?] v l2 E; discriminate.
  - destruct IH as (ks & Hm & Hnd & Hin & Hord).
    rewrite foldl_app. simpl. rewrite Hm. unfold count_vote.
    rewrite counts_get_map.
    destruct (decide (x ∈ ks)) as [Hx | Hx].
    + exists ks. cbn beta iota delta [default from_option id]. rewrite cnt_S. split; [|split; [exact Hnd|split]].
      * apply counts_set_map_in; auto.
        -- rewrite occurrences_app. simpl. rewrite decide_True by reflexivity.
           f_equal. lia.
        -- intros y Hy. rewrite occurrences_app. simpl.
           rewrite decide_False by auto. f_equal. lia.
      * intros k. rewrite Hin, elem_of_app, list_elem_of_singleton.
        split; [auto|]. intros [E | ->]; [exact E|]. apply Hin. exact Hx.
      * intros l1 v l2 E. destruct (Hord l1 v l2 E) as (pre & post & -> & Hp).
        exists pre, (post ++ [x]). split; [|exact Hp].
        rewrite <- app_assoc. reflexivity.
    + exists (ks ++ [x]). cbn beta iota delta [default from_option id]. rewrite cnt_1.
      assert (occurrences x vs = 0%nat) as Hz.
      { destruct (occurrences x vs) eqn:E; [reflexivity|].
        exfalso. apply Hx, Hin, occurrences_pos. lia. }
      split; [|split; [|split]].
      * apply counts_set_map_out; auto.
        -- rewrite occurrences_app. simpl. rewrite decide_True by reflexivity.
           rewrite Hz. reflexivity.
        -- intros y Hy. rewrite occurrences_app. simpl.
           rewrite decide_False by auto. f_equal. lia.
      * apply NoDup_app. split; [exact Hnd|]. split; [|apply NoDup_singleton].
        intros y Hy Hy'. apply list_elem_of_singleton in Hy'. subst y. auto.
      * intros k. rewrite !elem_of_app, Hin. reflexivity.
      * intros l1 v l2 E.
        destruct l2 as [|y l2 _] using rev_ind.
        -- apply app_inj_tail in E as [-> ->].
           exists vs, []. split; [reflexivity|].
           intros w Hw. apply Hin. exact Hw.
        -- rewrite app_comm_cons, app_assoc in E.
           apply app_inj_tail in E as [E ->].
           destruct (Hord l1 v l2 E) as (pre & post & -> & Hp).
           exists pre, (post ++ [y]). split; [|exact Hp].
           rewrite <- app_assoc. reflexivity.
Qed.

(** The selection loop keeps the first entry with the greatest count. *)
Lemma best_scan g ks (b : option K) (c : Qc) :
  let r := foldl (fun acc e =>
                    if snd acc <? snd e then (Some (fst e), snd e) else acc)
                 (b, Fin c) (map (fun x => (x, Fin (g x))) ks) in
  (r = (b, Fin c) /\ forall w, w ∈ ks -> (g w <= c)%Qc)
  \/ exists l1 v l2,
       ks = l1 ++ v :: l2 /\ r = (Some v, Fin (g v)) /\ (c < g v)%Qc
       /\ (forall w, w ∈ l1 -> (g w < g v)%Qc)
       /\ (forall w, w ∈ l2 -> (g w <= g v)%Qc).
Proof.
  revert b c. induction ks as [|k ks IH]; intros b c; simpl.
  - left. split; [reflexivity|]. intros w Hw. inversion Hw.
  - case_bool_decide as E.
    + destruct (IH (Some k) (g k))
        as [[Hr Hle] | (l1 & v & l2 & -> & Hr & Hlt & H1 & H2)].
      * right. exists [], k, ks. simpl. repeat split; auto.
        intros w Hw. inversion Hw.
      * right. exists (k :: l1), v, l2. simpl. repeat split; auto.
        -- eapply Qclt_trans; eauto.
        -- intros w Hw. apply elem_of_cons in Hw as [-> | Hw]; auto.
    + apply Qcnot_lt_le in E.
      destruct (IH b c)
        as [[Hr Hle] | (l1 & v & l2 & -> & Hr & Hlt & H1 & H2)].
      * left. split; [exact Hr|].
        intros w Hw. apply elem_of_cons in Hw as [-> | Hw]; auto.
      * right. exists (k :: l1), v, l2. simpl. repeat split; auto.
        intros w Hw. apply elem_of_cons in Hw as [-> | Hw]; auto.
        eapply Qcle_lt_trans; eauto.
Qed.
End CountsFacts.

Lemma best_of_counts {K : Type} `{EqDecision K} (g : K -> Qc) (ks : list K)
    (c : Qc) :
  (forall w, w ∈ ks -> (c < g w)%Qc) ->
  match best_of (Fin c) (map (fun x => (x, Fin (g x))) ks) with
  | None => ks = []
  | Some v =>
      exists l1 l2,
        ks = l1 ++ v :: l2
        /\ (forall w, w ∈ l1 -> (g w < g v)%Qc)
        /\ (forall w, w ∈ ks -> (g w <= g v)%Qc)
  end.
Proof.
  intros Hpos. unfold best_of.
  destruct (best_scan g ks None c)
    as [[Hr Hle] | (l1 & v & l2 & -> & Hr & Hlt & H1 & H2)].
  - rewrite Hr. simpl. destruct ks as [|k ks]; [reflexivity|].
    exfalso. eapply Qclt_not_le; [apply (Hpos k); left|].
    apply Hle. left.
  - rewrite Hr. simpl. exists l1, l2. split; [reflexivity|].
    split; [exact H1|]. intros w Hw.
    apply elem_of_app in Hw as [Hw | Hw].
    + apply Qclt_le_weak. auto.
    + apply elem_of_cons in Hw as [-> | Hw]; [apply Qcle_refl | auto].
Qed.

(** X29. [modeOf] gives nothing for an empty list only. For any other
    list it gives the value that occurs most often, and among several
    such the one that appears first: every value before its first
    occurrence occurs strictly less often. *)
Theorem modeOf_first_most_frequent (values : list string) :
  match modeOf values with
  | None => values = []
  | Some v =>
      exists pre post,
        values = pre ++ v :: post
        /\ (forall w, w ∈ pre ->
              (occurrences w values < occurrences v values)%nat)
        /\ forall w, (occurrences w values <= occurrences v values)%nat
  end.
Proof.
  unfold modeOf. destruct values as [|x vs]; [reflexivity|].
  set (values := x :: vs).
  destruct (count_fold values) as (ks & Hm & Hnd & Hin & Hord).
  rewrite Hm.
  pose proof (best_of_counts (fun k => cnt (occurrences k values)) ks
                (qc 0 1)) as Hb.
  change (Fin (qc 0 1)) with (num 0) in Hb.
  destruct (best_of (num 0) _) as [v|].
  - destruct Hb as (l1 & l2 & Hks & H1 & H2).
    { intros w Hw. change (qc 0 1) with (cnt 0). apply cnt_lt.
      apply occurrences_pos, Hin, Hw. }
    destruct (Hord l1 v l2 Hks) as (pre & post & Hv & Hp).
    exists pre, post. split; [exact Hv|]. split.
    + intros w Hw. apply cnt_lt. apply H1, Hp, Hw.
    + intros w. destruct (decide (w ∈ values)) as [Hw | Hw].
      * apply cnt_le. apply H2, Hin, Hw.
      * destruct (occurrences w values) eqn:E; [lia|].
        exfalso. apply Hw, occurrences_pos. lia.
  - assert (ks = []) as ->.
    { apply Hb. intros w Hw. change (qc 0 1) with (cnt 0). apply cnt_lt.
      apply occurrences_pos, Hin, Hw. }
    exfalso. assert (x ∈ []) as Hx by (apply Hin; left). inversion Hx.
Qed.

Lemma candidates_truthy (r : number) :
  r ∈ ROOT_CANDIDATES -> truthy r = true.
Proof.
  unfold ROOT_CANDIDATES. intros H.
  repeat (apply elem_of_cons in H as [-> | H]); try reflexivity.
  inversion H.
Qed.

Lemma collect_rootVotes trim (acc : Votes) (m : GuidanceMotif) :
  rootVotes (collect trim acc m)
  = rootVotes acc ++ match rootVote m with Some r => [r] | None => [] end.
Proof.
  unfold collect, rootVote. cbn [rootVotes].
  destruct (controlHints m) as [h|]; cbn [default from_option id];
    [|cbn; rewrite app_nil_r; reflexivity].
  unfold truthy_num.
  destruct (hint_favoredRootHz h) as [r|]; [|rewrite app_nil_r; reflexivity].
  destruct (bool_decide (r ∈ ROOT_CANDIDATES)) eqn:E.
  - apply bool_decide_eq_true in E. rewrite (candidates_truthy r E).
    rewrite bool_decide_eq_true_2 by exact E. reflexivity.
  - destruct (truthy r); rewrite ?E, app_nil_r; reflexivity.
Qed.

Lemma fold_rootVotes trim (motifs : list GuidanceMotif) (acc : Votes) :
  rootVotes (foldl (collect trim) acc motifs)
  = rootVotes acc ++ omap rootVote motifs.
Proof.
  revert acc. induction motifs as [|m motifs IH]; intros acc; simpl.
  - rewrite app_nil_r. reflexivity.
  - rewrite IH, collect_rootVotes, <- app_assoc.
    destruct (rootVote m); reflexivity.
Qed.

Lemma best_of_all {K : Type} `{EqDecision K} (g : K -> Qc) (ks : list K) :
  match best_of NegInfinity (map (fun x => (x, Fin (g x))) ks) with
  | None => ks = []
  | Some v => v ∈ ks /\ forall w, w ∈ ks -> (g w <= g v)%Qc
  end.
Proof.
  destruct ks as [|k ks]; [reflexivity|].
  unfold best_of. simpl.
  destruct (best_scan g ks (Some k) (g k))
    as [[Hr Hle] | (l1 & v & l2 & -> & Hr & Hlt & H1 & H2)];
    rewrite Hr; simpl.
  - split; [left|]. intros w Hw.
    apply elem_of_cons in Hw as [-> | Hw]; [apply Qcle_refl | auto].
  - split; [right; apply elem_of_app; right; left|].
    intros w Hw. apply elem_of_cons in Hw as [-> | Hw].
    + apply Qclt_le_weak. exact Hlt.
    + apply elem_of_app in Hw as [Hw | Hw]; [apply Qclt_le_weak; auto|].
      apply elem_of_cons in Hw as [-> | Hw]; [apply Qcle_refl | auto].
Qed.

Lemma favoredRoot_spec (votes : list number) :
  match favoredRoot votes with
  | None => votes = []
  | Some r =>
      r ∈ votes /\ forall w, w ∈ votes -> (score w votes <= score r votes)%Qc
  end.
Proof.
  unfold favoredRoot. destruct votes as [|x vs]; [reflexivity|].
  set (votes := x :: vs).
  destruct (count_fold votes) as (ks & Hm & Hnd & Hin & _).
  rewrite Hm.
  assert (match counts_get
                  (map (fun k => (k, Fin (cnt (occurrences k votes)))) ks)
                  (num 16) with
          | Some c =>
              counts_set
                (map (fun k => (k, Fin (cnt (occurrences k votes)))) ks)
                (num 16) (c + Fin (qc 3 2))
          | None => map (fun k => (k, Fin (cnt (occurrences k votes)))) ks
          end
          = map (fun k => (k, Fin (score k votes))) ks) as ->.
  { rewrite counts_get_map.
    destruct (decide (num 16 ∈ ks)) as [H16 | H16].
    - apply (counts_set_map_in
               (fun k => cnt (occurrences k votes))
               (fun k => score k votes)); auto.
      intros y Hy. unfold score. rewrite decide_False by exact Hy.
      reflexivity.
    - apply map_ext_in. intros k Hk. unfold score.
      rewrite decide_False; [reflexivity|]. intros ->.
      apply H16. apply list_elem_of_In. exact Hk. }
  pose proof (best_of_all (fun k => score k votes) ks) as Hb.
  destruct (best_of NegInfinity _) as [r|].
  - destruct Hb as [Hr Hle]. split; [apply Hin; exact Hr|].
    intros w Hw. apply Hle, Hin, Hw.
  - subst ks. exfalso. assert (x ∈ []) as Hx by (apply Hin; left).
    inversion Hx.
Qed.

Lemma rootVote_candidate (m : GuidanceMotif) (r : number) :
  rootVote m = Some r -> r ∈ ROOT_CANDIDATES.
Proof.
  unfold rootVote. destruct (controlHints m) as [h|]; [|discriminate].
  destruct (hint_favoredRootHz h) as [r'|]; [|discriminate].
  case_bool_decide as E; [|discriminate]. intros [= <-]. exact E.
Qed.

(** X30. The root frequency [aggregateMotifs] favours is one of the five
    candidates, voted for by a motif of an active document, and no vote
    weighs more: a candidate weighs the number of motifs that name it, and
    16 one and a half more. There is none only when no active motif names
    a candidate. *)
Theorem favored_root_weighted (trim : string -> string)
    (docs : list GuidanceDoc) :
  let agg := aggregateMotifs trim docs in
  let votes := omap rootVote (contributingMotifs agg) in
  match favoredRootHz agg with
  | None => votes = []
  | Some r =>
      r ∈ ROOT_CANDIDATES /\ r ∈ votes
      /\ forall w, w ∈ votes -> (score w votes <= score r votes)%Qc
  end.
Proof.
  unfold aggregateMotifs.
  destruct (List.filter _ docs) as [|d ds]; [reflexivity|].
  cbn [favoredRootHz contributingMotifs]. rewrite fold_rootVotes.
  cbn [rootVotes app].
  set (votes := omap rootVote (omap motif (d :: ds))).
  pose proof (favoredRoot_spec votes) as Hf.
  destruct (favoredRoot votes) as [r|]; [|exact Hf].
  destruct Hf as [Hr Hle]. split; [|split; assumption].
  apply list_elem_of_omap in Hr as (m & _ & Hm).
  eapply rootVote_candidate; eauto.
Qed.

Lemma horus_aggregate :
  hasActiveMotifs (aggregateMotifs id [horusDoc]) = true
  /\ fractalBias (aggregateMotifs id [horusDoc]) = Some "recursive"%string.
Proof. split; vm_compute; reflexivity. Qed.

Lemma guidance_pattern_by_bias_witness :
  exists l',
    harmonicLayers
      (applyGuidanceToState id (fun _ => Fin (qc 1 2)) getInitialState
         (aggregateMotifs id [horusDoc])) !! 0%nat = Some l'
    /\ fractalPattern l'
       = Some [num 1; Fin (qc 1 2); Fin (qc 1 4); Fin (qc 1 8)].
Proof.
  destruct horus_aggregate as [Ha Hb].
  destruct (guidance_pattern_by_bias id (fun _ => Fin (qc 1 2))
              getInitialState (aggregateMotifs id [horusDoc]) Ha)
    as [_ H].
  destruct (H 0%nat rootLayer eq_refl) as (l' & H1 & H2 & _).
  exists l'. split; [exact H1|]. rewrite H2, Hb. reflexivity.
Defined.

Lemma guidance_steps_witness :
  length (steps (applyGuidanceToState id (fun _ => Fin (qc 1 2))
                   getInitialState (aggregateMotifs id [horusDoc])))
  = 16%nat.
Proof.
  destruct horus_aggregate as [Ha _].
  destruct (guidance_steps id (fun _ => Fin (qc 1 2)) getInitialState
              (aggregateMotifs id [horusDoc]) Ha) as [H _].
  - intros i. exists (qc 1 2). split; [reflexivity|]. split; to_Q; lra.
  - rewrite H. reflexivity.
Defined.
